(** * ep-stan utilities: a shallow embedding of [epstan/util.py]

    The development follows the four numerical routines of the module:
    - [distribute_groups] (groups to sites),
    - [invert_normal_params] (moment <-> natural parameters),
    - [olse] (optimal linear shrinkage estimator),
    - [cv_moments] (control variate moment estimates).

    Python exceptions are values of [result]; numpy's fixed-width integers
    are [Z] with the wrap-around written out; floating-point arithmetic is kept
    behind the interface [Float64], which the exact instances and the binary64
    instance interpret. *)

From Stdlib Require Import ZArith Lia String List QArith Reals Lra.
From stdpp Require Import base list.

Close Scope Q_scope.
Close Scope R_scope.
Open Scope Z_scope.

(** ** Exceptions *)

Inductive exn : Type :=
  | ValueError (msg : string)
  | IndexError (msg : string)
  | ZeroDivisionError (msg : string)
  | LinAlgError (msg : string).

Inductive result (A : Type) : Type :=
  | Ok (a : A)
  | Raise (e : exn).

Arguments Ok {A} a.
Arguments Raise {A} e.

#[global] Instance result_ret : MRet result := fun A a => Ok a.

#[global] Instance result_bind : MBind result := fun A B f m =>
  match m with
  | Ok a => f a
  | Raise e => Raise e
  end.

Definition is_value_error {A : Type} (r : result A) : Prop :=
  match r with
  | Raise (ValueError _) => True
  | _ => False
  end.

Definition is_ok {A : Type} (r : result A) : Prop :=
  match r with
  | Ok _ => True
  | Raise _ => False
  end.

(** [for _ in range(n): s = body(s)] *)
Fixpoint repeat_m {S : Type} (n : nat) (body : S → result S) (s : S) : result S :=
  match n with
  | O => Ok s
  | S n' => s' ← body s; repeat_m n' body s'
  end.

(** [for x in xs: s = body(x, s)] *)
Fixpoint for_m {X S : Type} (xs : list X) (body : X → S → result S) (s : S) : result S :=
  match xs with
  | [] => Ok s
  | x :: xs' => s' ← body x s; for_m xs' body s'
  end.

(** [range(n)] for a Python or numpy integer [n] *)
Definition py_range (n : Z) : list Z := seqZ 0 n.

(** ** Floating point, as far as the routines use it

    The operations of numpy's float64 are an interface: no law is assumed of
    them, so what is proved from the interface alone holds of IEEE arithmetic
    and of exact arithmetic alike. *)

Class Float64 : Type := {
  float : Type;
  of_int : Z → float;                    (* int -> float conversion *)
  fadd : float → float → float;
  fsub : float → float → float;
  fmul : float → float → float;
  fdiv : float → float → float;
  fneg : float → float;
  flt : float → float → bool;           (* x < y *)
  feq : float → float → bool;           (* x == y *)
  fsum : list float → float;            (* np.sum of the entries, in numpy's order *)
  fexp : float → float;
  flog : float → float;
  fpi : float;
  fhalf : float;                         (* the literal 0.5 *)
}.

(** ** numpy int64 arithmetic *)

Definition wrap64 (z : Z) : Z := (z + 2 ^ 63) mod 2 ^ 64 - 2 ^ 63.
Definition wrap32 (z : Z) : Z := (z + 2 ^ 31) mod 2 ^ 32 - 2 ^ 31.

Definition int64_add (x y : Z) : Z := wrap64 (x + y).
Definition int64_mul (x y : Z) : Z := wrap64 (x * y).
(** numpy's integer [//] and [%] give 0 on a zero divisor. *)
Definition int64_floordiv (x y : Z) : Z := if y =? 0 then 0 else wrap64 (x / y).
Definition int64_mod (x y : Z) : Z := if y =? 0 then 0 else x mod y.

Definition Zsum (l : list Z) : Z := foldr Z.add 0 l.

(** [a.sum()] on an int64 array *)
Definition np_sum (a : list Z) : Z := foldl int64_add 0 a.

(** [np.cumsum(a)] on an int64 array *)
Fixpoint np_cumsum_from (acc : Z) (a : list Z) : list Z :=
  match a with
  | [] => []
  | x :: a' => let acc' := int64_add acc x in acc' :: np_cumsum_from acc' a'
  end.

Definition np_cumsum (a : list Z) : list Z := np_cumsum_from 0 a.

(** [np.ones(n, dtype=np.int64)] *)
Definition np_ones (n : Z) : result (list Z) :=
  if n <? 0 then Raise (ValueError "negative dimensions are not allowed")
  else Ok (replicate (Z.to_nat n) 1).

(** [np.empty(n, dtype=...)] of an integer type: the cells hold whatever the
    allocator left; they are modelled as zeros. *)
Definition np_empty (n : Z) : result (list Z) :=
  if n <? 0 then Raise (ValueError "negative dimensions are not allowed")
  else Ok (replicate (Z.to_nat n) 0).

(** ** Indexing of Python lists and one-dimensional arrays *)

(** The position an index denotes: negative indices count from the end. *)
Definition norm_index (len : nat) (i : Z) : option nat :=
  if 0 <=? i then (if i <? Z.of_nat len then Some (Z.to_nat i) else None)
  else if 0 <=? Z.of_nat len + i then Some (Z.to_nat (Z.of_nat len + i))
  else None.

(** [l[i]] *)
Definition get_item {A : Type} (l : list A) (i : Z) : result A :=
  match norm_index (length l) i with
  | Some p =>
      match l !! p with
      | Some x => Ok x
      | None => Raise (IndexError "index out of range")
      end
  | None => Raise (IndexError "index out of range")
  end.

(** [l[i] = x] *)
Definition set_item {A : Type} (l : list A) (i : Z) (x : A) : result (list A) :=
  match norm_index (length l) i with
  | Some p => Ok (<[p := x]> l)
  | None => Raise (IndexError "assignment index out of range")
  end.

(** [l.pop(i)], the popped value dropped *)
Definition pop_item {A : Type} (l : list A) (i : Z) : result (list A) :=
  match norm_index (length l) i with
  | Some p => Ok (delete p l)
  | None => Raise (IndexError "pop index out of range")
  end.

(** A slice bound, clamped as Python does. *)
Definition slice_bound (len : nat) (i : Z) : nat :=
  if i <? 0 then Z.to_nat (Z.max 0 (Z.of_nat len + i))
  else Z.to_nat (Z.min i (Z.of_nat len)).

(** [a[lo:hi] = v] for a scalar [v] *)
Definition slice_fill {A : Type} (a : list A) (lo hi : Z) (v : A) : list A :=
  let l := slice_bound (length a) lo in
  let h := slice_bound (length a) hi in
  if (l <? h)%nat then take l a ++ replicate (h - l) v ++ drop h a else a.

(** [min(l)] of a Python list *)
Definition py_min (l : list Z) : result Z :=
  match l with
  | [] => Raise (ValueError "min() arg is an empty sequence")
  | x :: l' => Ok (foldl Z.min x l')
  end.

(** [l.index(x)]: the first position holding [x] *)
Fixpoint py_index (x : Z) (l : list Z) : result Z :=
  match l with
  | [] => Raise (ValueError "x is not in list")
  | y :: l' => if y =? x then Ok 0 else i ← py_index x l'; Ok (i + 1)
  end.

(** ** [distribute_groups] *)

(** The argument [Nj]: a Python int or an int64 array of some shape. *)
Record ndarray : Type := NdArray { nd_shape : list Z; nd_data : list Z }.

Inductive Nj_arg : Type :=
  | NjInt (n : Z)
  | NjArr (a : ndarray).

(** The returned triple [(Nk, Nj_k or Nk_j, j_ind_k)]. *)
Record sites : Type := Sites {
  Nk : list Z;
  per_site : option (list Z);
  j_ind_k : option (list Z);
}.

Section DistributeGroups.

Context {FL : Float64}.

(** [a.argmax()] on a float array: the first position of the largest entry. *)
Fixpoint argmax_from (best : float) (ibest i : Z) (a : list float) : Z :=
  match a with
  | [] => ibest
  | x :: a' => if flt best x then argmax_from x i (i + 1) a' else argmax_from best ibest (i + 1) a'
  end.

Definition np_argmax (a : list float) : result Z :=
  match a with
  | [] => Raise (ValueError "attempt to get argmax of an empty sequence")
  | x :: a' => Ok (argmax_from x 0 1 a')
  end.

(** One pass of the loop of the branch [K < J] (lines 590-599). *)
Definition merge_step (st : list Z * list Z * list Z) : result (list Z * list Z * list Z) :=
  let '(Nk, Njd, Nj_k) := st in
  m ← py_min Njd;
  ind ← py_index m Njd;
  Njd ← (if ind + 1 <? Z.of_nat (length Njd)
         then a ← get_item Njd (ind + 1); b ← get_item Nk ind; set_item Njd (ind + 1) (a + b)
         else Ok Njd);
  Njd ← (if 0 <? ind
         then a ← get_item Njd (ind - 1); b ← get_item Nk (ind + 1); set_item Njd (ind - 1) (a + b)
         else Ok Njd);
  v ← get_item Njd ind;
  Nk ← set_item Nk ind v;
  Nk ← pop_item Nk (ind + 1);
  Njd ← pop_item Njd ind;
  a ← get_item Nj_k ind;
  b ← get_item Nj_k (ind + 1);
  Nj_k ← set_item Nj_k ind (a + b);
  Nj_k ← pop_item Nj_k (ind + 1);
  Ok (Nk, Njd, Nj_k).

(** The within-site group indexes (lines 602-607). *)
Definition within_site_body (j_lim k_lim : list Z) (k ji : Z) (j_ind_k : list Z) : result (list Z) :=
  kl ← get_item k_lim k;
  let ki := int64_add ji kl in
  lo ← get_item j_lim ki;
  hi ← get_item j_lim (ki + 1);
  Ok (slice_fill j_ind_k lo hi (wrap32 ji)).

Definition within_site (N K : Z) (j_lim Nj_k : list Z) : result (list Z) :=
  j_ind_k ← np_empty N;
  let k_lim := 0 :: np_cumsum Nj_k in
  for_m (py_range K)
    (fun k j_ind_k => n ← get_item Nj_k k; for_m (py_range n) (within_site_body j_lim k_lim k) j_ind_k)
    j_ind_k.

(** The branch [K < J]: many groups per site (lines 583-608). *)
Definition merge_groups (J K N : Z) (Nj : list Z) : result sites :=
  let j_lim := 0 :: np_cumsum Nj in
  let Nk := Nj in
  let Njd := zip_with int64_add (removelast Nj) (tail Nj) in
  let Nj_k := replicate (Z.to_nat J) 1 in
  '(Nk, _, Nj_k) ← repeat_m (Z.to_nat (J - K)) merge_step (Nk, Njd, Nj_k);
  j_ind_k ← within_site N K j_lim Nj_k;
  Ok (Sites Nk (Some Nj_k) (Some j_ind_k)).

(** One pass of the loop of the branch [J < K <= N] (lines 620-623). *)
Definition split_step (Nj : list Z) (st : list Z * list float) : result (list Z * list float) :=
  let '(ppg, Nj2) := st in
  cur_max ← np_argmax Nj2;
  p ← get_item ppg cur_max;
  ppg ← set_item ppg cur_max (int64_add p 1);
  n ← get_item Nj cur_max;
  p ← get_item ppg cur_max;
  Nj2 ← set_item Nj2 cur_max (fdiv (of_int n) (of_int p));
  Ok (ppg, Nj2).

(** The sites of group [j] (lines 630-635). *)
Definition fill_group (ppg Nj2 rem : list Z) (j : Z) (st : list Z * Z) : result (list Z * Z) :=
  p ← get_item ppg j;
  for_m (py_range p)
    (fun kj '(Nk, k) =>
       r ← get_item rem j;
       q ← get_item Nj2 j;
       Nk ← set_item Nk k (if kj <? r then int64_add q 1 else q);
       Ok (Nk, k + 1))
    st.

(** The branch [J < K <= N]: multiple sites per group (lines 616-636). *)
Definition split_groups (J K : Z) (Nj : list Z) : result sites :=
  ppg ← np_ones J;
  let Nj2 := of_int <$> Nj in
  '(ppg, _) ← repeat_m (Z.to_nat (K - J)) (split_step Nj) (ppg, Nj2);
  let Nj2 := zip_with int64_floordiv Nj ppg in
  let rem := zip_with int64_mod Nj ppg in
  Nk ← np_empty K;
  '(Nk, _) ← for_m (py_range J) (fill_group ppg Nj2 rem) (Nk, 0);
  Ok (Sites Nk (Some ppg) None).

(** The argument check of lines 571-574: the array of group sizes. *)
Definition group_sizes (J : Z) (Nj : Nj_arg) : result (list Z) :=
  match Nj with
  | NjInt n => ones ← np_ones J; Ok (int64_mul n <$> (ones : list Z))
  | NjArr a =>
      if negb (length (nd_shape a) =? 1)%nat || negb (default 0 (nd_shape a !! 0%nat) =? J)
      then Raise (ValueError "Invalid shape of arg. `Nj`.")
      else Ok (nd_data a)
  end.

Definition distribute_groups (J K : Z) (Nj : Nj_arg) : result sites :=
  Nj ← group_sizes J Nj;
  if existsb (fun n => n <=? 0) Nj
  then Raise (ValueError "Every group must have at least one item")
  else
    let N := np_sum Nj in
    if K <? 2 then Raise (ValueError "K should be at least 2.")
    else if K <? J then merge_groups J K N Nj
    else if K =? J then Ok (Sites Nj None None)
    else if K <=? N then split_groups J K Nj
    else Raise (ValueError "K cant be greater than number of samples").

End DistributeGroups.

(** ** The reference process of merging adjacent groups

    A group is a pair (number of samples, number of original groups). *)

Abbreviation group := (Z * Z)%type (only parsing).

Definition merge_pair (g h : group) : group := (g.1 + h.1, g.2 + h.2).

(** The combined sizes of the adjacent pairs of the current list. *)
Definition pair_sizes (gs : list group) : list Z :=
  zip_with (fun g h => g.1 + h.1) gs (tail gs).

(** The first adjacent pair whose combined size is smallest. *)
Definition smallest_pair (gs : list group) : option nat :=
  let sizes := pair_sizes gs in
  fst <$> list_find (fun s => Forall (fun t => s <= t) sizes) sizes.

(** Replace the pair at positions [i], [i+1] by the merged group. *)
Definition merge_at (i : nat) (gs : list group) : list group :=
  match gs !! i, gs !! S i with
  | Some g, Some h => take i gs ++ merge_pair g h :: drop (S (S i)) gs
  | _, _ => gs
  end.

Definition reference_step (gs : list group) : list group :=
  match smallest_pair gs with
  | Some i => merge_at i gs
  | None => gs
  end.

(** Merge until exactly [K] groups remain. *)
Fixpoint reference_merge (fuel : nat) (K : nat) (gs : list group) : list group :=
  match fuel with
  | O => gs
  | S fuel' => if (length gs =? K)%nat then gs else reference_merge fuel' K (reference_step gs)
  end.

Definition reference_sites (K : Z) (sizes : list Z) : list group :=
  reference_merge (length sizes) (Z.to_nat K) ((fun n => (n, 1)) <$> sizes).


(** ** Dense arrays of floats

    A two-dimensional array is the list of its rows. [entry] reads a cell,
    [tabulate] builds an array of a given shape from its cells. *)

#[global] Instance float_inhabited {FL : Float64} : Inhabited float := populate (of_int 0).

Abbreviation vector := (list float) (only parsing).
Abbreviation matrix := (list (list float)) (only parsing).

Section Arrays.

Context {FL : Float64}.

Definition nrows (A : matrix) : nat := length A.
Definition ncols (A : matrix) : nat := length (A !!! 0%nat).
Definition entry (A : matrix) (i j : nat) : float := (A !!! i) !!! j.

Definition tabulate (r c : nat) (f : nat → nat → float) : matrix :=
  (fun i => f i <$> seq 0 c) <$> seq 0 r.

Definition is_matrix (r c : nat) (A : matrix) : Prop :=
  length A = r ∧ Forall (fun row => length row = c) A.


(** [A.T] *)
Definition transpose (A : matrix) : matrix :=
  tabulate (ncols A) (nrows A) (fun i j => entry A j i).

Definition column (A : matrix) (j : nat) : vector := (fun row => row !!! j) <$> A.

(** The inner product of two one-dimensional arrays. *)
Definition dot (x y : vector) : float := fsum (zip_with fmul x y).

(** [A.dot(B)] of two-dimensional arrays *)
Definition mat_mul (A B : matrix) : matrix :=
  tabulate (nrows A) (ncols B) (fun i j => dot (A !!! i) (column B j)).

(** [x.dot(A)] of a one-dimensional [x] *)
Definition vec_mat (x : vector) (A : matrix) : vector :=
  (fun j => dot x (column A j)) <$> seq 0 (ncols A).

Definition map_matrix (f : float → float) (A : matrix) : matrix :=
  (fun row : vector => f <$> row) <$> A.
Definition zip_matrix (f : float → float → float) (A B : matrix) : matrix :=
  zip_with (zip_with f) A B.

(** [A * x] and [A / n] by a scalar *)
Definition scale (A : matrix) (x : float) : matrix := map_matrix (fun a => fmul a x) A.

(** [A - v], the row [v] broadcast over the rows of [A] *)
Definition sub_rows (A : matrix) (v : vector) : matrix := (fun row => zip_with fsub row v) <$> A.

(** [np.sum(A, axis=0)], [np.sum(A, axis=1)] and [np.mean(A, axis=0)] *)
Definition col_sums (A : matrix) : vector := (fun j => fsum (column A j)) <$> seq 0 (ncols A).
Definition row_sums (A : matrix) : vector := fsum <$> A.
Definition col_means (A : matrix) : vector :=
  (fun s => fdiv s (of_int (Z.of_nat (nrows A)))) <$> col_sums A.

(** [np.trace(A)] and [np.diag(A)] *)
Definition np_diag (A : matrix) : vector :=
  (fun i => entry A i i) <$> seq 0 (Nat.min (nrows A) (ncols A)).
Definition np_trace (A : matrix) : float := fsum (np_diag A).

(** An elementwise operation of two arrays; numpy refuses shapes that do not
    broadcast, and broadcasting of unequal shapes is not modelled. *)
Definition elementwise (f : float → float → float) (A B : matrix) : result matrix :=
  if bool_decide (length <$> A = length <$> B) then Ok (zip_matrix f A B)
  else Raise (ValueError "operands could not be broadcast together").

(** [A.flat[::step] += x]: the cells of the row-major flattening at the
    multiples of [step]. *)
Definition add_at_stride (A : matrix) (step : nat) (x : float) : matrix :=
  imap (fun i row => imap (fun j a => if ((i * ncols A + j) mod step =? 0)%nat then fadd a x else a) row) A.

(** Whether a Python value that is [None] or a float counts as true. *)
Definition truthy (o : option float) : bool :=
  match o with
  | Some x => negb (feq x (of_int 0))
  | None => false
  end.

(** [a / b] of two Python ints *)
Definition int_true_divide (a b : Z) : result float :=
  if b =? 0 then Raise (ZeroDivisionError "division by zero")
  else Ok (fdiv (of_int a) (of_int b)).

(** *** The helpers of [cython_util] *)

(** Modelled from the spec: [copy_triu_to_tril] of [cython_util] is not among
    the sources; the lower triangle is copied from the upper one. *)
Definition copy_triu_to_tril (A : matrix) : matrix :=
  imap (fun i row => imap (fun j a => if (j <? i)%nat then entry A j i else a) row) A.

(** Modelled from the spec: [fro_norm_squared] of [cython_util] is not among
    the sources; the squared Frobenius norm is the sum of the squared cells. *)
Definition fro_norm_squared (A : matrix) : float :=
  fsum ((fun a => fmul a a) <$> concat A).

(** The pairs [(i, j)], [i <= j < d], of the upper triangle in row-major order. *)
Definition triu_indices (d : nat) : list (nat * nat) :=
  i ← seq 0 d; (fun j => (i, j)) <$> seq i (d - i).

(** Modelled from the spec: [ravel_triu] of [cython_util] is not among the
    sources; the upper triangle is unravelled in row-major order. *)
Definition ravel_triu (A : matrix) : vector :=
  (fun ij => entry A ij.1 ij.2) <$> triu_indices (nrows A).

(** Modelled from the spec: [auto_outer] of [cython_util] is not among the
    sources; each row [x] gives the upper triangle of its outer product with
    itself, in row-major order. *)
Definition auto_outer (A : matrix) : matrix :=
  (fun x : vector => (fun ij : nat * nat => fmul (x !!! ij.1) (x !!! ij.2)) <$> triu_indices (length x)) <$> A.

(** The position of the cell [(i, j)], [i <= j], in the unravelled triangle. *)
Definition triu_position (d i j : nat) : nat := (i * d - i * (i - 1) / 2 + (j - i))%nat.

(** Modelled from the spec: [unravel_triu] of [cython_util] is not among the
    sources; the inverse of [ravel_triu], filling both triangles of a
    [d]-by-[d] array. *)
Definition unravel_triu (v : vector) (d : nat) : matrix :=
  tabulate d d (fun i j => v !!! triu_position d (Nat.min i j) (Nat.max i j)).

End Arrays.

(** ** The LAPACK routines behind [scipy.linalg]

    The routines work in place: what they return has the shape of what they
    are given. *)

Class Lapack {FL : Float64} : Type := {
  (** [linalg.cho_factor(a)[0]]: the upper Cholesky factor of [a] in the upper
      triangle, [LinAlgError] when [a] is not positive definite *)
  cho_factor : matrix → result matrix;
  (** [linalg.cho_solve((c, False), b)], [ValueError] when [b] does not have
      the length of [c] or holds a value that is not finite *)
  cho_solve : matrix → vector → result vector;
  (** [dpotri(c)]: the inverse of the matrix whose upper Cholesky factor is
      [c], in the upper triangle, and the status [info] *)
  potri : matrix → matrix * Z;
  (** [linalg.solve(a, b)], [LinAlgError] when [a] is singular *)
  solve : matrix → matrix → result matrix;
  cho_factor_shape : ∀ A U r c, cho_factor A = Ok U → is_matrix r c A → is_matrix r c U;
  cho_solve_length : ∀ U b x, cho_solve U b = Ok x → length x = length b;
  potri_shape : ∀ U r c, is_matrix r c U → is_matrix r c (potri U).1;
}.

Section Routines.

Context {FL : Float64} {LP : Lapack}.

(** ** [invert_normal_params]

    The outputs are new arrays ([out_A], [out_b] left at [None]). *)
Definition invert_normal_params (A : matrix) (b : option vector) (cho_form : bool)
  : result (matrix * option vector) :=
  (* Process parameters *)
  let out_A := A in
  let out_b := b in
  (* Invert *)
  cho ← (if negb cho_form then cho_factor out_A else Ok out_A);
  let out_A := cho in
  out_b ← match out_b with
           | Some b => x ← cho_solve cho b; Ok (Some x)
           | None => Ok None
           end;
  let '(out_A, info) := potri out_A in
  if negb (info =? 0)
  then Raise (LinAlgError "dpotri LAPACK routine failed with error code")
  else
    (* Copy the upper triangular into the bottom *)
    Ok (copy_triu_to_tril out_A, out_b).

(** ** [olse]

    The output is a new array ([out] left at [None]). *)
Definition olse (S : matrix) (n : Z) (P : option matrix) : result matrix :=
  let out := S in
  (* Calculate *)
  let d := Z.of_nat (nrows out) in
  '(out, _) ← invert_normal_params out None false;
  let tr := np_trace out in
  let tr2 := fmul tr tr in
  let f2 := fro_norm_squared (transpose out) in
  match P with
  | None =>
      (* Naive prior *)
      let alpha :=
        fsub (of_int 1)
          (fdiv (fadd (of_int d) (fdiv tr2 (fsub f2 (fdiv tr2 (of_int d))))) (of_int n)) in
      dn ← int_true_divide d n;
      let beta := fmul tr (fsub (fsub (of_int 1) dn) alpha) in
      let out := scale out alpha in
      Ok (add_at_stride out (ncols out + 1) (fdiv beta (of_int d)))
  | Some P =>
      (* Use provided prior *)
      let f2p := fro_norm_squared (transpose P) in
      temp ← elementwise fmul out P;
      let trSP := fsum (concat temp) in
      let alpha :=
        fsub (of_int 1)
          (fdiv (fadd (of_int d)
                   (fdiv (fmul tr2 f2p) (fsub (fmul f2 f2p) (fmul trSP trSP))))
                (of_int n)) in
      dn ← int_true_divide d n;
      let beta := fmul (fdiv trSP f2p) (fsub (fsub (of_int 1) dn) alpha) in
      let out := scale out alpha in
      Ok (zip_matrix fadd out (map_matrix (fmul beta) P))
  end.

(** ** [_cv_estim] and [cv_moments] *)

Record cv_options : Type := CvOptions {
  multiple_cv : bool;
  regulate_a : option float;
  max_a : option float;
}.

(** The correlation term [a]: a matrix, a vector, or the int 0 of the
    fallback. *)
Inductive coef : Type :=
  | CoefInt (z : Z)
  | CoefVec (a : vector)
  | CoefMat (a : matrix).

Definition map_coef (f : float → float) (a : coef) : coef :=
  match a with
  | CoefInt z => CoefInt z
  | CoefVec a => CoefVec (f <$> a)
  | CoefMat a => CoefMat (map_matrix f a)
  end.

Definition coef_matrix (a : coef) : matrix := if a is CoefMat a then a else [].
Definition coef_vector (a : coef) : vector := if a is CoefVec a then a else [].

(** [np.clip(x, lo, hi)] *)
Definition clip (lo hi x : float) : float :=
  if flt x lo then lo else if flt hi x then hi else x.

Definition cv_estim (f h : matrix) (Eh : vector) (opt : cv_options)
    (cov_k var_k ddof_f ddof_h : Z) : result (vector * coef) :=
  let n := Z.of_nat (nrows f) in
  (* Calc mean of f and h *)
  let out := col_sums f in
  let out := (fun x => fdiv x (of_int (n - ddof_f))) <$> out in
  let fc := sub_rows f out in
  let hc := sub_rows h Eh in
  (* Estimate a *)
  a ← (if multiple_cv opt then
         let var_h := transpose (mat_mul (transpose hc) hc) in
         let cov_fh := transpose (mat_mul (transpose fc) hc) in
         let cov_fh := if negb (cov_k =? 0) then scale cov_fh (of_int cov_k) else cov_fh in
         let var_h := if negb (var_k =? 0) then scale var_h (of_int var_k) else var_h in
         a ← solve var_h cov_fh; Ok (CoefMat a)
       else
         let var_h := col_sums (map_matrix (fun x => fmul x x) hc) in
         let cov_fh := col_sums (zip_matrix fmul fc hc) in
         let cov_fh := if negb (cov_k =? 0) then (fun x => fmul x (of_int cov_k)) <$> cov_fh else cov_fh in
         let var_h := if negb (var_k =? 0) then (fun x => fmul x (of_int var_k)) <$> var_h else var_h in
         Ok (CoefVec (zip_with fdiv cov_fh var_h)));
  (* Regulate a *)
  let a := if truthy (regulate_a opt)
           then map_coef (fun x => fmul x (default (of_int 0) (regulate_a opt))) a else a in
  let a := if truthy (max_a opt)
           then map_coef (clip (fneg (default (of_int 0) (max_a opt)))
                               (default (of_int 0) (max_a opt))) a
           else a in
  (* Calc f_hat *)
  let hm :=
    if ddof_h =? 0 then col_means hc
    else zip_with fsub ((fun x => fdiv x (of_int (n - ddof_h))) <$> col_sums h) Eh in
  let out :=
    if multiple_cv opt then zip_with fsub out (vec_mat hm (coef_matrix a))
    else zip_with fsub out (zip_with fmul hm (coef_vector a)) in
  Ok (out, a).

(** What [cv_moments] returns; [a_S] and [a_m] are there when [ret_a] is set. *)
Record cv_output : Type := CvOutput {
  S_hat : matrix;
  m_hat : vector;
  treshold_exceeded : bool;
  a_S : option coef;
  a_m : option coef;
}.

(** The fraction of the samples below [m_tilde], per dimension (line 357). *)
Definition thratios (samp : matrix) (m_tilde : vector) : vector :=
  let n := Z.of_nat (nrows samp) in
  (fun j => fdiv (of_int (Z.of_nat (length (filter (fun row : vector => flt (row !!! j) (m_tilde !!! j) = true) samp))))
                 (of_int n))
    <$> seq 0 (ncols samp).

(** The test of line 358. *)
Definition ratio_exceeded (m_treshold : float) (ratios : vector) : bool :=
  existsb (fun r => flt m_treshold r) ratios
  || existsb (fun r => flt r (fsub (of_int 1) m_treshold)) ratios.

(** The moment parameters of the control variate distribution, and the
    Cholesky factor of [Q_tilde] when it is needed (lines 326-331). *)
Definition tilde_parameters (Q_tilde : matrix) (r_tilde : vector)
    (S_tilde : option matrix) (m_tilde : option vector) (ldet_Q_tilde : option float)
  : result (option matrix * matrix * vector) :=
  (* Invert Q_tilde, r_tilde to moment params if not provided *)
  cho_tilde ← (if bool_decide (S_tilde = None ∨ m_tilde = None ∨ ldet_Q_tilde = None)
                then U ← cho_factor Q_tilde; Ok (Some U) else Ok None);
  match S_tilde, m_tilde with
  | Some St, Some mt => Ok (cho_tilde, St, mt)
  | _, _ =>
      '(St, mt) ← invert_normal_params (default [] cho_tilde) (Some r_tilde) true;
      Ok (cho_tilde, St, default [] mt)
  end.

(** Whether the normal sample estimates are used (lines 353-358). *)
Definition use_sample_estimates (m_treshold : option float) (samp : matrix) (m_tilde : vector)
  : bool :=
  if truthy m_treshold then
    (* Check if the treshold ratio is exceeded *)
    let t := default (of_int 0) m_treshold in
    let t := if flt t fhalf then fsub (of_int 1) t else t in
    ratio_exceeded t (thratios samp m_tilde)
  else false.

(** The normal sample estimates (lines 360-367), with the contents of the
    caller's arrays [samp] and [lp] at the return: [samp -= m_hat] works in
    place. *)
Definition sample_estimates (samp : matrix) (lp : vector) (ret_a : bool)
  : cv_output * (matrix * vector) :=
  let n := Z.of_nat (nrows samp) in
  let m_hat := col_means samp in
  let samp := sub_rows samp m_hat in
  let S_hat := transpose (mat_mul (transpose samp) samp) in
  let S_hat := map_matrix (fun x => fdiv x (of_int (n - 1))) S_hat in
  (CvOutput S_hat m_hat false
     (if ret_a then Some (CoefInt 0) else None)
     (if ret_a then Some (CoefInt 0) else None),
   (samp, lp)).

(** The control variate estimates (lines 369-411). *)
Definition control_variate_estimates (samp : matrix) (lp : vector)
    (S_tilde : matrix) (m_tilde : vector) (dev_tilde : matrix) (pr : vector)
    (opt : cv_options) (ret_a : bool)
  : result (cv_output * (matrix * vector)) :=
  let n := Z.of_nat (nrows samp) in
  let d := Z.of_nat (ncols samp) in
  let f := samp in
  let h := zip_with (fun row p => (fun x => fmul x p) <$> row) samp pr in
  (* Estimate f_hat *)
  '(m_hat, a_m) ← cv_estim f h m_tilde opt n (n - 1) 0 0;
  (* Covariance *)
  let h := auto_outer dev_tilde in
  let h := zip_with (fun row p => (fun x => fmul x p) <$> row) h pr in
  let Eh := ravel_triu (transpose S_tilde) in
  let dev := sub_rows samp m_hat in
  let f := auto_outer dev in
  '(d2vec, a_S) ← cv_estim f h Eh opt (n * n) ((n - 1) * (n - 1)) 1 0;
  (* Reshape f_hat into covariance matrix S_hat *)
  let S_hat := transpose (unravel_triu d2vec (Z.to_nat d)) in
  Ok (CvOutput S_hat m_hat true
        (if ret_a then Some a_S else None)
        (if ret_a then Some a_m else None),
      (samp, lp)).

(** [cv_moments], with the output arrays [S_hat] and [m_hat] left at [None].
    Beside its results the function gives the contents of the caller's arrays
    [samp] and [lp] when it returns.  The arrays have matching shapes ([samp]
    is n-by-d, [lp] has n entries, [m_tilde] has d and [Q_tilde] is d-by-d):
    numpy's broadcasting of other shapes, and its [ValueError] where they do
    not broadcast (lines 338-344), are not modelled, and the statements that
    conclude a return assume the shapes. *)
Definition cv_moments (samp : matrix) (lp : vector) (Q_tilde : matrix) (r_tilde : vector)
    (S_tilde : option matrix) (m_tilde : option vector) (ldet_Q_tilde : option float)
    (multiple_cv : bool) (regulate_a max_a m_treshold : option float) (ret_a : bool)
  : result (cv_output * (matrix * vector)) :=
  let opt := CvOptions multiple_cv regulate_a max_a in
  let d := Z.of_nat (ncols samp) in
  '(cho_tilde, S_tilde, m_tilde) ←
     tilde_parameters Q_tilde r_tilde S_tilde m_tilde ldet_Q_tilde;
  (* Calc lp_tilde *)
  let log_2pi := flog (fmul (of_int 2) fpi) in
  let const :=
    match ldet_Q_tilde with
    | None => fsub (fsum (flog <$> np_diag (default [] cho_tilde)))
                   (fmul (fmul fhalf (of_int d)) log_2pi)
    | Some ldet => fsub ldet (fmul (fmul fhalf (of_int d)) log_2pi)
    end in
  let dev_tilde := sub_rows samp m_tilde in
  let lp_tilde := row_sums (zip_matrix fmul (mat_mul dev_tilde Q_tilde) dev_tilde) in
  let lp_tilde := (fun x => fmul x fhalf) <$> lp_tilde in
  let lp_tilde := (fun x => fsub const x) <$> lp_tilde in
  (* Probability ratios *)
  let pr := zip_with fsub lp_tilde lp in
  let pr := fexp <$> pr in
  if use_sample_estimates m_treshold samp m_tilde then
    (* Return normal sample estimates instead *)
    Ok (sample_estimates samp lp ret_a)
  else
    control_variate_estimates samp lp S_tilde m_tilde dev_tilde pr opt ret_a.

End Routines.

(** ** [get_liks] of the model [m1a]

    The caller of [distribute_groups] in [src/experiment/models/m1a.py]: it
    cuts the simulated data into the data of the sites. *)

Module m1a.

Section GetLiks.

Context {FL : Float64}.

(** The attributes of a [data] object that [get_liks] reads ([data] is a
    class of the module [common]): the inputs [X], the responses [y], the
    sizes of the groups, their limits in [X] and [y], and the number of
    observations. *)
Record data : Type := Data {
  X : matrix;
  y : vector;
  Nj : ndarray;
  j_lim : list Z;
  N : Z;
}.

(** The attributes of a [_lik] object, as its constructor stores them. *)
Record _lik : Type := Lik {
  lik_X : matrix;
  lik_y : vector;
  lik_Nj : Z;
  lik_j_lim : list Z;
}.

(** [a[lo:hi]] *)
Definition py_slice {A : Type} (a : list A) (lo hi : Z) : list A :=
  let l := slice_bound (length a) lo in
  let h := slice_bound (length a) hi in
  take (h - l) (drop l a).

Definition int64_sub (x y : Z) : Z := wrap64 (x - y).

(** [Nj_k] read as an array. [distribute_groups] returns [None] there only
    for [K >= J], which the branch that reads it excludes; numpy raises a
    [TypeError] on [None], an exception this development has no name for. *)
Definition as_array (a : option (list Z)) : result (list Z) :=
  match a with
  | Some a => Ok a
  | None => Raise (ValueError "None is not an array")
  end.

Definition get_liks (J K : Z) (d : data) : result (list _lik) :=
  if K <? 2 then Raise (ValueError "K should be at least 2.")
  else if K <? J then
    (* ------ Many groups per site: combine groups ------ *)
    out ← distribute_groups J K (NjArr (Nj d));
    Nj_k ← as_array (per_site out);
    let k_lim := 0 :: np_cumsum Nj_k in
    for_m (py_range K)
      (fun k liks =>
         kl ← get_item k_lim k;
         start ← get_item (j_lim d) kl;
         kl1 ← get_item k_lim (k + 1);
         end_ ← get_item (j_lim d) kl1;
         n ← get_item Nj_k k;
         Ok (liks ++ [Lik (py_slice (X d) start end_) (py_slice (y d) start end_) n
                          ((fun v => int64_sub v start)
                             <$> py_slice (j_lim d) kl (int64_add kl1 1))]))
      []
  else if K =? J then
    (* ------ One group per site ------ *)
    for_m (py_range K)
      (fun k liks =>
         start ← get_item (j_lim d) k;
         end_ ← get_item (j_lim d) (k + 1);
         Ok (liks ++ [Lik (py_slice (X d) start end_) (py_slice (y d) start end_) 1
                          [0; int64_sub end_ start]]))
      []
  else if K <=? N d then Raise (ValueError "Splitting groups is not implemented")
  else Raise (ValueError "K cant be greater than number of samples").

End GetLiks.

End m1a.

(** ** [copy_fit_samples]

    The function reads a PyStan fit object through [fit.model_pars],
    [fit.par_dims] and [fit.sim]; these attributes are the model of the
    object.  A missing key of a dict is a [KeyError], so the function has its
    own exceptions and error monad. *)

From stdpp Require Import gmap strings pretty.
Open Scope Z_scope.

Module stan.

Inductive error : Type :=
  | KeyError (key : string)
  | IndexError (msg : string)
  | ValueError (msg : string).

Inductive outcome (A : Type) : Type :=
  | Return (a : A)
  | Throw (e : error).

Arguments Return {A} a.
Arguments Throw {A} e.

#[global] Instance outcome_ret : MRet outcome := fun A a => Return a.
#[global] Instance outcome_bind : MBind outcome := fun A B f m =>
  match m with
  | Return a => f a
  | Throw e => Throw e
  end.

(** [for x in xs: s = body(x, s)] *)
Fixpoint for_o {X S : Type} (xs : list X) (body : X → S → outcome S) (s : S) : outcome S :=
  match xs with
  | [] => Return s
  | x :: xs' => s' ← body x s; for_o xs' body s'
  end.

Section CopyFitSamples.

Context {FL : Float64}.

(** [fit.sim]: the number of chains, the warmup lengths, and for each chain
    the dict [fit.sim['samples'][c]['chains']] from flat parameter names to
    the draws. *)
Record sim : Type := Sim {
  chains : Z;
  warmup2 : list Z;
  samples : list (gmap string vector);
}.

Record fit : Type := Fit {
  model_pars : list string;
  par_dims : list (list Z);
  fit_sim : sim;
}.

(** A float array in F-order: its shape and its cells as they lie in memory,
    the first index running fastest. *)
Record farray : Type := FArray {
  shape : list Z;
  cells : vector;
}.

(** [l[i]] for a Python int [i] *)
Definition item {A : Type} (l : list A) (i : Z) : outcome A :=
  match norm_index (length l) i with
  | Some p => from_option Return (Throw (IndexError "list index out of range")) (l !! p)
  | None => Throw (IndexError "list index out of range")
  end.

(** [l.index(x)] *)
Definition index_of (x : string) (l : list string) : outcome Z :=
  match list_find (fun y => y = x) l with
  | Some (i, _) => Return (Z.of_nat i)
  | None => Throw (ValueError ("'" +:+ x +:+ "' is not in list"))
  end.

(** [d[key]] *)
Definition key_item {A : Type} (d : gmap string A) (key : string) : outcome A :=
  from_option Return (Throw (KeyError key)) (d !! key).

(** [np.empty(shape, order='F')]: the cells hold whatever the allocator left;
    they are modelled as zeros. *)
Definition np_empty_f (shape : list Z) : outcome farray :=
  if existsb (fun n => n <? 0) shape
  then Throw (ValueError "negative dimensions are not allowed")
  else Return (FArray shape (replicate (Z.to_nat (foldr Z.mul 1 shape)) (of_int 0))).

(** [itertools.product] of the lists [ls]: the last factor runs fastest. *)
Fixpoint product (ls : list (list Z)) : list (list Z) :=
  match ls with
  | [] => [[]]
  | l :: ls' => x ← l; (fun t => x :: t) <$> product ls'
  end.

(** The indexes over all the parameter dimensions in F-order (lines 452-460). *)
Definition idxs_f (dims : list Z) : list (list Z) :=
  match dims with
  | [] => [[]]
  | _ => reverse <$> product (reverse (py_range <$> dims))
  end.

(** The flat name of an entry of the parameter (lines 467-473). *)
Definition param_name_d (param_name : string) (idxs : list Z) : string :=
  match idxs with
  | [] => param_name
  | _ => param_name +:+ "[" +:+ String.concat "," (pretty <$> idxs) +:+ "]"
  end.

(** The position in memory of the cell [idxs] of an F-order array of the
    shape [dims]. *)
Fixpoint offset_f (dims idxs : list Z) : Z :=
  match dims, idxs with
  | d :: dims', i :: idxs' => i + d * offset_f dims' idxs'
  | _, _ => 0
  end.

(** [np.copyto(dst, src)] where [dst] is the view [out[lo:hi, idxs]] of the
    array [out] and [src] is one-dimensional: [src] has the length of the
    view, or a single entry that is broadcast. *)
Definition copyto_rows (out : farray) (lo hi : Z) (idxs : list Z) (src : vector)
  : outcome farray :=
  let nrow := Z.to_nat (default 0 (shape out !! 0%nat)) in
  let l := slice_bound nrow lo in
  let h := slice_bound nrow hi in
  let len := (h - l)%nat in
  let base := Z.to_nat (offset_f (shape out) (Z.of_nat l :: idxs)) in
  if bool_decide (length src = len) then
    Return (FArray (shape out) (take base (cells out) ++ src ++ drop (base + len) (cells out)))
  else if bool_decide (length src = 1%nat) then
    Return (FArray (shape out)
              (take base (cells out) ++ replicate len (src !!! 0%nat)
               ++ drop (base + len) (cells out)))
  else Throw (ValueError "could not broadcast input array").

(** [a[lo:]] *)
Definition slice_from {A : Type} (a : list A) (lo : Z) : list A :=
  drop (slice_bound (length a) lo) a.

(** [copy_fit_samples(fit, param_name)], the output array left at [None]. *)
Definition copy_fit_samples (f : fit) (param_name : string) : outcome farray :=
  (* get the parameter dimensions *)
  i ← index_of param_name (model_pars f);
  dims ← item (par_dims f) i;
  let nchains := chains (fit_sim f) in
  warmup ← item (warmup2 (fit_sim f)) 0;
  chain0 ← item (samples (fit_sim f)) 0;
  lp ← key_item chain0 "lp__";
  let niter := Z.of_nat (length lp) in
  let nsamp_per_chain := niter - warmup in
  let nsamp := nchains * nsamp_per_chain in
  (* initialise output array *)
  out ← np_empty_f (nsamp :: dims);
  (* extract samples for each dimension *)
  for_o (idxs_f dims)
    (fun idxs out =>
       let name := param_name_d param_name idxs in
       (* extract samples for each chain *)
       for_o (py_range nchains)
         (fun c out =>
            chain ← item (samples (fit_sim f)) c;
            draws ← key_item chain name;
            let src := slice_from draws warmup in
            copyto_rows out (c * nsamp_per_chain) ((c + 1) * nsamp_per_chain) idxs src)
         out)
    out.

End CopyFitSamples.

End stan.

(** ** Instances of the interfaces *)

(** Exact rationals as an instance of the interface, for running the model.
    The transcendental operations are not rational; this instance leaves them
    as the identity, and nothing below evaluates them through it. *)
Definition Q_float : Float64 := {|
  float := Q;
  of_int := inject_Z;
  fadd := Qplus;
  fsub := Qminus;
  fmul := Qmult;
  fdiv := Qdiv;
  fneg := Qopp;
  flt := fun x y => negb (Qle_bool y x);
  feq := Qeq_bool;
  fsum := foldr Qplus (0 # 1)%Q;
  fexp := fun x => x;
  flog := fun x => x;
  fpi := (355 # 113)%Q;
  fhalf := (1 # 2)%Q;
|}.


(** Exact real arithmetic as an instance of the interface.  The quotient of
    the reals is total, with [x / 0 = 0], where float64 gives an infinity or a
    NaN: what is stated through this instance is stated of computations that
    divide by no zero, and says so in its hypotheses. *)
#[global] Instance Rlt_decision (x y : R) : Decision (x < y)%R := Rlt_dec x y.
#[global] Instance Req_decision : EqDecision R := Req_dec_T.

Definition R_float : Float64 := {|
  float := R;
  of_int := IZR;
  fadd := Rplus;
  fsub := Rminus;
  fmul := Rmult;
  fdiv := Rdiv;
  fneg := Ropp;
  flt := fun x y => bool_decide (x < y)%R;
  feq := fun x y => bool_decide (x = y);
  fsum := foldr Rplus 0%R;
  fexp := exp;
  flog := ln;
  fpi := PI;
  fhalf := (1 / 2)%R;
|}.

(** The LAPACK routines in exact arithmetic on 1-by-1 arrays, where they have a
    closed form; this instance refuses every other shape. *)
Definition cho_factor_1 (A : list (list R)) : result (list (list R)) :=
  match A with
  | [[a]] =>
      if decide (0 < a)%R then Ok [[sqrt a]]
      else Raise (LinAlgError "1-th leading minor of the array is not positive definite")
  | _ => Raise (LinAlgError "not a 1-by-1 array")
  end.

Definition cho_solve_1 (U : list (list R)) (b : list R) : result (list R) :=
  match U, b with
  | [[u]], [x] => Ok [(x / (u * u))%R]
  | _, _ => Raise (ValueError "incompatible dimensions")
  end.

Definition potri_1 (U : list (list R)) : list (list R) * Z :=
  match U with
  | [[u]] => if decide (u = 0%R) then (U, 1) else ([[(1 / (u * u))%R]], 0)
  | _ => (U, -1)
  end.

Definition solve_1 (A B : list (list R)) : result (list (list R)) :=
  match A, B with
  | [[a]], [[b]] =>
      if decide (a = 0%R) then Raise (LinAlgError "Matrix is singular.") else Ok [[(b / a)%R]]
  | _, _ => Raise (LinAlgError "not a 1-by-1 array")
  end.

Lemma cho_factor_1_shape (A U : list (list R)) (r c : nat) :
  cho_factor_1 A = Ok U → is_matrix (FL := R_float) r c A → is_matrix (FL := R_float) r c U.
Proof.
  destruct A as [|[|a []] []]; try done. simpl. case_decide; [|done].
  intros [= <-] [Hr Hc]. split; [done|]. simpl in *. inversion Hc; subst. by repeat constructor.
Qed.

Lemma cho_solve_1_length (U : list (list R)) (b x : list R) :
  cho_solve_1 U b = Ok x → length x = length b.
Proof. destruct U as [|[|u []] []], b as [|y []]; try done. by intros [= <-]. Qed.

Lemma potri_1_shape (U : list (list R)) (r c : nat) :
  is_matrix (FL := R_float) r c U → is_matrix (FL := R_float) r c (potri_1 U).1.
Proof.
  destruct U as [|[|u []] []]; try done. simpl. case_decide; [done|].
  intros [Hr Hc]. split; [done|]. simpl in *. inversion Hc; subst. by repeat constructor.
Qed.

Definition Lapack_1 : Lapack (FL := R_float) :=
  @Build_Lapack R_float cho_factor_1 cho_solve_1 potri_1 solve_1
    cho_factor_1_shape cho_solve_1_length potri_1_shape.

(** The LAPACK routines in exact arithmetic on 2-by-2 arrays, in closed form;
    this instance refuses every other shape.  The routines work on the upper
    triangle and leave the cell below the diagonal as they find it. *)
Definition cho_factor_2 (A : list (list R)) : result (list (list R)) :=
  match A with
  | [[a; b]; [c; e]] =>
      if decide (0 < a)%R then
        if decide (0 < e - b * b / a)%R then
          Ok [[sqrt a; (b / sqrt a)%R]; [c; sqrt (e - b * b / a)]]
        else Raise (LinAlgError "2-th leading minor of the array is not positive definite")
      else Raise (LinAlgError "1-th leading minor of the array is not positive definite")
  | _ => Raise (LinAlgError "not a 2-by-2 array")
  end.

(** The upper triangle of the inverse of [U^T U], for the factor with the
    rows [p q] and [. r]. *)
Definition inverse_2 (p q r : R) : R * R * R :=
  ((1 / (p * p) + q * q / (p * p * (r * r)))%R, (- q / (p * (r * r)))%R, (1 / (r * r))%R).

Definition cho_solve_2 (U : list (list R)) (b : list R) : result (list R) :=
  match U, b with
  | [[p; q]; [_; r]], [x; y] =>
      let '(x00, x01, x11) := inverse_2 p q r in
      Ok [(x00 * x + x01 * y)%R; (x01 * x + x11 * y)%R]
  | _, _ => Raise (ValueError "incompatible dimensions")
  end.

Definition potri_2 (U : list (list R)) : list (list R) * Z :=
  match U with
  | [[p; q]; [c; r]] =>
      if decide (p = 0%R) then (U, 1)
      else if decide (r = 0%R) then (U, 2)
      else let '(x00, x01, x11) := inverse_2 p q r in ([[x00; x01]; [c; x11]], 0)
  | _ => (U, -1)
  end.

Definition solve_2 (A B : list (list R)) : result (list (list R)) :=
  match A, B with
  | [[a; b]; [c; e]], [B0; B1] =>
      if decide ((a * e - b * c)%R = 0%R) then Raise (LinAlgError "Matrix is singular.")
      else Ok [zip_with (fun x y => ((e * x - b * y) / (a * e - b * c))%R) B0 B1;
               zip_with (fun x y => ((a * y - c * x) / (a * e - b * c))%R) B0 B1]
  | _, _ => Raise (LinAlgError "not a 2-by-2 array")
  end.

Lemma is_matrix_2_2 (A : list (list R)) :
  is_matrix (FL := R_float) 2 2 A → ∃ a b c e, A = [[a; b]; [c; e]].
Proof.
  intros [Hr Hc]. destruct A as [|r0 [|r1 [|]]]; try done.
  inversion Hc as [|? ? H0 Hc']; subst. inversion Hc' as [|? ? H1 _]; subst.
  destruct r0 as [|a [|b [|]]]; try done. destruct r1 as [|c [|e [|]]]; try done.
  by exists a, b, c, e.
Qed.

Lemma is_matrix_2_2_intro (a b c e : R) : is_matrix (FL := R_float) 2 2 [[a; b]; [c; e]].
Proof. split; [done|by repeat constructor]. Qed.

Lemma cho_factor_2_shape (A U : list (list R)) (r c : nat) :
  cho_factor_2 A = Ok U → is_matrix (FL := R_float) r c A → is_matrix (FL := R_float) r c U.
Proof.
  unfold cho_factor_2.
  destruct A as [|[|a [|b [|]]] [|[|c0 [|e [|]]] [|]]]; try done.
  repeat case_decide; try done. intros [= <-] [Hr Hc]. split; [done|].
  simpl in *. inversion Hc as [|? ? Hc0 Hc']; subst. by repeat constructor.
Qed.

Lemma cho_solve_2_length (U : list (list R)) (b x : list R) :
  cho_solve_2 U b = Ok x → length x = length b.
Proof.
  unfold cho_solve_2.
  destruct U as [|[|p [|q [|]]] [|[|c0 [|r [|]]] [|]]]; try done.
  destruct b as [|y0 [|y1 [|]]]; try done. by intros [= <-].
Qed.

Lemma potri_2_shape (U : list (list R)) (r c : nat) :
  is_matrix (FL := R_float) r c U → is_matrix (FL := R_float) r c (potri_2 U).1.
Proof.
  unfold potri_2.
  destruct U as [|[|p [|q [|]]] [|[|c0 [|r0 [|]]] [|]]]; try done.
  repeat case_decide; try done. intros [Hr Hc]. split; [done|].
  simpl in *. inversion Hc as [|? ? Hc0 Hc']; subst. by repeat constructor.
Qed.

Definition Lapack_2 : Lapack (FL := R_float) :=
  @Build_Lapack R_float cho_factor_2 cho_solve_2 potri_2 solve_2
    cho_factor_2_shape cho_solve_2_length potri_2_shape.

(** IEEE binary64, the float64 of numpy, as an instance of the interface: the
    kernel's primitive floats give the arithmetic, the comparisons and the
    conversion of an int (rounded to the nearest float, ties to even).  What
    they do not fix is left as parameters: the order in which numpy adds up
    the entries of an array, the exponential and the logarithm.  The ints
    that Python refuses to convert, beyond the range of float64, do not
    occur. *)
From Stdlib Require PrimFloat SpecFloat FloatOps.

Definition b64_of_int (z : Z) : PrimFloat.float :=
  FloatOps.SF2Prim (SpecFloat.binary_normalize FloatOps.prec FloatOps.emax z 0 false).

(** [np.pi], the float [0x1.921fb54442d18p+1] *)
Definition b64_pi : PrimFloat.float :=
  FloatOps.SF2Prim (SpecFloat.S754_finite false 7074237752028440 (-51)).

Definition binary64 (sum : list PrimFloat.float → PrimFloat.float)
    (exp log : PrimFloat.float → PrimFloat.float) : Float64 := {|
  float := PrimFloat.float;
  of_int := b64_of_int;
  fadd := PrimFloat.add;
  fsub := PrimFloat.sub;
  fmul := PrimFloat.mul;
  fdiv := PrimFloat.div;
  fneg := PrimFloat.opp;
  flt := PrimFloat.ltb;
  feq := PrimFloat.eqb;
  fsum := sum;
  fexp := exp;
  flog := log;
  fpi := b64_pi;
  fhalf := PrimFloat.div (b64_of_int 1) (b64_of_int 2);
|}.

(** The float that the literal [0.3] denotes, [0x1.3333333333333p-2]. *)
Definition b64_three_tenths : PrimFloat.float :=
  FloatOps.SF2Prim (SpecFloat.S754_finite false 5404319552844595 (-54)).

(** The float next above [0.25], [0x1.0000000000001p-2]. *)
Definition b64_above_quarter : PrimFloat.float :=
  FloatOps.SF2Prim (SpecFloat.S754_finite false 4503599627370497 (-54)).
(** ** Vocabulary of the statements about [distribute_groups] *)

Arguments Zsum : simpl never.

Definition int64 (z : Z) : Prop := - 2 ^ 63 <= z < 2 ^ 63.

Definition psums (l : list Z) : list Z := zip_with Z.add l (tail l).

Definition fuse (i : nat) (l : list Z) : list Z :=
  delete (S i) (<[i := l !!! i + l !!! S i]> l).

Definition groups_ok (gs : list group) : Prop :=
  Forall (fun n => 0 < n) (gs.*1) ∧ Forall (fun n => 0 < n) (gs.*2).

(** Valid group sizes: every group has an item, and the total fits int64. *)
Definition valid_sizes (Nj : list Z) : Prop :=
  Forall (fun n => 0 < n) Nj ∧ Zsum Nj < 2 ^ 63.

(** A group of [n] samples cut into [p] parts: the first [n mod p] parts have
    one sample more. *)
Definition group_sites (n p : Z) : list Z :=
  (fun kj => if kj <? n mod p then n / p + 1 else n / p) <$> seqZ 0 p.

Definition split_sites (Nj ppg : list Z) : list (list Z) := zip_with group_sites Nj ppg.

(** The group sizes an argument [Nj] stands for. *)
Definition sizes_of (J : Z) (Nj : Nj_arg) : list Z :=
  match Nj with
  | NjInt n => replicate (Z.to_nat J) n
  | NjArr a => nd_data a
  end.

(** The shape check of line 573 passes. *)
Definition shape_ok (J : Z) (Nj : Nj_arg) : Prop :=
  match Nj with
  | NjInt _ => True
  | NjArr a => nd_shape a = [J]
  end.

#[global] Instance shape_ok_dec (J : Z) (Nj : Nj_arg) : Decision (shape_ok J Nj).
Proof. destruct Nj; simpl; apply _. Defined.

(** An argument the function can receive: a count of groups, and a Python
    int or an int64 array whose cells are as many as its shape says; the total
    of the sizes is representable. *)
Definition well_formed (J : Z) (Nj : Nj_arg) : Prop :=
  0 <= J ∧
  match Nj with
  | NjInt n => int64 n
  | NjArr a => Z.of_nat (length (nd_data a)) = foldr Z.mul 1 (nd_shape a) ∧ Forall int64 (nd_data a)
  end ∧
  Zsum (sizes_of J Nj) < 2 ^ 63.

(** A valid request: the precondition of the contract. *)
Definition valid_input (J K : Z) (Nj : Nj_arg) : Prop :=
  well_formed J Nj ∧ shape_ok J Nj ∧
  Forall (fun n => 0 < n) (sizes_of J Nj) ∧ 2 <= K <= Zsum (sizes_of J Nj).

(** The position in [Nk] of part [a] of group [j]. *)
Definition site_index (ppg : list Z) (j : nat) (a : Z) : nat :=
  Z.to_nat (Zsum (take j ppg) + a).

(** The argument checks, in the order the function makes them. *)
Definition argument_error (J K : Z) (Nj : Nj_arg) : option exn :=
  if decide (shape_ok J Nj) then
    if decide (Exists (fun n => n <= 0) (sizes_of J Nj))
    then Some (ValueError "Every group must have at least one item")
    else if decide (K < 2) then Some (ValueError "K should be at least 2.")
    else if decide (Zsum (sizes_of J Nj) < K)
    then Some (ValueError "K cant be greater than number of samples")
    else None
  else Some (ValueError "Invalid shape of arg. `Nj`.").


(** ** Vocabulary of the statements about the linear algebra *)

(** The sum of [f 0], ..., [f (d-1)]. *)
Fixpoint Rsum (d : nat) (f : nat → R) : R :=
  match d with
  | O => 0%R
  | S d' => (Rsum d' f + f d')%R
  end.

Definition delta (i j : nat) : R := if decide (i = j) then 1%R else 0%R.

(** A cell of a one-dimensional array of reals. *)
Definition vget (v : list R) (i : nat) : R := lookup_total (M := list (@float R_float)) i v.

(** The upper triangle of an array, as the routines read a Cholesky factor. *)
Definition triu (U : list (list R)) (i j : nat) : R :=
  if (i <=? j)%nat then entry (FL := R_float) U i j else 0%R.

(** The matrix [U^T U] of a factor [U]. *)
Definition gram (d : nat) (U : list (list R)) (i j : nat) : R :=
  Rsum d (fun k => triu U k i * triu U k j)%R.

(** Symmetric positive definite, of the cells [a i j], [i, j < d]. *)
Definition spd_entries (d : nat) (a : nat → nat → R) : Prop :=
  (∀ i j, (i < d)%nat → (j < d)%nat → a i j = a j i) ∧
  (∀ x : nat → R, (∃ i, (i < d)%nat ∧ x i ≠ 0%R) →
     (0 < Rsum d (fun i => x i * Rsum d (fun j => a i j * x j)))%R).

Definition spd (d : nat) (A : list (list R)) : Prop :=
  is_matrix (FL := R_float) d d A ∧ spd_entries d (entry (FL := R_float) A).

(** What the routines compute in exact arithmetic, on [d]-by-[d] arrays:
    [cho_factor] factors a symmetric positive definite matrix, [cho_solve]
    solves against the factored matrix, and [potri] gives the upper triangle of
    its inverse. *)
Record lapack_exact (d : nat) (LP : Lapack (FL := R_float)) : Prop := LapackExact {
  cho_factor_exact : ∀ A, spd d A →
    ∃ U, cho_factor (FL := R_float) A = Ok U ∧
         ∀ i j, (i < d)%nat → (j < d)%nat → gram d U i j = entry (FL := R_float) A i j;
  cho_solve_exact : ∀ U b, is_matrix (FL := R_float) d d U → spd_entries d (gram d U) →
    length b = d →
    ∃ x, cho_solve (FL := R_float) U b = Ok x ∧
         ∀ i, (i < d)%nat → Rsum d (fun j => gram d U i j * vget x j)%R = vget b i;
  potri_exact : ∀ U, is_matrix (FL := R_float) d d U → spd_entries d (gram d U) →
    (potri (FL := R_float) U).2 = 0 ∧
    ∃ X : nat → nat → R,
      (∀ i j, (i < d)%nat → (j < d)%nat → X i j = X j i) ∧
      (∀ i j, (i < d)%nat → (j < d)%nat → Rsum d (fun k => X i k * gram d U k j)%R = delta i j) ∧
      (∀ i j, (i <= j)%nat → (j < d)%nat → entry (FL := R_float) (potri (FL := R_float) U).1 i j = X i j);
}.



(** The denominators of the shrinkage coefficient [alpha] of [olse], for the
    inverted matrix [Q]: [f2 - tr2/d] with the naive prior (line 182) and
    [f2*f2p - trSP**2] with the prior [P] (line 189). *)
Definition naive_denominator {FL : Float64} (Q : matrix) : float :=
  let tr := np_trace Q in
  fsub (fro_norm_squared (transpose Q)) (fdiv (fmul tr tr) (of_int (Z.of_nat (nrows Q)))).

Definition prior_denominator {FL : Float64} (Q P : matrix) : float :=
  let trSP := fsum (concat (zip_matrix fmul Q P)) in
  fsub (fmul (fro_norm_squared (transpose Q)) (fro_norm_squared (transpose P)))
       (fmul trSP trSP).

(** [lia] on lengths of arrays of reals. *)
Ltac rlia := cbv [float R_float] in *; lia.

(** * Vocabulary for [cv_moments] *)

(** The mean of each column of the samples. *)
Definition sample_mean {FL : Float64} (samp : matrix) : vector :=
  (fun j => fdiv (fsum ((fun row : vector => row !!! j) <$> samp)) (of_int (Z.of_nat (length samp))))
    <$> seq 0 (ncols samp).

(** The unbiased sample covariance: the sums of the products of the deviations
    from the sample mean, divided by [n - 1]. *)
Definition sample_covariance {FL : Float64} (samp : matrix) : matrix :=
  let mean := sample_mean samp in
  tabulate (ncols samp) (ncols samp) (fun i j =>
    fdiv (fsum ((fun row : vector =>
                   fmul (fsub (row !!! i) (mean !!! i)) (fsub (row !!! j) (mean !!! j))) <$> samp))
         (of_int (Z.of_nat (length samp) - 1))).

(** Some fraction is above the threshold [T] or below [1 - T]. *)
Definition out_of_balance {FL : Float64} (T : float) (ratios : vector) : Prop :=
  Exists (fun r => flt T r = true ∨ flt r (fsub (of_int 1) T) = true) ratios.

(** The threshold that line 358 compares with: a threshold below one half is
    replaced by its complement (lines 355-356). *)
Definition effective_treshold {FL : Float64} (t : float) : float :=
  if flt t fhalf then fsub (of_int 1) t else t.

(** The variances [var_h] that [_cv_estim] divides by when each dimension has
    its own control variate (lines 221-228). *)
Definition control_variances {FL : Float64} (h : matrix) (Eh : vector) (var_k : Z) : vector :=
  let var_h := col_sums (map_matrix (fun x => fmul x x) (sub_rows h Eh)) in
  if negb (var_k =? 0) then (fun x => fmul x (of_int var_k)) <$> var_h else var_h.

(** The shapes that [cv_moments] asks of its arrays: [n] samples, at least
    one, of the dimension [d], a log density for each sample, a [d]-by-[d]
    [Q_tilde], an [r_tilde] of the length [d] where it is read (when a moment
    parameter is missing), and moment parameters of the dimension [d] where
    they are given.  With other shapes numpy broadcasts or raises. *)
Definition cv_shapes {FL : Float64} (n d : nat) (samp : matrix) (lp : vector)
    (Q_tilde : matrix) (r_tilde : vector) (S_tilde : option matrix) (m_tilde : option vector)
  : Prop :=
  (0 < n)%nat ∧ is_matrix n d samp ∧ length lp = n ∧ is_matrix d d Q_tilde ∧
  (S_tilde = None ∨ m_tilde = None → length r_tilde = d) ∧
  (∀ St, S_tilde = Some St → is_matrix d d St) ∧
  (∀ mt, m_tilde = Some mt → length mt = d).

(** * Vocabulary of the further properties *)

(** The array [l] cut into consecutive runs of the given lengths. *)
Fixpoint chunks (counts : list Z) (l : list Z) : list (list Z) :=
  match counts with
  | [] => []
  | c :: counts' => take (Z.to_nat c) l :: chunks counts' (drop (Z.to_nat c) l)
  end.

(** The groups are runs of the array [Nj]: their sizes are the sums of
    consecutive runs whose lengths are their group counts. *)
Definition runs_of (Nj : list Z) (gs : list group) : Prop :=
  gs.*1 = Zsum <$> chunks (gs.*2) Nj.

(** The position of every group within its site: [0 .. c-1] for each site of
    [c] groups. *)
Definition within_labels (Nj_k : list Z) : list Z := concat ((fun c => seqZ 0 c) <$> Nj_k).

(** The within-site group index of every sample: the samples of a group carry
    the position of the group within its site, as an int32. *)
Definition within_index (Nj Nj_k : list Z) : list Z :=
  concat (zip_with (fun n ji => replicate (Z.to_nat n) (wrap32 ji)) Nj (within_labels Nj_k)).

(** The invariant of the loop in exact arithmetic: no group has more parts
    than samples, and [Nj2] holds the mean size of the parts. *)
Definition exact_parts (Nj : list Z) (st : list Z * list Q) : Prop :=
  length st.1 = length Nj ∧ length st.2 = length Nj ∧
  ∀ j p n x, st.1 !! j = Some p → Nj !! j = Some n → st.2 !! j = Some x →
    0 < p <= n ∧ (x == inject_Z n / inject_Z p)%Q.

(** The entries of a correlation term. *)
Definition coef_entries {FL : Float64} (a : coef) : list float :=
  match a with
  | CoefInt _ => []
  | CoefVec v => v
  | CoefMat m => concat m
  end.

(** ** Vocabulary for [get_liks] *)

(** A [data] object as [simulate_data] builds it: [J] positive group sizes,
    the [J + 1] limits of the groups (an array: its length is an int64), and
    one row of [X] and one entry of [y] for each of the [N] observations. *)
Definition data_ok {FL : Float64} (J : Z) (d : m1a.data) : Prop :=
  let sizes := nd_data (m1a.Nj d) in
  well_formed J (NjArr (m1a.Nj d)) ∧ shape_ok J (NjArr (m1a.Nj d)) ∧
  Forall (fun n => 0 < n) sizes ∧
  m1a.j_lim d = 0 :: np_cumsum sizes ∧ Z.of_nat (length (m1a.j_lim d)) < 2 ^ 63 ∧
  m1a.N d = Zsum sizes ∧
  Z.of_nat (length (m1a.X d)) = Zsum sizes ∧
  Z.of_nat (length (m1a.y d)) = Zsum sizes.

(** The data of site [k], when the sites hold [counts] groups each: the
    observations of its groups, and the limits of these groups counted from
    the first observation of the site. *)
Definition site_data {FL : Float64} (d : m1a.data) (counts : list Z) (k : nat) : m1a._lik :=
  let sizes := nd_data (m1a.Nj d) in
  let first := Z.to_nat (Zsum (take k counts)) in
  let groups := take (Z.to_nat (counts !!! k)) (drop first sizes) in
  let start := Z.to_nat (Zsum (take first sizes)) in
  let n := Z.to_nat (Zsum groups) in
  m1a.Lik (take n (drop start (m1a.X d))) (take n (drop start (m1a.y d)))
    (counts !!! k) (0 :: np_cumsum groups).

(** ** Vocabulary for [copy_fit_samples] *)

(** The index tuples of an array of the shape [dims]. *)
Definition valid_index (dims idxs : list Z) : Prop :=
  Forall2 (fun i d => 0 <= i < d) idxs dims.

(** A fit object that holds the parameter [param_name] of the shape [dims]:
    [chains] counts the chains, and every chain has [niter] draws of the
    log density and of every entry of the parameter, [warmup] of them warmup
    draws. *)
Definition fit_ok {FL : Float64} (f : stan.fit) (param_name : string) (dims : list Z)
    (warmup niter : Z) : Prop :=
  let chains := stan.samples (stan.fit_sim f) in
  (∃ i, list_find (fun name => name = param_name) (stan.model_pars f) = Some (i, param_name) ∧
        stan.par_dims f !! i = Some dims) ∧
  Forall (fun n => 0 <= n) dims ∧
  stan.chains (stan.fit_sim f) = Z.of_nat (length chains) ∧
  head (stan.warmup2 (stan.fit_sim f)) = Some warmup ∧ 0 <= warmup <= niter ∧
  (∃ chain0 lp, chains !! 0%nat = Some chain0 ∧ chain0 !! "lp__" = Some lp ∧
                Z.of_nat (length lp) = niter) ∧
  ∀ chain idxs, chain ∈ chains → valid_index dims idxs →
    ∃ draws, chain !! stan.param_name_d param_name idxs = Some draws ∧
             Z.of_nat (length draws) = niter.

(** The draws of the entry [idxs] of the parameter that are kept: those after
    the warmup, chain after chain. *)
Definition kept_draws {FL : Float64} (f : stan.fit) (param_name : string) (warmup : Z)
    (idxs : list Z) : vector :=
  concat ((fun chain : gmap string vector =>
             drop (Z.to_nat warmup) (default [] (chain !! stan.param_name_d param_name idxs)))
            <$> stan.samples (stan.fit_sim f)).

(** [a[idxs]] for an F-order array. *)
Definition cell_f {FL : Float64} (a : stan.farray) (idxs : list Z) : option float :=
  stan.cells a !! Z.to_nat (stan.offset_f (stan.shape a) idxs).

(** * Proofs about [distribute_groups] *)

(** ** Results *)

Lemma bind_Ok {A B : Type} (m : result A) (f : A → result B) (a : A) :
  m = Ok a → (m ≫= f) = f a.
Proof. by intros ->. Qed.

(** ** int64 arithmetic without overflow *)

Lemma wrap64_id z : int64 z → wrap64 z = z.
Proof. intros H. unfold int64 in H. unfold wrap64. rewrite Z.mod_small; lia. Qed.

Lemma int64_add_id x y : int64 (x + y) → int64_add x y = x + y.
Proof. apply wrap64_id. Qed.

Lemma Zsum_cons x l : Zsum (x :: l) = x + Zsum l.
Proof. reflexivity. Qed.

Lemma Zsum_app l1 l2 : Zsum (l1 ++ l2) = Zsum l1 + Zsum l2.
Proof. induction l1 as [|x l1 IH]; simpl; [done|]. rewrite !Zsum_cons, IH. lia. Qed.

Lemma Zsum_pos_length l : Forall (fun n => 0 < n) l → Z.of_nat (length l) <= Zsum l.
Proof.
  induction 1 as [|x l Hx _ IH]; simpl; [done|]. rewrite Zsum_cons. lia.
Qed.

Lemma Zsum_nonneg l : Forall (fun n => 0 < n) l → 0 <= Zsum l.
Proof. intros H. pose proof (Zsum_pos_length l H). lia. Qed.

Lemma Zsum_take_le l k : Forall (fun n => 0 < n) l → Zsum (take k l) <= Zsum l.
Proof.
  intros H. rewrite <- (take_drop k l) at 2. rewrite Zsum_app.
  assert (0 <= Zsum (drop k l)); [|lia].
  apply Zsum_nonneg. by apply Forall_drop.
Qed.

Lemma Zsum_replicate n x : Zsum (replicate n x) = Z.of_nat n * x.
Proof. induction n as [|n IH]; [done|]. simpl replicate. rewrite Zsum_cons, IH. lia. Qed.

Lemma np_sum_from acc l :
  0 <= acc → Forall (fun n => 0 < n) l → acc + Zsum l < 2 ^ 63 →
  foldl int64_add acc l = acc + Zsum l.
Proof.
  revert acc. induction l as [|x l IH]; intros acc Hacc Hl Hs; simpl.
  - rewrite Z.add_0_r. reflexivity.
  - inversion Hl as [|? ? Hx Hl']; subst. rewrite Zsum_cons in Hs.
    pose proof (Zsum_nonneg l Hl').
    rewrite int64_add_id by (unfold int64; lia).
    rewrite IH by (try done; lia). rewrite Zsum_cons. lia.
Qed.

Lemma np_sum_exact l :
  Forall (fun n => 0 < n) l → Zsum l < 2 ^ 63 → np_sum l = Zsum l.
Proof. intros. unfold np_sum. rewrite np_sum_from; [lia|lia|done|lia]. Qed.

Lemma np_cumsum_from_length acc l : length (np_cumsum_from acc l) = length l.
Proof. revert acc. induction l as [|x l IH]; intros acc; simpl; [done|]. by rewrite IH. Qed.

Lemma np_cumsum_from_lookup acc l k :
  0 <= acc → Forall (fun n => 0 < n) l → acc + Zsum l < 2 ^ 63 → (k <= length l)%nat →
  (acc :: np_cumsum_from acc l) !! k = Some (acc + Zsum (take k l)).
Proof.
  revert acc k. induction l as [|x l IH]; intros acc k Hacc Hl Hs Hk.
  - simpl in Hk. assert (k = 0%nat) as -> by lia. simpl. f_equal. unfold Zsum. simpl. lia.
  - destruct k as [|k]; [simpl; f_equal; unfold Zsum; simpl; lia|].
    inversion Hl as [|? ? Hx Hl']; subst. rewrite Zsum_cons in Hs.
    pose proof (Zsum_nonneg l Hl').
    cbn [np_cumsum_from]. rewrite int64_add_id by (unfold int64; lia).
    change ((acc :: acc + x :: np_cumsum_from (acc + x) l) !! S k)
      with ((acc + x :: np_cumsum_from (acc + x) l) !! k).
    rewrite IH by (try done; simpl in Hk; lia).
    simpl take. rewrite Zsum_cons. f_equal. lia.
Qed.

Lemma np_cumsum_lookup l k :
  Forall (fun n => 0 < n) l → Zsum l < 2 ^ 63 → (k <= length l)%nat →
  (0 :: np_cumsum l) !! k = Some (Zsum (take k l)).
Proof.
  intros. unfold np_cumsum. rewrite np_cumsum_from_lookup; [f_equal|done..]. 
Qed.

(** ** Indexing with an index known to be in range *)

Lemma norm_index_nat len (i : nat) : (i < len)%nat → norm_index len (Z.of_nat i) = Some i.
Proof.
  intros H. unfold norm_index.
  destruct (Z.leb_spec 0 (Z.of_nat i)); [|lia].
  destruct (Z.ltb_spec (Z.of_nat i) (Z.of_nat len)); [|lia].
  by rewrite Nat2Z.id.
Qed.

Lemma get_item_nat {A : Type} (l : list A) (z : Z) (i : nat) (x : A) :
  z = Z.of_nat i → l !! i = Some x → get_item l z = Ok x.
Proof.
  intros -> H. unfold get_item.
  rewrite norm_index_nat by (by eapply lookup_lt_Some). by rewrite H.
Qed.

Lemma get_item_total `{Inhabited A} (l : list A) (z : Z) (i : nat) :
  z = Z.of_nat i → (i < length l)%nat → get_item l z = Ok (l !!! i).
Proof. intros -> Hi. eapply get_item_nat; [done|]. by apply list_lookup_lookup_total_lt. Qed.

Lemma set_item_nat {A : Type} (l : list A) (z : Z) (i : nat) (x : A) :
  z = Z.of_nat i → (i < length l)%nat → set_item l z x = Ok (<[i := x]> l).
Proof. intros -> H. unfold set_item. by rewrite norm_index_nat. Qed.

Lemma pop_item_nat {A : Type} (l : list A) (z : Z) (i : nat) :
  z = Z.of_nat i → (i < length l)%nat → pop_item l z = Ok (delete i l).
Proof. intros -> H. unfold pop_item. by rewrite norm_index_nat. Qed.

(** ** [min] and [index] *)

Lemma foldl_min_le x l : foldl Z.min x l <= x ∧ Forall (fun t => foldl Z.min x l <= t) l.
Proof.
  revert x. induction l as [|y l IH]; intros x; simpl; [split; [lia|constructor]|].
  destruct (IH (Z.min x y)) as [H1 H2]. split; [lia|]. constructor; [lia|done].
Qed.

Lemma foldl_min_elem x l : foldl Z.min x l ∈ x :: l.
Proof.
  revert x. induction l as [|y l IH]; intros x; simpl; [by left|].
  specialize (IH (Z.min x y)). apply elem_of_cons in IH as [IH|IH].
  - rewrite IH. destruct (Z.min_spec x y) as [[_ ->]|[_ ->]]; [by left|right; by left].
  - right. by right.
Qed.

Lemma py_min_spec l :
  l ≠ [] → ∃ m, py_min l = Ok m ∧ m ∈ l ∧ Forall (fun t => m <= t) l.
Proof.
  destruct l as [|x l]; [done|]. intros _. exists (foldl Z.min x l). split; [done|].
  split; [apply foldl_min_elem|]. destruct (foldl_min_le x l). by constructor.
Qed.

Lemma py_index_spec m l :
  m ∈ l → ∃ i : nat, py_index m l = Ok (Z.of_nat i) ∧ l !! i = Some m ∧
                      ∀ j y, l !! j = Some y → (j < i)%nat → y ≠ m.
Proof.
  induction l as [|y l IH]; [by intros ?%elem_of_nil|]. intros Hm. simpl.
  destruct (Z.eqb_spec y m) as [->|Hne].
  - exists 0%nat. split; [done|]. split; [done|]. intros; lia.
  - apply elem_of_cons in Hm as [->|Hm]; [done|].
    destruct (IH Hm) as (i & -> & Hi & Hfirst). exists (S i). simpl.
    split; [f_equal; lia|]. split; [done|].
    intros [|j] z Hz Hj; simpl in Hz; [by injection Hz as <-|].
    eapply Hfirst; [done|lia].
Qed.

Lemma first_min_find (l : list Z) m i :
  l !! i = Some m → Forall (fun t => m <= t) l →
  (∀ j y, l !! j = Some y → (j < i)%nat → y ≠ m) →
  list_find (fun s => Forall (fun t => s <= t) l) l = Some (i, m).
Proof.
  intros Hi Hmin Hfirst. apply list_find_Some. split; [done|]. split; [done|].
  intros j y Hj Hlt Hy.
  apply (Hfirst j y Hj Hlt).
  assert (m <= y) by (eapply Forall_lookup_1 in Hmin; [|exact Hj]; done).
  assert (y <= m) by (eapply Forall_lookup_1 in Hy; [|exact Hi]; done).
  lia.
Qed.

(** ** Sums of adjacent pairs, and the fusion of a pair *)

Lemma list_eq_total (l1 l2 : list Z) :
  length l1 = length l2 → (∀ p, (p < length l1)%nat → l1 !!! p = l2 !!! p) → l1 = l2.
Proof.
  intros Hlen Hp. apply (list_eq_same_length _ _ (length l1)); [done..|].
  intros i x y Hi Hx Hy.
  apply list_lookup_alt in Hx as [_ <-]. apply list_lookup_alt in Hy as [_ <-]. by apply Hp.
Qed.

Lemma tail_lookup_total (l : list Z) p : tail l !!! p = l !!! S p.
Proof. rewrite !list_lookup_total_alt. by rewrite lookup_tail. Qed.

Lemma psums_length l : length (psums l) = pred (length l).
Proof. unfold psums. rewrite length_zip_with, length_tl. lia. Qed.

Lemma psums_lookup_total l p :
  (S p < length l)%nat → psums l !!! p = l !!! p + l !!! S p.
Proof.
  intros H. unfold psums. rewrite (lookup_total_zip_with Z.add l (tail l) p); [|lia|rewrite length_tl; lia].
  by rewrite tail_lookup_total.
Qed.

Lemma fuse_length i l : (S i < length l)%nat → length (fuse i l) = pred (length l).
Proof.
  intros H. unfold fuse. rewrite length_delete; [rewrite length_insert; lia|].
  apply lookup_lt_is_Some. by rewrite length_insert.
Qed.

Lemma fuse_lookup_total i l p :
  (S i < length l)%nat →
  fuse i l !!! p =
    if decide (p < i)%nat then l !!! p
    else if decide (p = i) then l !!! i + l !!! S i
    else l !!! S p.
Proof.
  intros H. unfold fuse. rewrite list_lookup_total_delete, list_lookup_total_insert.
  repeat case_decide; try lia; try done.
Qed.

Lemma fuse_take_drop (i : nat) (v : Z) (l : list Z) :
  (S i < length l)%nat →
  delete (S i) (<[i := v]> l) = take i l ++ v :: drop (S (S i)) l.
Proof.
  intros H. rewrite insert_take_drop by lia. rewrite delete_take_drop.
  assert (length (take i l) = i) as Hlen by (rewrite length_take; lia).
  replace (S i) with (i + 1)%nat at 1 by lia.
  rewrite take_app_add' by done.
  replace (S (S i)) with (i + 2)%nat at 1 by lia.
  rewrite drop_app_add' by done. simpl.
  rewrite drop_drop. rewrite <- app_assoc. simpl. do 3 f_equal. lia.
Qed.

Lemma split_pair (i : nat) (l : list Z) :
  (S i < length l)%nat → l = take i l ++ l !!! i :: l !!! S i :: drop (S (S i)) l.
Proof.
  intros H.
  rewrite <- (drop_S l (l !!! S i) (S i)) by (apply list_lookup_lookup_total_lt; lia).
  symmetry. apply take_drop_middle. apply list_lookup_lookup_total_lt. lia.
Qed.

Lemma fuse_eq i l :
  (S i < length l)%nat → fuse i l = take i l ++ (l !!! i + l !!! S i) :: drop (S (S i)) l.
Proof. intros H. unfold fuse. by apply fuse_take_drop. Qed.

Lemma Zsum_fuse i l : (S i < length l)%nat → Zsum (fuse i l) = Zsum l.
Proof.
  intros H. rewrite fuse_eq by done. rewrite (split_pair i l H) at 5.
  rewrite !Zsum_app, !Zsum_cons. lia.
Qed.

Lemma Forall_fuse_pos i l :
  (S i < length l)%nat → Forall (fun n => 0 < n) l → Forall (fun n => 0 < n) (fuse i l).
Proof.
  intros H Hl. rewrite fuse_eq by done.
  assert (0 < l !!! i) by (apply (Forall_lookup_total_1 _ l i Hl); lia).
  assert (0 < l !!! S i) by (apply (Forall_lookup_total_1 _ l (S i) Hl); lia).
  apply Forall_app. split; [by apply Forall_take|].
  constructor; [lia|by apply Forall_drop].
Qed.

Section MergeStep.

Context {FL : Float64}.

(** The loop body keeps [Njd] the sums of the adjacent pairs of [Nk]. *)
Lemma merge_step_spec (Nk Nj_k : list Z) (i : nat) (m : Z) :
  (2 <= length Nk)%nat → length Nj_k = length Nk →
  psums Nk !! i = Some m → Forall (fun t => m <= t) (psums Nk) →
  (∀ j y, psums Nk !! j = Some y → (j < i)%nat → y ≠ m) →
  merge_step (Nk, psums Nk, Nj_k) = Ok (fuse i Nk, psums (fuse i Nk), fuse i Nj_k).
Proof.
  intros Hlen Hlen' Hi Hmin Hfirst.
  assert (i < length (psums Nk))%nat as Hip by (by eapply lookup_lt_Some).
  pose proof (psums_length Nk) as Hpl.
  assert (S i < length Nk)%nat as HiN by lia.
  unfold merge_step.
  destruct (py_min_spec (psums Nk)) as (m' & Hm' & Hin & Hmin').
  { intros Hnil. rewrite Hnil in Hip. simpl in Hip. lia. }
  assert (m' = m) as ->.
  { apply list_elem_of_lookup in Hin as [j Hj].
    assert (m <= m') by (eapply Forall_lookup_1 in Hmin; [|exact Hj]; done).
    assert (m' <= m) by (eapply Forall_lookup_1 in Hmin'; [|exact Hi]; done). lia. }
  rewrite Hm'. cbn [mbind result_bind].
  destruct (py_index_spec m (psums Nk) Hin) as (i' & Hidx & Hi' & Hfirst').
  assert (i' = i) as ->.
  { destruct (Nat.lt_trichotomy i' i) as [Hlt|[->|Hlt]]; [|done|].
    - by destruct (Hfirst i' m Hi' Hlt).
    - by destruct (Hfirst' i m Hi Hlt). }
  rewrite Hidx. cbn [mbind result_bind].
  set (Njd1 := if decide (S (S i) < length Nk)%nat
               then <[S i := psums Nk !!! S i + Nk !!! i]> (psums Nk) else psums Nk).
  assert ((if Z.of_nat i + 1 <? Z.of_nat (length (psums Nk))
           then a ← get_item (psums Nk) (Z.of_nat i + 1); b ← get_item Nk (Z.of_nat i);
                set_item (psums Nk) (Z.of_nat i + 1) (a + b)
           else Ok (psums Nk)) = Ok Njd1) as ->.
  { unfold Njd1. destruct (Z.ltb_spec (Z.of_nat i + 1) (Z.of_nat (length (psums Nk)))).
    - rewrite decide_True by lia.
      rewrite (get_item_total (psums Nk) _ (S i)) by lia. cbn [mbind result_bind].
      rewrite (get_item_total Nk _ i) by lia. cbn [mbind result_bind].
      apply set_item_nat; lia.
    - by rewrite decide_False by lia. }
  cbn [mbind result_bind].
  assert (length Njd1 = length (psums Nk)) as Hl1.
  { unfold Njd1. case_decide; [by rewrite length_insert|done]. }
  set (Njd2 := if decide (0 < i)%nat
               then <[(i - 1)%nat := Njd1 !!! (i - 1)%nat + Nk !!! S i]> Njd1 else Njd1).
  assert ((if 0 <? Z.of_nat i
           then a ← get_item Njd1 (Z.of_nat i - 1); b ← get_item Nk (Z.of_nat i + 1);
                set_item Njd1 (Z.of_nat i - 1) (a + b)
           else Ok Njd1) = Ok Njd2) as ->.
  { unfold Njd2. destruct (Z.ltb_spec 0 (Z.of_nat i)).
    - rewrite decide_True by lia.
      rewrite (get_item_total Njd1 _ (i - 1)%nat) by lia. cbn [mbind result_bind].
      rewrite (get_item_total Nk _ (S i)) by lia. cbn [mbind result_bind].
      apply set_item_nat; lia.
    - by rewrite decide_False by lia. }
  cbn [mbind result_bind].
  assert (length Njd2 = length (psums Nk)) as Hl2.
  { unfold Njd2. case_decide; [by rewrite length_insert|done]. }
  rewrite (get_item_total Njd2 _ i) by lia. cbn [mbind result_bind].
  rewrite (set_item_nat Nk _ i) by lia. cbn [mbind result_bind].
  rewrite (pop_item_nat (<[i := Njd2 !!! i]> Nk) _ (S i)) by (rewrite ?length_insert; lia).
  cbn [mbind result_bind].
  rewrite (pop_item_nat Njd2 _ i) by lia. cbn [mbind result_bind].
  rewrite (get_item_total Nj_k (Z.of_nat i) i) by lia. cbn [mbind result_bind].
  rewrite (get_item_total Nj_k (Z.of_nat i + 1) (S i)) by lia. cbn [mbind result_bind].
  rewrite (set_item_nat Nj_k _ i) by lia. cbn [mbind result_bind].
  rewrite (pop_item_nat (<[i := Nj_k !!! i + Nj_k !!! S i]> Nj_k) _ (S i))
    by (rewrite ?length_insert; lia).
  cbn [mbind result_bind].
  assert (Njd2 !!! i = Nk !!! i + Nk !!! S i) as Hv.
  { unfold Njd2, Njd1. repeat case_decide; rewrite ?list_lookup_total_insert;
      repeat case_decide; try lia; by apply psums_lookup_total. }
  rewrite Hv. fold (fuse i Nk). fold (fuse i Nj_k).
  do 3 f_equal.
  apply list_eq_total.
  { rewrite length_delete by (apply lookup_lt_is_Some; lia).
    rewrite psums_length, fuse_length by done. lia. }
  intros p Hp. rewrite length_delete in Hp by (apply lookup_lt_is_Some; lia).
  rewrite psums_lookup_total by (rewrite fuse_length by done; lia).
  rewrite !fuse_lookup_total by done.
  rewrite list_lookup_total_delete.
  unfold Njd2, Njd1.
  repeat case_decide; rewrite ?list_lookup_total_insert; repeat case_decide;
    rewrite ?list_lookup_total_insert; repeat case_decide; try lia;
    rewrite ?psums_lookup_total by lia; try lia.
  all: try (assert (p = i - 1)%nat as -> by lia; replace (S (i - 1)) with i by lia; lia).
  all: try (assert (p = i) as -> by lia; lia).
  all: rewrite ?length_insert in *; lia.
Qed.

End MergeStep.

(** ** The loop of the branch [K < J] against the reference process *)

Lemma pair_sizes_psums (gs : list group) : pair_sizes gs = psums (gs.*1).
Proof.
  unfold pair_sizes, psums. revert gs.
  assert (∀ gs hs : list group,
    zip_with (λ g h : group, g.1 + h.1) gs hs = zip_with Z.add (gs.*1) (hs.*1)) as H.
  { induction gs as [|g gs IH]; intros [|h hs]; simpl; [done..|]. by rewrite IH. }
  intros gs. rewrite H. f_equal. by destruct gs.
Qed.

Lemma merge_at_fst i (gs : list group) :
  (S i < length gs)%nat → (merge_at i gs).*1 = fuse i (gs.*1).
Proof.
  intros H. unfold merge_at.
  destruct (lookup_lt_is_Some_2 gs i) as [g Hg]; [lia|].
  destruct (lookup_lt_is_Some_2 gs (S i)) as [h Hh]; [lia|].
  rewrite Hg, Hh. rewrite fuse_eq by (by rewrite length_fmap).
  rewrite fmap_app, fmap_cons, fmap_take, fmap_drop.
  rewrite (list_lookup_total_fmap fst gs i), (list_lookup_total_fmap fst gs (S i)) by lia.
  apply list_lookup_total_correct in Hg, Hh. by rewrite Hg, Hh.
Qed.

Lemma merge_at_snd i (gs : list group) :
  (S i < length gs)%nat → (merge_at i gs).*2 = fuse i (gs.*2).
Proof.
  intros H. unfold merge_at.
  destruct (lookup_lt_is_Some_2 gs i) as [g Hg]; [lia|].
  destruct (lookup_lt_is_Some_2 gs (S i)) as [h Hh]; [lia|].
  rewrite Hg, Hh. rewrite fuse_eq by (by rewrite length_fmap).
  rewrite fmap_app, fmap_cons, fmap_take, fmap_drop.
  rewrite (list_lookup_total_fmap snd gs i), (list_lookup_total_fmap snd gs (S i)) by lia.
  apply list_lookup_total_correct in Hg, Hh. by rewrite Hg, Hh.
Qed.

Lemma merge_at_length i (gs : list group) :
  (S i < length gs)%nat → length (merge_at i gs) = pred (length gs).
Proof.
  intros H. rewrite <- (length_fmap fst). rewrite merge_at_fst by done.
  rewrite fuse_length by (by rewrite length_fmap). by rewrite length_fmap.
Qed.

(** With two groups or more there is a smallest pair. *)
Lemma smallest_pair_spec (gs : list group) :
  (2 <= length gs)%nat →
  ∃ i m, smallest_pair gs = Some i ∧ (S i < length gs)%nat ∧
         psums (gs.*1) !! i = Some m ∧ Forall (fun t => m <= t) (psums (gs.*1)) ∧
         (∀ j y, psums (gs.*1) !! j = Some y → (j < i)%nat → y ≠ m).
Proof.
  intros Hlen. unfold smallest_pair. rewrite pair_sizes_psums.
  set (l := psums (gs.*1)).
  assert (length l = pred (length gs)) as Hl by (unfold l; by rewrite psums_length, length_fmap).
  destruct (py_min_spec l) as (m & _ & Hin & Hmin).
  { intros Hnil. rewrite Hnil in Hl. simpl in Hl. lia. }
  destruct (py_index_spec m l Hin) as (i & _ & Hi & Hfirst).
  exists i, m. rewrite (first_min_find l m i Hi Hmin Hfirst). simpl.
  split; [done|]. apply lookup_lt_Some in Hi as Hlt. split; [lia|]. done.
Qed.

Section MergeLoop.

Context {FL : Float64}.

Lemma merge_step_reference (gs : list group) :
  (2 <= length gs)%nat →
  merge_step (gs.*1, psums (gs.*1), gs.*2) =
    Ok ((reference_step gs).*1, psums ((reference_step gs).*1), (reference_step gs).*2)
  ∧ length (reference_step gs) = pred (length gs).
Proof.
  intros Hlen. destruct (smallest_pair_spec gs Hlen) as (i & m & Hsp & Hi & Hm & Hmin & Hfirst).
  unfold reference_step. rewrite Hsp.
  rewrite merge_at_fst, merge_at_snd, merge_at_length by done. split; [|done].
  apply (merge_step_spec _ _ i m); rewrite ?length_fmap; done.
Qed.

Lemma merge_loop_reference (n fuel K : nat) (gs : list group) :
  (2 <= K)%nat → length gs = (n + K)%nat → (n <= fuel)%nat →
  repeat_m n merge_step (gs.*1, psums (gs.*1), gs.*2) =
    Ok ((reference_merge fuel K gs).*1, psums ((reference_merge fuel K gs).*1),
        (reference_merge fuel K gs).*2).
Proof.
  intros HK. revert fuel gs. induction n as [|n IH]; intros fuel gs Hlen Hfuel.
  - cbn [repeat_m]. destruct fuel as [|fuel]; cbn [reference_merge]; [done|].
    by rewrite (proj2 (Nat.eqb_eq _ _)) by lia.
  - destruct fuel as [|fuel]; [lia|]. cbn [repeat_m reference_merge].
    rewrite (proj2 (Nat.eqb_neq _ _)) by lia.
    destruct (merge_step_reference gs) as [-> Hl]; [lia|].
    cbn [mbind result_bind]. apply IH; lia.
Qed.

End MergeLoop.

(** What the reference process preserves. *)

Lemma reference_step_inv (gs : list group) :
  groups_ok gs →
  groups_ok (reference_step gs) ∧
  Zsum ((reference_step gs).*1) = Zsum (gs.*1) ∧
  Zsum ((reference_step gs).*2) = Zsum (gs.*2).
Proof.
  intros [H1 H2]. unfold reference_step, smallest_pair.
  destruct (list_find _ _) as [[i m]|] eqn:Hfind; simpl; [|done].
  apply list_find_Some in Hfind as [Hi _]. apply lookup_lt_Some in Hi.
  rewrite pair_sizes_psums, psums_length, length_fmap in Hi.
  assert (S i < length gs)%nat by lia.
  unfold groups_ok. rewrite merge_at_fst, merge_at_snd by done.
  rewrite !Zsum_fuse by (by rewrite length_fmap).
  split; [|done]. split; apply Forall_fuse_pos; rewrite ?length_fmap; done.
Qed.

Lemma reference_merge_inv (fuel K : nat) (gs : list group) :
  groups_ok gs →
  groups_ok (reference_merge fuel K gs) ∧
  Zsum ((reference_merge fuel K gs).*1) = Zsum (gs.*1) ∧
  Zsum ((reference_merge fuel K gs).*2) = Zsum (gs.*2).
Proof.
  revert gs. induction fuel as [|fuel IH]; intros gs Hok; simpl; [done|].
  destruct (length gs =? K)%nat; [done|].
  destruct (reference_step_inv gs Hok) as (Hok' & <- & <-). by apply IH.
Qed.

Lemma reference_merge_length (fuel K : nat) (gs : list group) :
  (2 <= K)%nat → (K <= length gs)%nat → (length gs - K <= fuel)%nat →
  length (reference_merge fuel K gs) = K.
Proof.
  intros HK. revert gs. induction fuel as [|fuel IH]; intros gs Hlen Hfuel; simpl; [lia|].
  destruct (Nat.eqb_spec (length gs) K) as [|Hne]; [done|].
  assert (length (reference_step gs) = pred (length gs)) as Hl.
  { destruct (smallest_pair_spec gs) as (i & m & Hsp & Hi & _); [lia|].
    unfold reference_step. rewrite Hsp. by apply merge_at_length. }
  apply IH; lia.
Qed.

Lemma for_m_ok {X S : Type} (xs : list X) (body : X → S → result S) (s : S) :
  (∀ x s, x ∈ xs → ∃ s', body x s = Ok s') → ∃ s', for_m xs body s = Ok s'.
Proof.
  revert s. induction xs as [|x xs IH]; intros s Hbody; simpl; [by eexists|].
  destruct (Hbody x s) as [s' ->]; [by left|]. cbn [mbind result_bind].
  apply IH. intros y t Hy. apply Hbody. by right.
Qed.

Lemma Zsum_take_S (l : list Z) (k : nat) :
  (k < length l)%nat → Zsum (take (S k) l) = Zsum (take k l) + l !!! k.
Proof.
  intros H. rewrite (take_S_r l k (l !!! k)) by (by apply list_lookup_lookup_total_lt).
  rewrite Zsum_app, Zsum_cons. change (Zsum []) with 0. lia.
Qed.

Section WithinSite.

Context {FL : Float64}.

(** The loops that fill [j_ind_k] index [k_lim] and [j_lim] within range. *)
Lemma within_site_ok (N K : Z) (Nj Nj_k : list Z) :
  0 <= N →
  Forall (fun n => 0 < n) Nj → Zsum Nj < 2 ^ 63 →
  Forall (fun n => 0 < n) Nj_k → Zsum Nj_k = Z.of_nat (length Nj) →
  K = Z.of_nat (length Nj_k) →
  ∃ j_ind_k, within_site N K (0 :: np_cumsum Nj) Nj_k = Ok j_ind_k.
Proof.
  intros HN HNj HsNj HNjk HsNjk HK. unfold within_site, np_empty.
  destruct (Z.ltb_spec N 0) as [|_]; [lia|]. cbn [mbind result_bind].
  pose proof (Zsum_pos_length Nj HNj) as HJ.
  apply for_m_ok. intros k s Hk.
  apply elem_of_seqZ in Hk.
  assert (k = Z.of_nat (Z.to_nat k)) as Hkn by lia.
  set (kn := Z.to_nat k) in *.
  assert (kn < length Nj_k)%nat as Hknlt by lia.
  rewrite (get_item_total Nj_k k kn) by done. cbn [mbind result_bind].
  apply for_m_ok. intros ji t Hji. apply elem_of_seqZ in Hji.
  unfold within_site_body.
  rewrite (get_item_nat _ k kn (Zsum (take kn Nj_k))); [|done|].
  2:{ apply np_cumsum_lookup; [done|lia|lia]. }
  cbn [mbind result_bind].
  pose proof (Zsum_take_S Nj_k kn Hknlt) as HS.
  pose proof (Zsum_take_le Nj_k (S kn) HNjk) as Hle.
  pose proof (Zsum_nonneg (take kn Nj_k) (Forall_take _ _ _ HNjk)) as Hge.
  rewrite int64_add_id by (unfold int64; lia).
  set (ki := ji + Zsum (take kn Nj_k)) in *.
  assert (ki = Z.of_nat (Z.to_nat ki)) as Hki by lia.
  rewrite (get_item_nat _ ki (Z.to_nat ki) (Zsum (take (Z.to_nat ki) Nj))); [|done|].
  2:{ apply np_cumsum_lookup; [done|done|lia]. }
  cbn [mbind result_bind].
  rewrite (get_item_nat _ (ki + 1) (S (Z.to_nat ki)) (Zsum (take (S (Z.to_nat ki)) Nj))); [|lia|].
  2:{ apply np_cumsum_lookup; [done|done|lia]. }
  cbn [mbind result_bind]. by eexists.
Qed.

End WithinSite.

Lemma initial_pair_sums (Nj : list Z) :
  valid_sizes Nj → zip_with int64_add (removelast Nj) (tail Nj) = psums Nj.
Proof.
  unfold psums. intros [Hpos Hsum]. induction Nj as [|x [|y l] IH]; [done..|].
  inversion Hpos as [|? ? Hx Hpos']; subst. inversion Hpos' as [|? ? Hy Hpos'']; subst.
  rewrite !Zsum_cons in Hsum. pose proof (Zsum_nonneg l Hpos'').
  change (removelast (x :: y :: l)) with (x :: removelast (y :: l)).
  cbn [tail zip_with]. f_equal.
  - apply int64_add_id. unfold int64. lia.
  - apply IH; [done|]. rewrite Zsum_cons. lia.
Qed.

Lemma initial_groups_fst (Nj : list Z) : ((fun n => (n, 1)) <$> Nj).*1 = Nj.
Proof. rewrite <- list_fmap_compose. apply list_fmap_id. Qed.

Lemma initial_groups_snd (Nj : list Z) : ((fun n => (n, 1)) <$> Nj).*2 = replicate (length Nj) 1.
Proof. induction Nj as [|x l IH]; [done|]. rewrite !fmap_cons, IH. done. Qed.

Lemma initial_groups_ok (Nj : list Z) :
  Forall (fun n => 0 < n) Nj → groups_ok ((fun n => (n, 1)) <$> Nj).
Proof.
  intros H. split; [by rewrite initial_groups_fst|].
  rewrite initial_groups_snd. apply Forall_replicate. lia.
Qed.

Section MergeGroups.

Context {FL : Float64}.

Lemma merge_groups_reference (J K : Z) (Nj : list Z) :
  valid_sizes Nj → J = Z.of_nat (length Nj) → 2 <= K < J →
  ∃ jk, merge_groups J K (Zsum Nj) Nj =
          Ok (Sites ((reference_sites K Nj).*1) (Some ((reference_sites K Nj).*2)) (Some jk)).
Proof.
  intros Hv HJ HK. pose proof Hv as [Hpos Hsum]. unfold merge_groups. cbv zeta.
  rewrite initial_pair_sums by done.
  set (gs := (fun n => (n, 1)) <$> Nj).
  assert (length gs = length Nj) as Hgs by (unfold gs; by rewrite length_fmap).
  assert (repeat_m (Z.to_nat (J - K)) merge_step (Nj, psums Nj, replicate (Z.to_nat J) 1) =
          Ok ((reference_sites K Nj).*1, psums ((reference_sites K Nj).*1),
              (reference_sites K Nj).*2)) as ->.
  { unfold reference_sites. fold gs.
    rewrite <- (merge_loop_reference (Z.to_nat (J - K)) (length Nj) (Z.to_nat K) gs) by lia.
    unfold gs. rewrite initial_groups_fst, initial_groups_snd. do 3 f_equal. lia. }
  cbn [mbind result_bind].
  destruct (reference_merge_inv (length Nj) (Z.to_nat K) gs) as ([Hp1 Hp2] & Hs1 & Hs2).
  { by apply initial_groups_ok. }
  change (reference_merge (length Nj) (Z.to_nat K) gs) with (reference_sites K Nj) in *.
  assert (length (reference_sites K Nj) = Z.to_nat K) as Hlen.
  { unfold reference_sites. apply reference_merge_length; rewrite ?length_fmap; lia. }
  unfold gs in Hs2. rewrite initial_groups_snd, Zsum_replicate in Hs2.
  destruct (within_site_ok (Zsum Nj) K Nj ((reference_sites K Nj).*2)) as [jk Hjk];
    [by apply Zsum_nonneg|done|done|done|lia|rewrite length_fmap; lia|].
  rewrite Hjk. cbn [mbind result_bind]. by exists jk.
Qed.

End MergeGroups.

Lemma Zsum_insert (l : list Z) (c : nat) (v : Z) :
  (c < length l)%nat → Zsum (<[c := v]> l) = Zsum l - l !!! c + v.
Proof.
  intros H. rewrite insert_take_drop by done.
  rewrite <- (take_drop_middle l c (l !!! c)) at 3 by (by apply list_lookup_lookup_total_lt).
  rewrite !Zsum_app, !Zsum_cons. lia.
Qed.

Lemma Forall_insert_pos (l : list Z) (c : nat) (v : Z) :
  Forall (fun n => 0 < n) l → 0 < v → Forall (fun n => 0 < n) (<[c := v]> l).
Proof. intros Hl Hv. by apply Forall_insert. Qed.

Lemma elem_le_Zsum (l : list Z) (c : nat) :
  Forall (fun n => 0 < n) l → (c < length l)%nat → l !!! c <= Zsum l.
Proof.
  intros Hl Hc.
  rewrite <- (take_drop_middle l c (l !!! c)) at 2 by (by apply list_lookup_lookup_total_lt).
  rewrite Zsum_app, Zsum_cons.
  pose proof (Zsum_nonneg (take c l) (Forall_take _ _ _ Hl)).
  pose proof (Zsum_nonneg (drop (S c) l) (Forall_drop _ _ _ Hl)). lia.
Qed.

Section SplitLoop.

Context {FL : Float64}.

Lemma argmax_from_range (a : list float) (best : float) (ibest i : Z) :
  0 <= ibest < i → 0 <= argmax_from best ibest i a < i + Z.of_nat (length a).
Proof.
  revert best ibest i. induction a as [|x a IH]; intros best ibest i H; simpl; [lia|].
  destruct (flt best x).
  - specialize (IH x i (i + 1)). lia.
  - specialize (IH best ibest (i + 1)). lia.
Qed.

Lemma np_argmax_range (a : list float) :
  a ≠ [] → ∃ c : nat, np_argmax a = Ok (Z.of_nat c) ∧ (c < length a)%nat.
Proof.
  destruct a as [|x a]; [done|]. intros _. simpl.
  pose proof (argmax_from_range a x 0 1 ltac:(lia)) as H.
  exists (Z.to_nat (argmax_from x 0 1 a)). split; [f_equal; lia|lia].
Qed.

(** The invariant of the loop that hands out parts. *)
Definition parts_ok (J : nat) (total : Z) (st : list Z * list float) : Prop :=
  length st.1 = J ∧ length st.2 = J ∧ Forall (fun n => 0 < n) st.1 ∧ Zsum st.1 = total.

Lemma split_step_inv (Nj : list Z) (J : nat) (total : Z) (st : list Z * list float) :
  length Nj = J → (0 < J)%nat → total + 1 < 2 ^ 63 → parts_ok J total st →
  ∃ st', split_step Nj st = Ok st' ∧ parts_ok J (total + 1) st'.
Proof.
  intros HNj HJ Htot. destruct st as [ppg Nj2]. intros (Hl1 & Hl2 & Hpos & Hsum).
  simpl in Hl1, Hl2, Hpos, Hsum. unfold split_step.
  destruct (np_argmax_range Nj2) as (c & -> & Hc).
  { intros ->. simpl in Hl2. lia. }
  cbn [mbind result_bind].
  rewrite (get_item_total ppg _ c) by lia. cbn [mbind result_bind].
  rewrite (set_item_nat ppg _ c) by lia. cbn [mbind result_bind].
  rewrite (get_item_total Nj _ c) by lia. cbn [mbind result_bind].
  rewrite (get_item_total _ _ c) by (rewrite ?length_insert; lia). cbn [mbind result_bind].
  rewrite (set_item_nat Nj2 _ c) by lia. cbn [mbind result_bind].
  eexists. split; [done|].
  assert (0 < ppg !!! c) by (apply (Forall_lookup_total_1 _ ppg c Hpos); lia).
  pose proof (elem_le_Zsum ppg c Hpos ltac:(lia)).
  rewrite int64_add_id by (unfold int64; lia).
  unfold parts_ok. simpl. rewrite !length_insert.
  split; [done|]. split; [done|]. split; [apply Forall_insert_pos; [done|lia]|].
  rewrite Zsum_insert by lia. lia.
Qed.

Lemma split_loop_inv (Nj : list Z) (J n : nat) (total : Z) (st : list Z * list float) :
  length Nj = J → (0 < J)%nat → total + Z.of_nat n < 2 ^ 63 → parts_ok J total st →
  ∃ st', repeat_m n (split_step Nj) st = Ok st' ∧ parts_ok J (total + Z.of_nat n) st'.
Proof.
  intros HNj HJ. revert total st. induction n as [|n IH]; intros total st Htot Hok.
  - exists st. split; [done|]. by rewrite Z.add_0_r.
  - destruct (split_step_inv Nj J total st) as (st1 & Hst1 & Hok1); [done|done|lia|done|].
    cbn [repeat_m]. rewrite Hst1. cbn [mbind result_bind].
    destruct (IH (total + 1) st1) as (st' & Hst' & Hok'); [lia|done|].
    exists st'. split; [done|]. by replace (total + Z.of_nat (S n)) with (total + 1 + Z.of_nat n) by lia.
Qed.

End SplitLoop.

(** ** The sites of a split group *)

Lemma group_sites_length n p : length (group_sites n p) = Z.to_nat p.
Proof. unfold group_sites. by rewrite length_fmap, length_seqZ. Qed.

Lemma Zsum_sites_from (q r a : Z) (n : nat) :
  Zsum ((fun kj => if kj <? r then q + 1 else q) <$> seqZ a (Z.of_nat n)) =
  Z.of_nat n * q + Z.max 0 (Z.min (a + Z.of_nat n) r - a).
Proof.
  revert a. induction n as [|n IH]; intros a.
  - simpl. change (Zsum []) with 0. lia.
  - rewrite seqZ_cons by lia. rewrite fmap_cons, Zsum_cons.
    replace (Z.pred (Z.of_nat (S n))) with (Z.of_nat n) by lia.
    rewrite IH. destruct (Z.ltb_spec a r); lia.
Qed.

Lemma Zsum_group_sites n p : 0 <= n → 0 < p → Zsum (group_sites n p) = n.
Proof.
  intros Hn Hp. unfold group_sites.
  pose proof (Zsum_sites_from (n / p) (n mod p) 0 (Z.to_nat p)) as H.
  rewrite Z2Nat.id in H by lia. rewrite H.
  pose proof (Z.mod_pos_bound n p Hp). pose proof (Z.div_mod n p ltac:(lia)). nia.
Qed.

Lemma group_sites_values n p x :
  x ∈ group_sites n p → x = n / p ∨ x = n / p + 1.
Proof.
  unfold group_sites. intros (kj & -> & _)%list_elem_of_fmap.
  destruct (kj <? n mod p); auto.
Qed.

Section FillLoop.

Context {FL : Float64}.

Lemma for_m_fill (body : Z → list Z * Z → result (list Z * Z)) (g : Z → Z) :
  (∀ kj pre m, body kj (pre ++ replicate (S m) 0, Z.of_nat (length pre)) =
                 Ok ((pre ++ [g kj]) ++ replicate m 0, Z.of_nat (length pre) + 1)) →
  ∀ xs pre m, (length xs <= m)%nat →
    for_m xs body (pre ++ replicate m 0, Z.of_nat (length pre)) =
      Ok (pre ++ (g <$> xs) ++ replicate (m - length xs) 0, Z.of_nat (length pre + length xs)).
Proof.
  intros Hbody. induction xs as [|kj xs IH]; intros pre m Hm.
  - simpl. rewrite Nat.sub_0_r, Nat.add_0_r. done.
  - simpl in Hm. destruct m as [|m]; [lia|].
    cbn [for_m]. rewrite Hbody. cbn [mbind result_bind].
    replace (Z.of_nat (length pre) + 1) with (Z.of_nat (length (pre ++ [g kj])))
      by (rewrite length_app; simpl; lia).
    rewrite IH by lia. rewrite length_app. simpl.
    rewrite <- !app_assoc. simpl. do 2 f_equal. f_equal. lia.
Qed.

Lemma fill_inner (rem Nj2 : list Z) (j r q : Z) (xs : list Z) (pre : list Z) (m : nat) :
  get_item rem j = Ok r → get_item Nj2 j = Ok q → (length xs <= m)%nat →
  for_m xs
    (fun kj '(Nk, k) =>
       r ← get_item rem j;
       q ← get_item Nj2 j;
       Nk ← set_item Nk k (if kj <? r then int64_add q 1 else q);
       Ok (Nk, k + 1))
    (pre ++ replicate m 0, Z.of_nat (length pre)) =
  Ok (pre ++ ((fun kj => if kj <? r then int64_add q 1 else q) <$> xs)
          ++ replicate (m - length xs) 0,
      Z.of_nat (length pre + length xs)).
Proof.
  intros Hr Hq. apply (for_m_fill _ (fun kj => if kj <? r then int64_add q 1 else q)).
  clear pre m. intros kj pre m. rewrite Hr. cbn [mbind result_bind].
  rewrite Hq. cbn [mbind result_bind].
  rewrite (set_item_nat _ _ (length pre)); [|done|rewrite length_app; simpl; lia].
  cbn [mbind result_bind]. do 2 f_equal.
  rewrite insert_app_r_alt by lia. rewrite Nat.sub_diag. simpl. by rewrite <- app_assoc.
Qed.

End FillLoop.

Lemma split_sites_length (Nj ppg : list Z) :
  length Nj = length ppg → length (split_sites Nj ppg) = length ppg.
Proof. intros H. unfold split_sites. rewrite length_zip_with. lia. Qed.

Lemma split_sites_lookup (Nj ppg : list Z) (j : nat) :
  (j < length Nj)%nat → (j < length ppg)%nat →
  split_sites Nj ppg !! j = Some (group_sites (Nj !!! j) (ppg !!! j)).
Proof.
  intros H1 H2. unfold split_sites. rewrite lookup_zip_with.
  rewrite (list_lookup_lookup_total_lt Nj j H1), (list_lookup_lookup_total_lt ppg j H2). done.
Qed.

Lemma concat_length_split_sites (Nj ppg : list Z) :
  length Nj = length ppg → Forall (fun n => 0 < n) ppg →
  Z.of_nat (length (concat (split_sites Nj ppg))) = Zsum ppg.
Proof.
  unfold split_sites. revert ppg. induction Nj as [|n Nj IH]; intros [|p ppg] Hlen Hpos;
    simpl in Hlen; try lia; [done|].
  inversion Hpos; subst. cbn [zip_with concat].
  rewrite length_app, group_sites_length, Zsum_cons, Nat2Z.inj_add, IH by (try done; lia). lia.
Qed.

Lemma Zsum_concat_split_sites (Nj ppg : list Z) :
  length Nj = length ppg → Forall (fun n => 0 < n) Nj → Forall (fun n => 0 < n) ppg →
  Zsum (concat (split_sites Nj ppg)) = Zsum Nj.
Proof.
  unfold split_sites. revert ppg. induction Nj as [|n Nj IH]; intros [|p ppg] Hlen HNj Hpos;
    simpl in Hlen; try lia; [done|].
  inversion Hpos; subst. inversion HNj; subst. cbn [zip_with concat].
  rewrite Zsum_app, Zsum_group_sites, Zsum_cons, IH by (try done; lia). done.
Qed.

Section FillGroups.

Context {FL : Float64}.

Lemma fill_group_spec (Nj ppg : list Z) (j : nat) (pre : list Z) (rest : nat) :
  length Nj = length ppg → (j < length ppg)%nat →
  Forall (fun n => 0 < n) Nj → Zsum Nj < 2 ^ 63 → Forall (fun n => 0 < n) ppg →
  let sites := group_sites (Nj !!! j) (ppg !!! j) in
  fill_group ppg (zip_with int64_floordiv Nj ppg) (zip_with int64_mod Nj ppg) (Z.of_nat j)
    (pre ++ replicate (length sites + rest) 0, Z.of_nat (length pre)) =
  Ok (pre ++ sites ++ replicate rest 0, Z.of_nat (length pre + length sites)).
Proof.
  intros Hlen Hj HNj Hsum Hppg sites. unfold fill_group.
  set (n := Nj !!! j) in *. set (p := ppg !!! j) in *.
  assert (0 < n) as Hn by (apply (Forall_lookup_total_1 _ Nj j HNj); lia).
  assert (0 < p) as Hp by (apply (Forall_lookup_total_1 _ ppg j Hppg); lia).
  assert (n <= Zsum Nj) as Hle by (apply elem_le_Zsum; [done|lia]).
  rewrite (get_item_total ppg _ j) by lia. cbn [mbind result_bind]. fold p.
  pose proof (Z.mod_pos_bound n p Hp) as Hmod.
  pose proof (Z.div_mod n p ltac:(lia)) as Hdm.
  assert (0 <= n / p) as Hq by (apply Z.div_pos; lia).
  assert (n / p <= n) as Hqn by nia.
  rewrite (fill_inner _ _ _ (n mod p) (n / p)).
  - unfold py_range. rewrite length_seqZ.
    replace (length sites) with (Z.to_nat p) by (unfold sites; by rewrite group_sites_length).
    replace (Z.to_nat p + rest - Z.to_nat p)%nat with rest by lia.
    assert (((fun kj => if kj <? n mod p then int64_add (n / p) 1 else n / p) <$> seqZ 0 p)
            = sites) as ->; [|done].
    unfold sites, group_sites. apply list_fmap_ext.
    intros i kj Hkj. apply list_elem_of_lookup_2 in Hkj. apply elem_of_seqZ in Hkj.
    destruct (Z.ltb_spec kj (n mod p)); [|done].
    apply int64_add_id. unfold int64. nia.
  - erewrite (get_item_nat _ _ j); [done|done|].
    rewrite lookup_zip_with.
    rewrite (list_lookup_lookup_total_lt Nj j), (list_lookup_lookup_total_lt ppg j) by lia.
    simpl. fold n p. unfold int64_mod. by rewrite (proj2 (Z.eqb_neq p 0)) by lia.
  - erewrite (get_item_nat _ _ j); [done|done|].
    rewrite lookup_zip_with.
    rewrite (list_lookup_lookup_total_lt Nj j), (list_lookup_lookup_total_lt ppg j) by lia.
    simpl. fold n p. unfold int64_floordiv. rewrite (proj2 (Z.eqb_neq p 0)) by lia.
    by rewrite wrap64_id by (unfold int64; lia).
  - unfold py_range. rewrite length_seqZ. unfold sites. rewrite group_sites_length. lia.
Qed.

Lemma fill_loop_spec (Nj ppg : list Z) (n j0 : nat) :
  length Nj = length ppg → (j0 + n = length ppg)%nat →
  Forall (fun n => 0 < n) Nj → Zsum Nj < 2 ^ 63 → Forall (fun n => 0 < n) ppg →
  let G := split_sites Nj ppg in
  for_m (seqZ (Z.of_nat j0) (Z.of_nat n))
    (fill_group ppg (zip_with int64_floordiv Nj ppg) (zip_with int64_mod Nj ppg))
    (concat (take j0 G) ++ replicate (length (concat (drop j0 G))) 0,
     Z.of_nat (length (concat (take j0 G)))) =
  Ok (concat G, Z.of_nat (length (concat G))).
Proof.
  intros Hlen Hn HNj Hsum Hppg G. revert j0 Hn. induction n as [|n IH]; intros j0 Hn.
  - simpl. assert (length G = j0) as <-.
    { unfold G. rewrite split_sites_length by done. lia. }
    rewrite drop_all, take_ge by lia. simpl. by rewrite app_nil_r.
  - rewrite seqZ_cons by lia. cbn [for_m].
    assert (G !! j0 = Some (group_sites (Nj !!! j0) (ppg !!! j0))) as Hj0.
    { apply split_sites_lookup; lia. }
    rewrite (drop_S G _ j0 Hj0). cbn [concat]. rewrite length_app.
    rewrite fill_group_spec by (try done; lia). cbn [mbind result_bind].
    replace (Z.succ (Z.of_nat j0)) with (Z.of_nat (S j0)) by lia.
    replace (Z.pred (Z.of_nat (S n))) with (Z.of_nat n) by lia.
    specialize (IH (S j0) ltac:(lia)).
    rewrite (take_S_r G j0 _ Hj0) in IH. rewrite concat_app in IH. simpl in IH.
    rewrite app_nil_r in IH. rewrite length_app in IH.
    rewrite <- app_assoc in IH. exact IH.
Qed.

(** The branch [J < K <= N] returns the sites of [split_sites]. *)
Lemma split_groups_spec (J K : Z) (Nj : list Z) :
  valid_sizes Nj → J = Z.of_nat (length Nj) → J < K <= Zsum Nj →
  ∃ ppg, split_groups J K Nj = Ok (Sites (concat (split_sites Nj ppg)) (Some ppg) None) ∧
         length ppg = length Nj ∧ Forall (fun n => 0 < n) ppg ∧ Zsum ppg = K.
Proof.
  intros [HNj Hsum] HJ HK. unfold split_groups, np_ones.
  destruct (Z.ltb_spec J 0); [lia|]. cbn [mbind result_bind].
  assert (0 < length Nj)%nat as Hpos.
  { destruct Nj; [|simpl; lia]. change (Zsum []) with 0 in HK. simpl in HJ. lia. }
  destruct (split_loop_inv Nj (length Nj) (Z.to_nat (K - J)) J
              (replicate (Z.to_nat J) 1, of_int <$> Nj))
    as ([ppg Nj2] & -> & (Hl1 & Hl2 & Hppg & Hs)); [done|done|lia| |].
  { unfold parts_ok. simpl. rewrite length_replicate, length_fmap, Zsum_replicate.
    split; [lia|]. split; [done|]. split; [apply Forall_replicate; lia|lia]. }
  simpl in Hl1, Hl2, Hppg, Hs. cbn [mbind result_bind].
  unfold np_empty. destruct (Z.ltb_spec K 0); [lia|]. cbn [mbind result_bind].
  pose proof (fill_loop_spec Nj ppg (length Nj) 0) as Hfill.
  cbv zeta in Hfill. rewrite take_0, drop_0 in Hfill. cbn [concat app length] in Hfill.
  change (Z.of_nat 0) with 0 in Hfill.
  assert (length (concat (split_sites Nj ppg)) = Z.to_nat K) as HlenK.
  { pose proof (concat_length_split_sites Nj ppg ltac:(lia) Hppg). lia. }
  rewrite HlenK in Hfill. unfold py_range.
  replace J with (Z.of_nat (length Nj)) by lia.
  rewrite Hfill by (try done; lia). cbn [mbind result_bind].
  exists ppg. split; [done|]. split; [done|]. split; [done|lia].
Qed.

End FillGroups.

(** ** Inputs of [distribute_groups] *)

Lemma sizes_of_length J Nj :
  well_formed J Nj → shape_ok J Nj → Z.of_nat (length (sizes_of J Nj)) = J.
Proof.
  intros (HJ & Hwf & _) Hshape. destruct Nj as [n|a]; simpl in *.
  - rewrite length_replicate. lia.
  - destruct Hwf as [-> _]. rewrite Hshape. simpl. lia.
Qed.

Lemma group_sizes_ok J Nj :
  well_formed J Nj → shape_ok J Nj → group_sizes J Nj = Ok (sizes_of J Nj).
Proof.
  intros (HJ & Hwf & _) Hshape. destruct Nj as [n|a]; simpl in *.
  - unfold np_ones. destruct (Z.ltb_spec J 0); [lia|]. cbn [mbind result_bind].
    f_equal. rewrite fmap_replicate. f_equal. unfold int64_mul. rewrite Z.mul_1_r.
    by apply wrap64_id.
  - rewrite Hshape. simpl. by rewrite Z.eqb_refl.
Qed.

Lemma group_sizes_bad_shape J a :
  ¬ shape_ok J (NjArr a) →
  group_sizes J (NjArr a) = Raise (ValueError "Invalid shape of arg. `Nj`.").
Proof.
  intros Hshape. simpl in *. destruct (nd_shape a) as [|d [|d' sh]]; simpl; [done| |done].
  destruct (Z.eqb_spec d J) as [->|]; [by destruct Hshape|done].
Qed.

Lemma existsb_nonpositive (l : list Z) :
  existsb (fun n => n <=? 0) l = bool_decide (Exists (fun n => n <= 0) l).
Proof.
  induction l as [|x l IH]; cbn [existsb].
  - symmetry. apply bool_decide_eq_false_2. by intros ?%Exists_nil.
  - rewrite IH. destruct (Z.leb_spec x 0).
    + symmetry. apply bool_decide_eq_true_2. by left.
    + cbn [orb]. apply bool_decide_ext. rewrite Exists_cons. intuition lia.
Qed.

Lemma not_Exists_nonpositive (l : list Z) :
  ¬ Exists (fun n => n <= 0) l → Forall (fun n => 0 < n) l.
Proof. intros H. apply Forall_forall. intros x Hx. destruct (Z.lt_ge_cases 0 x); [done|].
  destruct H. apply Exists_exists. exists x. split; [done|lia]. Qed.

Section DistributeGroupsSpec.

Context {FL : Float64}.

(** On a valid request the function runs one of its three branches. *)
Lemma distribute_groups_valid J K Nj :
  valid_input J K Nj →
  distribute_groups J K Nj =
    let s := sizes_of J Nj in
    if K <? J then merge_groups J K (Zsum s) s
    else if K =? J then Ok (Sites s None None)
    else split_groups J K s.
Proof.
  intros (Hwf & Hshape & Hpos & HK). unfold distribute_groups.
  rewrite group_sizes_ok by done. cbn [mbind result_bind].
  rewrite existsb_nonpositive. rewrite bool_decide_eq_false_2.
  2:{ intros (x & Hx & Hle)%Exists_exists. rewrite Forall_forall in Hpos.
      specialize (Hpos x Hx). lia. }
  destruct Hwf as (_ & _ & Hsum). rewrite np_sum_exact by done.
  destruct (Z.ltb_spec K 2); [lia|]. cbv zeta.
  destruct (K <? J); [done|]. destruct (K =? J); [done|].
  by destruct (Z.leb_spec K (Zsum (sizes_of J Nj))); [|lia].
Qed.

End DistributeGroupsSpec.

Lemma split_sites_take (Nj ppg : list Z) (j : nat) :
  take j (split_sites Nj ppg) = split_sites (take j Nj) (take j ppg).
Proof. unfold split_sites. by rewrite zip_with_take. Qed.

Lemma split_sites_site (Nj ppg : list Z) (j : nat) (a : Z) :
  length Nj = length ppg → Forall (fun n => 0 < n) ppg →
  (j < length ppg)%nat → 0 <= a < ppg !!! j →
  concat (split_sites Nj ppg) !! site_index ppg j a =
    group_sites (Nj !!! j) (ppg !!! j) !! Z.to_nat a.
Proof.
  intros Hlen Hppg Hj Ha. unfold site_index.
  pose proof (split_sites_lookup Nj ppg j ltac:(lia) Hj) as HG.
  rewrite <- (take_drop_middle _ _ _ HG). rewrite concat_app. cbn [concat].
  pose proof (concat_length_split_sites (take j Nj) (take j ppg)) as Hl.
  rewrite <- split_sites_take in Hl.
  rewrite !length_take in Hl. specialize (Hl ltac:(lia) (Forall_take _ _ _ Hppg)).
  rewrite lookup_app_r by lia.
  replace (Z.to_nat (Zsum (take j ppg) + a) - length (concat (take j (split_sites Nj ppg))))%nat
    with (Z.to_nat a) by lia.
  apply lookup_app_l. rewrite group_sites_length. lia.
Qed.

Section Theorems.

Context {FL : Float64}.

(** C2: for a valid request with [2 <= K < J], the sample counts [Nk] and the
    group counts [Nj_k] are those of the reference process: starting from the
    groups in their order, merge the first adjacent pair of smallest combined
    size, until [K] groups remain. *)
Theorem distribute_groups_merges_smallest_adjacent_pair (J K : Z) (Nj : Nj_arg) :
  valid_input J K Nj → K < J →
  ∃ jk, distribute_groups J K Nj =
          Ok (Sites ((reference_sites K (sizes_of J Nj)).*1)
                    (Some ((reference_sites K (sizes_of J Nj)).*2)) (Some jk)).
Proof.
  intros Hv HKJ. rewrite distribute_groups_valid by done. cbv zeta.
  destruct Hv as (Hwf & Hshape & Hpos & HK).
  destruct (Z.ltb_spec K J); [|lia].
  apply merge_groups_reference; [|by rewrite sizes_of_length|lia].
  split; [done|]. by destruct Hwf as (_ & _ & ?).
Qed.

(** C3: for a valid request the sample counts add up to the number of
    samples; for [K < J] the group counts add up to [J]; for [K > J] the
    site counts add up to [K] and two sites of one group differ by at most one
    sample. *)
Theorem distribute_groups_conserves (J K : Z) (Nj : Nj_arg) :
  valid_input J K Nj →
  ∃ out, distribute_groups J K Nj = Ok out ∧
    Zsum (Nk out) = Zsum (sizes_of J Nj) ∧
    (K < J → ∃ Nj_k, per_site out = Some Nj_k ∧ Zsum Nj_k = J) ∧
    (J < K → ∃ Nk_j, per_site out = Some Nk_j ∧ Z.of_nat (length Nk_j) = J ∧ Zsum Nk_j = K ∧
       ∀ (j : nat) (a b : Z), (j < length Nk_j)%nat →
         0 <= a < Nk_j !!! j → 0 <= b < Nk_j !!! j →
         ∃ x y, Nk out !! site_index Nk_j j a = Some x ∧
                Nk out !! site_index Nk_j j b = Some y ∧ Z.abs (x - y) <= 1).
Proof.
  intros Hv. pose proof Hv as (Hwf & Hshape & Hpos & HK).
  pose proof (sizes_of_length J Nj Hwf Hshape) as Hlen.
  assert (valid_sizes (sizes_of J Nj)) as Hvs by (split; [done|by destruct Hwf as (_ & _ & ?)]).
  rewrite distribute_groups_valid by done. cbv zeta.
  destruct (Z.ltb_spec K J) as [HKJ|HKJ].
  - destruct (merge_groups_reference J K (sizes_of J Nj)) as [jk ->]; [done|lia|lia|].
    eexists. split; [done|]. cbn [Nk per_site].
    destruct (reference_merge_inv (length (sizes_of J Nj)) (Z.to_nat K)
                ((fun n => (n, 1)) <$> sizes_of J Nj)) as (_ & Hs1 & Hs2).
    { by apply initial_groups_ok. }
    rewrite initial_groups_fst in Hs1. rewrite initial_groups_snd, Zsum_replicate in Hs2.
    split; [done|]. split; [|lia]. intros _. eexists. split; [done|].
    unfold reference_sites. lia.
  - destruct (Z.eqb_spec K J) as [->|Hne].
    + eexists. split; [done|]. cbn [Nk per_site]. split; [done|]. split; lia.
    + destruct (split_groups_spec J K (sizes_of J Nj)) as (ppg & -> & Hl & Hppg & Hs);
        [done|lia|lia|].
      eexists. split; [done|]. cbn [Nk per_site].
      split; [by apply Zsum_concat_split_sites|]. split; [lia|]. intros _.
      exists ppg. split; [done|]. split; [lia|]. split; [done|].
      intros j a b Hj Ha Hb.
      assert (Z.to_nat a < length (group_sites (sizes_of J Nj !!! j) (ppg !!! j)))%nat as Hla
        by (rewrite group_sites_length; lia).
      assert (Z.to_nat b < length (group_sites (sizes_of J Nj !!! j) (ppg !!! j)))%nat as Hlb
        by (rewrite group_sites_length; lia).
      apply lookup_lt_is_Some_2 in Hla as [x Hx]. apply lookup_lt_is_Some_2 in Hlb as [y Hy].
      exists x, y. rewrite !split_sites_site by (try done; lia).
      split; [done|]. split; [done|].
      apply list_elem_of_lookup_2, group_sites_values in Hx, Hy. lia.
Qed.

(** C6: the function raises exactly when an argument check fails: the shape
    of [Nj], a group without items, [K < 2], or [K] above the number of
    samples; the error is the one of the first failing check, and when none
    fails a result is returned. *)
Theorem distribute_groups_raises_iff (J K : Z) (Nj : Nj_arg) :
  well_formed J Nj →
  (∀ e, distribute_groups J K Nj = Raise e ↔ argument_error J K Nj = Some e) ∧
  (is_value_error (distribute_groups J K Nj) ↔
     ¬ shape_ok J Nj ∨ Exists (fun n => n <= 0) (sizes_of J Nj) ∨ K < 2 ∨
     Zsum (sizes_of J Nj) < K) ∧
  (argument_error J K Nj = None → is_ok (distribute_groups J K Nj)).
Proof.
  intros Hwf.
  assert (match argument_error J K Nj with
          | Some e => distribute_groups J K Nj = Raise e ∧ is_value_error (Raise (A:=sites) e)
          | None => is_ok (distribute_groups J K Nj) ∧ valid_input J K Nj
          end) as Hcase.
  { unfold argument_error. destruct (decide (shape_ok J Nj)) as [Hshape|Hshape].
    2:{ destruct Nj as [n|a]; [by destruct Hshape|].
        unfold distribute_groups. by rewrite group_sizes_bad_shape. }
    destruct (decide (Exists _ _)) as [Hex|Hex].
    { unfold distribute_groups. rewrite group_sizes_ok by done. cbn [mbind result_bind].
      rewrite existsb_nonpositive. by rewrite bool_decide_eq_true_2. }
    apply not_Exists_nonpositive in Hex.
    destruct (decide (K < 2)) as [HK2|HK2].
    { unfold distribute_groups. rewrite group_sizes_ok by done. cbn [mbind result_bind].
      rewrite existsb_nonpositive. rewrite bool_decide_eq_false_2.
      2:{ intros (x & Hx & Hle)%Exists_exists. rewrite Forall_forall in Hex.
          specialize (Hex x Hx). lia. }
      by destruct (Z.ltb_spec K 2); [|lia]. }
    pose proof (sizes_of_length J Nj Hwf Hshape) as Hlen.
    pose proof (Zsum_pos_length _ Hex) as HJN.
    destruct (decide (Zsum (sizes_of J Nj) < K)) as [HKN|HKN].
    { unfold distribute_groups. rewrite group_sizes_ok by done. cbn [mbind result_bind].
      rewrite existsb_nonpositive. rewrite bool_decide_eq_false_2.
      2:{ intros (x & Hx & Hle)%Exists_exists. rewrite Forall_forall in Hex.
          specialize (Hex x Hx). lia. }
      destruct Hwf as (_ & _ & Hsum). rewrite np_sum_exact by done. cbv zeta.
      destruct (Z.ltb_spec K 2); [lia|]. destruct (Z.ltb_spec K J); [lia|].
      destruct (Z.eqb_spec K J); [lia|].
      by destruct (Z.leb_spec K (Zsum (sizes_of J Nj))); [lia|]. }
    assert (valid_input J K Nj) as Hv by (split; [done|]; split; [done|]; split; [done|lia]).
    split; [|done]. destruct (distribute_groups_conserves J K Nj Hv) as (out & -> & _). done. }
  split; [|split].
  - intros e. destruct (argument_error J K Nj) as [e'|].
    + destruct Hcase as [-> _]. split; congruence.
    + destruct Hcase as [Hok _]. split; [|done]. intros Heq. by rewrite Heq in Hok.
  - assert (is_Some (argument_error J K Nj) ↔
            ¬ shape_ok J Nj ∨ Exists (fun n => n <= 0) (sizes_of J Nj) ∨ K < 2 ∨
            Zsum (sizes_of J Nj) < K) as <-.
    { unfold argument_error. repeat case_decide; split; intros Hs; try (by eexists);
        try tauto; by destruct Hs. }
    destruct (argument_error J K Nj) as [e'|].
    + destruct Hcase as [-> He]. split; [by eexists|done].
    + destruct Hcase as [Hok _]. split; [|by intros [? ?]].
      destruct (distribute_groups J K Nj); [done|by destruct Hok].
  - intros Heq. rewrite Heq in Hcase. by destruct Hcase.
Qed.

(** C10: an integer [n] for [Nj] stands for the vector of [J] entries [n]. *)
Theorem distribute_groups_int_is_constant_vector (J K n : Z) :
  0 <= J → int64 n →
  distribute_groups J K (NjInt n) =
  distribute_groups J K (NjArr (NdArray [J] (replicate (Z.to_nat J) n))).
Proof.
  intros HJ Hn. unfold distribute_groups.
  assert (group_sizes J (NjInt n) = Ok (replicate (Z.to_nat J) n)) as ->.
  { simpl. unfold np_ones. destruct (Z.ltb_spec J 0); [lia|]. cbn [mbind result_bind].
    f_equal. rewrite fmap_replicate. f_equal. unfold int64_mul. rewrite Z.mul_1_r.
    by apply wrap64_id. }
  assert (group_sizes J (NjArr (NdArray [J] (replicate (Z.to_nat J) n))) =
          Ok (replicate (Z.to_nat J) n)) as ->; [|done].
  simpl. by rewrite Z.eqb_refl.
Qed.

End Theorems.

(** ** The statements at concrete requests *)

Lemma distribute_groups_merge_example :
  distribute_groups (FL := Q_float) 6 3 (NjArr (NdArray [6] [5; 1; 7; 2; 2; 9])) =
  Ok (Sites [6; 11; 9] (Some [2; 3; 1])
        (Some [0; 0; 0; 0; 0; 1; 0; 0; 0; 0; 0; 0; 0; 1; 1; 2; 2; 0; 0; 0; 0; 0; 0; 0; 0; 0])).
Proof. vm_compute. reflexivity. Qed.

Lemma distribute_groups_split_example :
  distribute_groups (FL := Q_float) 2 5 (NjArr (NdArray [2] [12; 3])) =
  Ok (Sites [3; 3; 3; 3; 3] (Some [4; 1]) None).
Proof. vm_compute. reflexivity. Qed.

Lemma valid_input_example_merge : valid_input 5 3 (NjArr (NdArray [5] [10; 10; 10; 10; 10])).
Proof.
  split; [|split; [done|split]].
  - split; [lia|]. split; [|vm_compute; congruence].
    split; [reflexivity|]. repeat constructor; unfold int64; lia.
  - repeat constructor; lia.
  - vm_compute. split; congruence.
Defined.

Lemma valid_input_example_split : valid_input 2 5 (NjArr (NdArray [2] [12; 3])).
Proof.
  split; [|split; [done|split]].
  - split; [lia|]. split; [|vm_compute; congruence].
    split; [reflexivity|]. repeat constructor; unfold int64; lia.
  - repeat constructor; lia.
  - vm_compute. split; congruence.
Defined.

Lemma well_formed_example_int : well_formed 5 (NjInt 10).
Proof. split; [lia|]. split; [unfold int64; lia|vm_compute; congruence]. Defined.

Lemma distribute_groups_merges_smallest_adjacent_pair_witness :
  ∃ jk, distribute_groups (FL := Q_float) 5 3 (NjArr (NdArray [5] [10; 10; 10; 10; 10])) =
          Ok (Sites ((reference_sites 3 [10; 10; 10; 10; 10]).*1)
                    (Some ((reference_sites 3 [10; 10; 10; 10; 10]).*2)) (Some jk)).
Proof.
  apply (distribute_groups_merges_smallest_adjacent_pair 5 3
           (NjArr (NdArray [5] [10; 10; 10; 10; 10])) valid_input_example_merge).
  lia.
Defined.

Lemma distribute_groups_conserves_witness :
  ∃ out, distribute_groups (FL := Q_float) 2 5 (NjArr (NdArray [2] [12; 3])) = Ok out ∧
    Zsum (Nk out) = 15 ∧
    (5 < 2 → ∃ Nj_k, per_site out = Some Nj_k ∧ Zsum Nj_k = 2) ∧
    (2 < 5 → ∃ Nk_j, per_site out = Some Nk_j ∧ Z.of_nat (length Nk_j) = 2 ∧ Zsum Nk_j = 5 ∧
       ∀ (j : nat) (a b : Z), (j < length Nk_j)%nat →
         0 <= a < Nk_j !!! j → 0 <= b < Nk_j !!! j →
         ∃ x y, Nk out !! site_index Nk_j j a = Some x ∧
                Nk out !! site_index Nk_j j b = Some y ∧ Z.abs (x - y) <= 1).
Proof.
  exact (distribute_groups_conserves 2 5 (NjArr (NdArray [2] [12; 3])) valid_input_example_split).
Defined.

Lemma distribute_groups_raises_iff_witness :
  (∀ e, distribute_groups (FL := Q_float) 5 1 (NjInt 10) = Raise e ↔
        argument_error 5 1 (NjInt 10) = Some e) ∧
  (is_value_error (distribute_groups (FL := Q_float) 5 1 (NjInt 10)) ↔
     ¬ shape_ok 5 (NjInt 10) ∨ Exists (fun n => n <= 0) (sizes_of 5 (NjInt 10)) ∨ 1 < 2 ∨
     Zsum (sizes_of 5 (NjInt 10)) < 1) ∧
  (argument_error 5 1 (NjInt 10) = None → is_ok (distribute_groups (FL := Q_float) 5 1 (NjInt 10))).
Proof. exact (distribute_groups_raises_iff 5 1 (NjInt 10) well_formed_example_int). Defined.

Lemma distribute_groups_int_is_constant_vector_witness :
  distribute_groups (FL := Q_float) 5 3 (NjInt 10) =
  distribute_groups (FL := Q_float) 5 3 (NjArr (NdArray [5] (replicate (Z.to_nat 5) 10))).
Proof.
  apply (distribute_groups_int_is_constant_vector 5 3 10); [lia|unfold int64; lia].
Defined.

(** * Proofs about the arrays *)

Section ArrayFacts.

Context {FL : Float64}.

Lemma is_matrix_row (r c : nat) (A : matrix) (i : nat) :
  is_matrix r c A → (i < r)%nat → length (A !!! i) = c.
Proof.
  intros [Hr Hc] Hi. apply (Forall_lookup_total_1 _ A i Hc). lia.
Qed.

Lemma is_matrix_ncols (r c : nat) (A : matrix) :
  is_matrix r c A → (0 < r)%nat → ncols A = c.
Proof. intros H Hr. unfold ncols. by apply (is_matrix_row r c). Qed.

Lemma tabulate_is_matrix (r c : nat) (f : nat → nat → float) : is_matrix r c (tabulate r c f).
Proof.
  unfold tabulate. split; [by rewrite length_fmap, length_seq|].
  apply Forall_fmap, Forall_forall. intros i _. simpl. by rewrite length_fmap, length_seq.
Qed.

Lemma entry_tabulate (r c : nat) (f : nat → nat → float) (i j : nat) :
  (i < r)%nat → (j < c)%nat → entry (tabulate r c f) i j = f i j.
Proof.
  intros Hi Hj. unfold entry, tabulate.
  rewrite (list_lookup_total_fmap (fun i => f i <$> seq 0 c) (seq 0 r) i) by (by rewrite length_seq).
  rewrite lookup_total_seq_lt by done. simpl.
  rewrite (list_lookup_total_fmap (f i) (seq 0 c) j) by (by rewrite length_seq).
  by rewrite lookup_total_seq_lt.
Qed.

Lemma matrix_ext (r c : nat) (A B : matrix) :
  is_matrix r c A → is_matrix r c B →
  (∀ i j, (i < r)%nat → (j < c)%nat → entry A i j = entry B i j) → A = B.
Proof.
  intros [HrA HcA] [HrB HcB] Hext.
  apply (list_eq_same_length _ _ r); [done..|]. intros i x y Hi Hx Hy.
  apply list_lookup_alt in Hx as [_ <-]. apply list_lookup_alt in Hy as [_ <-].
  assert (length (A !!! i) = c) as HlA by (apply (Forall_lookup_total_1 _ A i HcA); lia).
  assert (length (B !!! i) = c) as HlB by (apply (Forall_lookup_total_1 _ B i HcB); lia).
  apply (list_eq_same_length _ _ c); [done..|]. intros j a b Hj Ha Hb.
  apply list_lookup_alt in Ha as [_ <-]. apply list_lookup_alt in Hb as [_ <-].
  by apply Hext.
Qed.


Lemma map_matrix_is_matrix (r c : nat) (f : float → float) (A : matrix) :
  is_matrix r c A → is_matrix r c (map_matrix f A).
Proof.
  intros [Hr Hc]. unfold map_matrix. split; [by rewrite length_fmap|].
  apply Forall_fmap. eapply Forall_impl; [exact Hc|]. intros row Hrow. simpl.
  by rewrite length_fmap.
Qed.

Lemma entry_map_matrix (r c : nat) (f : float → float) (A : matrix) (i j : nat) :
  is_matrix r c A → (i < r)%nat → (j < c)%nat →
  entry (map_matrix f A) i j = f (entry A i j).
Proof.
  intros HA Hi Hj. unfold entry, map_matrix. destruct HA as [Hr Hc].
  rewrite (list_lookup_total_fmap (fun row : vector => f <$> row) A i) by lia.
  rewrite (list_lookup_total_fmap f (A !!! i) j); [done|].
  rewrite (is_matrix_row r c); [done|by split|done].
Qed.

Lemma zip_matrix_is_matrix (r c : nat) (f : float → float → float) (A B : matrix) :
  is_matrix r c A → is_matrix r c B → is_matrix r c (zip_matrix f A B).
Proof.
  intros HA HB. pose proof HA as [HrA HcA]. pose proof HB as [HrB HcB].
  unfold zip_matrix. split; [rewrite length_zip_with; lia|].
  apply Forall_lookup_2. intros i row Hrow.
  apply lookup_zip_with_Some in Hrow as (a & b & -> & Ha & Hb).
  rewrite length_zip_with.
  rewrite (Forall_lookup_1 _ _ _ _ HcA Ha), (Forall_lookup_1 _ _ _ _ HcB Hb). lia.
Qed.

Lemma entry_zip_matrix (r c : nat) (f : float → float → float) (A B : matrix) (i j : nat) :
  is_matrix r c A → is_matrix r c B → (i < r)%nat → (j < c)%nat →
  entry (zip_matrix f A B) i j = f (entry A i j) (entry B i j).
Proof.
  intros HA HB Hi Hj. unfold entry, zip_matrix.
  pose proof HA as [HrA _]. pose proof HB as [HrB _].
  rewrite (lookup_total_zip_with (zip_with f) A B i) by lia.
  rewrite (lookup_total_zip_with f (A !!! i) (B !!! i) j); [done|..];
    rewrite (is_matrix_row r c); done.
Qed.

Lemma imap2_is_matrix (r c : nat) (g : nat → nat → float → float) (A : matrix) :
  is_matrix r c A → is_matrix r c (imap (fun i row => imap (g i) row) A).
Proof.
  intros [Hr Hc]. split; [by rewrite length_imap|].
  apply Forall_lookup_2. intros i row Hrow.
  apply list_lookup_imap_Some in Hrow as (row' & Hrow' & ->).
  rewrite length_imap. by apply (Forall_lookup_1 _ _ _ _ Hc Hrow').
Qed.

Lemma entry_imap2 (r c : nat) (g : nat → nat → float → float) (A : matrix) (i j : nat) :
  is_matrix r c A → (i < r)%nat → (j < c)%nat →
  entry (imap (fun i row => imap (g i) row) A) i j = g i j (entry A i j).
Proof.
  intros HA Hi Hj. unfold entry. pose proof HA as [Hr _].
  rewrite (list_lookup_total_imap (fun i row => imap (g i) row) A i) by lia.
  rewrite (list_lookup_total_imap (g i) (A !!! i) j); [done|].
  by rewrite (is_matrix_row r c).
Qed.

Lemma scale_is_matrix (r c : nat) (A : matrix) (x : float) :
  is_matrix r c A → is_matrix r c (scale A x).
Proof. apply map_matrix_is_matrix. Qed.

Lemma copy_triu_to_tril_is_matrix (r c : nat) (A : matrix) :
  is_matrix r c A → is_matrix r c (copy_triu_to_tril A).
Proof. apply imap2_is_matrix. Qed.


Lemma add_at_stride_is_matrix (r c : nat) (A : matrix) (step : nat) (x : float) :
  is_matrix r c A → is_matrix r c (add_at_stride A step x).
Proof. apply imap2_is_matrix. Qed.

(** On a square array [A.flat[::d+1]] is the diagonal. *)
Lemma entry_add_at_diagonal (d : nat) (A : matrix) (x : float) (i j : nat) :
  is_matrix d d A → (i < d)%nat → (j < d)%nat →
  entry (add_at_stride A (ncols A + 1) x) i j =
    if decide (i = j) then fadd (entry A i j) x else entry A i j.
Proof.
  intros HA Hi Hj. unfold add_at_stride. rewrite (entry_imap2 d d) by done.
  rewrite (is_matrix_ncols d d) by (done || lia).
  destruct (decide (i = j)) as [->|Hne].
  - replace (j * d + j)%nat with (j * (d + 1))%nat by lia.
    by rewrite Nat.Div0.mod_mul.
  - destruct (Nat.eqb_spec ((i * d + j) mod (d + 1)) 0) as [Hz|]; [|done].
    exfalso. apply Nat.Div0.mod_divides in Hz as [q Hq].
    destruct (Nat.lt_trichotomy q i) as [Hlt|[->|Hgt]]; [nia|lia|nia].
Qed.

End ArrayFacts.

Section Symmetry.

Context {FL : Float64} {LP : Lapack}.

Lemma is_matrix_lengths (r c : nat) (A : matrix) :
  is_matrix r c A → length <$> A = replicate r c.
Proof.
  intros [Hr Hc]. subst r. induction A as [|row A IH]; [done|].
  inversion Hc; subst. cbn [length replicate fmap list_fmap]. f_equal. by apply IH.
Qed.

Lemma elementwise_ok (r c : nat) (f : float → float → float) (A B : matrix) :
  is_matrix r c A → is_matrix r c B → elementwise f A B = Ok (zip_matrix f A B).
Proof.
  intros HA HB. unfold elementwise.
  by rewrite bool_decide_eq_true_2
    by (by rewrite (is_matrix_lengths r c A), (is_matrix_lengths r c B)).
Qed.

(** When the factorisation and the inversion succeed, [invert_normal_params]
    returns the mirrored inverse, and the solution of [cho_solve] beside it
    when a vector is given. *)
Lemma invert_normal_params_ok (d : nat) (A U : matrix) :
  is_matrix d d A → cho_factor A = Ok U → (potri U).2 = 0 →
  invert_normal_params A None false = Ok (copy_triu_to_tril (potri U).1, None) ∧
  is_matrix d d (copy_triu_to_tril (potri U).1).
Proof.
  intros HA HU Hinfo. unfold invert_normal_params. cbn [negb]. rewrite HU.
  cbn [mbind result_bind]. destruct (potri U) as [C info] eqn:HC. simpl in Hinfo. subst info.
  cbn [negb Z.eqb]. split; [done|].
  apply copy_triu_to_tril_is_matrix.
  pose proof (potri_shape U d d (cho_factor_shape A U d d HU HA)) as HCs. by rewrite HC in HCs.
Qed.

Lemma invert_normal_params_ok_vector (A U : matrix) (b x : vector) :
  cho_factor A = Ok U → (potri U).2 = 0 → cho_solve U b = Ok x →
  invert_normal_params A (Some b) false = Ok (copy_triu_to_tril (potri U).1, Some x).
Proof.
  intros HU Hinfo Hx. unfold invert_normal_params. cbn [negb]. rewrite HU.
  cbn [mbind result_bind]. rewrite Hx. cbn [mbind result_bind].
  destruct (potri U) as [C info] eqn:HC. simpl in Hinfo. subst info. done.
Qed.



End Symmetry.

(** ** Exact arithmetic: the contract of the LAPACK routines *)

(** ** Finite sums of reals *)

Section RealSums.

Local Open Scope R_scope.

Lemma Rsum_ext (d : nat) (f g : nat → R) :
  (∀ i, (i < d)%nat → f i = g i) → Rsum d f = Rsum d g.
Proof.
  induction d as [|d IH]; intros H; simpl; [done|].
  rewrite IH by (intros; apply H; lia). rewrite H by lia. done.
Qed.

Lemma Rsum_0 (d : nat) : Rsum d (fun _ => 0) = 0.
Proof. induction d as [|d IH]; simpl; [done|]. rewrite IH. lra. Qed.

Lemma Rsum_plus (d : nat) (f g : nat → R) :
  Rsum d (fun i => f i + g i) = Rsum d f + Rsum d g.
Proof. induction d as [|d IH]; simpl; [lra|]. rewrite IH. lra. Qed.

Lemma Rsum_mult_l (d : nat) (c : R) (f : nat → R) :
  Rsum d (fun i => c * f i) = c * Rsum d f.
Proof. induction d as [|d IH]; simpl; [lra|]. rewrite IH. lra. Qed.

Lemma Rsum_mult_r (d : nat) (c : R) (f : nat → R) :
  Rsum d (fun i => f i * c) = Rsum d f * c.
Proof. induction d as [|d IH]; simpl; [lra|]. rewrite IH. lra. Qed.

Lemma Rsum_exchange (d e : nat) (f : nat → nat → R) :
  Rsum d (fun i => Rsum e (fun j => f i j)) = Rsum e (fun j => Rsum d (fun i => f i j)).
Proof.
  induction d as [|d IH]; simpl.
  - by rewrite Rsum_0.
  - rewrite IH. by rewrite <- Rsum_plus.
Qed.

Lemma Rsum_delta_l (d : nat) (i : nat) (f : nat → R) :
  (i < d)%nat → Rsum d (fun k => delta i k * f k) = f i.
Proof.
  induction d as [|d IH]; intros Hi; [lia|]. simpl.
  destruct (decide (i = d)) as [->|Hne].
  - rewrite (Rsum_ext d _ (fun _ => 0)).
    + rewrite Rsum_0. unfold delta. rewrite decide_True by done. lra.
    + intros k Hk. unfold delta. rewrite decide_False by lia. lra.
  - rewrite IH by lia. unfold delta. rewrite decide_False by done. lra.
Qed.

Lemma Rsum_delta_r (d : nat) (i : nat) (f : nat → R) :
  (i < d)%nat → Rsum d (fun k => f k * delta k i) = f i.
Proof.
  intros Hi. rewrite <- (Rsum_delta_l d i f Hi). apply Rsum_ext. intros k _.
  unfold delta. destruct (decide (k = i)), (decide (i = k)); try congruence; lra.
Qed.

(** [(A B) C = A (B C)], cell by cell. *)
Lemma Rsum_assoc (d : nat) (a b c : nat → nat → R) (i j : nat) :
  Rsum d (fun k => Rsum d (fun l => a i l * b l k) * c k j) =
  Rsum d (fun l => a i l * Rsum d (fun k => b l k * c k j)).
Proof.
  rewrite (Rsum_ext d _ (fun k => Rsum d (fun l => a i l * b l k * c k j)))
    by (intros; by rewrite Rsum_mult_r).
  rewrite Rsum_exchange. apply Rsum_ext. intros l _.
  rewrite <- Rsum_mult_l. apply Rsum_ext. intros k _. lra.
Qed.

(** [(A B) x = A (B x)], cell by cell. *)
Lemma Rsum_assoc_vec (d : nat) (a b : nat → nat → R) (x : nat → R) (i : nat) :
  Rsum d (fun k => Rsum d (fun l => a i l * b l k) * x k) =
  Rsum d (fun l => a i l * Rsum d (fun k => b l k * x k)).
Proof. apply (Rsum_assoc d a b (fun k _ => x k) i 0%nat). Qed.

Lemma spd_entries_ext (d : nat) (a b : nat → nat → R) :
  (∀ i j, (i < d)%nat → (j < d)%nat → a i j = b i j) → spd_entries d a → spd_entries d b.
Proof.
  intros Hab [Hsym Hpos]. split.
  - intros i j Hi Hj. rewrite <- !Hab by done. by apply Hsym.
  - intros x Hx. specialize (Hpos x Hx).
    erewrite Rsum_ext; [exact Hpos|]. intros i Hi. simpl. f_equal.
    apply Rsum_ext. intros j Hj. simpl. by rewrite Hab.
Qed.

(** The inverse of a symmetric positive definite matrix is one. *)
Lemma spd_entries_inverse (d : nat) (s x : nat → nat → R) :
  spd_entries d s →
  (∀ i j, (i < d)%nat → (j < d)%nat → x i j = x j i) →
  (∀ i j, (i < d)%nat → (j < d)%nat → Rsum d (fun k => x i k * s k j) = delta i j) →
  spd_entries d x.
Proof.
  intros [Hsym Hpos] Hxsym Hinv. split; [done|]. intros v (i0 & Hi0 & Hv).
  set (y := fun i => Rsum d (fun j => x i j * v j)).
  (* s y = v *)
  assert (∀ i, (i < d)%nat → Rsum d (fun k => s i k * y k) = v i) as Hsy.
  { intros i Hi. unfold y.
    rewrite <- (Rsum_assoc_vec d s x v i).
    rewrite (Rsum_ext d _ (fun k => delta i k * v k)); [by apply Rsum_delta_l|].
    intros k Hk. simpl. f_equal.
    transitivity (Rsum d (fun l => x k l * s l i)).
    { apply Rsum_ext. intros l Hl. simpl. rewrite (Hsym i l Hi Hl), (Hxsym l k Hl Hk). lra. }
    rewrite (Hinv k i Hk Hi). unfold delta.
    destruct (decide (k = i)), (decide (i = k)); congruence. }
  assert (∃ i, (i < d)%nat ∧ y i ≠ 0) as Hy.
  { destruct (Classical_Prop.classic (∃ i, (i < d)%nat ∧ y i ≠ 0)) as [|Hno]; [done|].
    exfalso. apply Hv. rewrite <- (Hsy i0 Hi0).
    rewrite (Rsum_ext d _ (fun _ => 0)); [apply Rsum_0|].
    intros k Hk. simpl.
    destruct (Req_dec_T (y k) 0) as [->|Hne]; [lra|].
    destruct Hno. by exists k. }
  specialize (Hpos y Hy).
  erewrite Rsum_ext; [exact Hpos|]. intros i Hi. simpl.
  fold (y i). rewrite <- (Hsy i Hi). lra.
Qed.

End RealSums.

Section RoundTrip.

Context {LP : Lapack (FL := R_float)}.

Local Open Scope R_scope.

(** In exact arithmetic [invert_normal_params] returns the inverse matrix and
    the solution of the linear system. *)
Lemma invert_normal_params_exact (d : nat) (S : list (list R)) (m : list R) :
  lapack_exact d LP → spd d S → length m = d →
  ∃ Q r, invert_normal_params (FL := R_float) S (Some m) false = Ok (Q, Some r) ∧
    is_matrix (FL := R_float) d d Q ∧ length r = d ∧
    (∀ i j, (i < d)%nat → (j < d)%nat →
       entry (FL := R_float) Q i j = entry (FL := R_float) Q j i) ∧
    (∀ i j, (i < d)%nat → (j < d)%nat →
       Rsum d (fun k => entry (FL := R_float) Q i k * entry (FL := R_float) S k j) = delta i j) ∧
    (∀ i, (i < d)%nat → Rsum d (fun j => entry (FL := R_float) S i j * vget r j) = vget m i).
Proof.
  intros HL [HS Hspd] Hm.
  destruct (cho_factor_exact d LP HL S (conj HS Hspd)) as (U & HU & Hgram).
  pose proof (cho_factor_shape (FL := R_float) S U d d HU HS) as HUs.
  assert (spd_entries d (gram d U)) as HG.
  { apply (spd_entries_ext d (entry (FL := R_float) S)); [|done].
    intros i j Hi Hj. symmetry. by apply Hgram. }
  destruct (potri_exact d LP HL U HUs HG) as (Hinfo & X & HXsym & HXinv & HXtri).
  destruct (invert_normal_params_ok (FL := R_float) d S U HS HU Hinfo) as [_ HQ].
  destruct (cho_solve_exact d LP HL U m HUs HG Hm) as (r & Hr & Hsol).
  exists (copy_triu_to_tril (FL := R_float) (potri (FL := R_float) U).1), r.
  split; [by apply (invert_normal_params_ok_vector (FL := R_float))|]. split; [exact HQ|].
  split; [by rewrite (cho_solve_length (FL := R_float) U m r Hr)|].
  assert (∀ i j, (i < d)%nat → (j < d)%nat →
            entry (FL := R_float) (copy_triu_to_tril (FL := R_float) (potri (FL := R_float) U).1) i j = X i j)
    as HQX.
  { intros i j Hi Hj. unfold copy_triu_to_tril.
    rewrite (entry_imap2 (FL := R_float) d d) by (done || by apply (potri_shape (FL := R_float))).
    destruct (Nat.ltb_spec j i).
    - rewrite HXtri by lia. by apply HXsym.
    - apply HXtri; lia. }
  split; [|split].
  - intros i j Hi Hj. rewrite !HQX by done. by apply HXsym.
  - intros i j Hi Hj. rewrite <- (HXinv i j Hi Hj). apply Rsum_ext. intros k Hk. simpl.
    rewrite HQX, Hgram by done. done.
  - intros i Hi. rewrite <- (Hsol i Hi).
    apply Rsum_ext. intros j Hj. simpl. by rewrite Hgram.
Qed.

(** C1: in exact arithmetic, with LAPACK routines that meet their contract,
    converting a symmetric positive definite [S] and a vector [m], and
    converting the result again, gives [S] and [m] back. *)
Theorem invert_normal_params_involutive (d : nat) (S : list (list R)) (m : list R) :
  lapack_exact d LP → spd d S → length m = d →
  ∃ Q r, invert_normal_params (FL := R_float) S (Some m) false = Ok (Q, Some r) ∧
         invert_normal_params (FL := R_float) Q (Some r) false = Ok (S, Some m).
Proof.
  intros HL HS Hm.
  destruct (invert_normal_params_exact d S m HL HS Hm)
    as (Q & r & Hres & HQ & Hr & HQsym & HQS & HSr).
  exists Q, r. split; [exact Hres|].
  destruct HS as [HSm [HSsym HSpos]].
  assert (spd d Q) as HQspd.
  { split; [done|]. by apply (spd_entries_inverse d (entry (FL := R_float) S)). }
  destruct (invert_normal_params_exact d Q r HL HQspd Hr)
    as (S' & m' & Hres' & HS' & Hm' & _ & HS'Q & HQm').
  etransitivity; [exact Hres'|]. f_equal.
  (* S Q = 1 as well *)
  assert (∀ i j, (i < d)%nat → (j < d)%nat →
            Rsum d (fun k => entry (FL := R_float) S i k * entry (FL := R_float) Q k j) = delta i j)
    as HSQ.
  { intros i j Hi Hj.
    transitivity (Rsum d (fun k => entry (FL := R_float) Q j k * entry (FL := R_float) S k i)).
    { apply Rsum_ext. intros k Hk. simpl. rewrite (HSsym i k Hi Hk), (HQsym k j Hk Hj). lra. }
    rewrite HQS by done. unfold delta. destruct (decide (j = i)), (decide (i = j)); congruence. }
  f_equal.
  - apply (matrix_ext (FL := R_float) d d); [done..|]. intros i j Hi Hj.
    pose proof (Rsum_assoc d (entry (FL := R_float) S') (entry (FL := R_float) Q)
                  (entry (FL := R_float) S) i j) as Hassoc.
    rewrite (Rsum_ext d _ (fun k => delta i k * entry (FL := R_float) S k j)) in Hassoc
      by (intros k Hk; simpl; by rewrite HS'Q).
    rewrite Rsum_delta_l in Hassoc by done.
    rewrite (Rsum_ext d (fun l => entry (FL := R_float) S' i l * _)
               (fun l => entry (FL := R_float) S' i l * delta l j)) in Hassoc
      by (intros l Hl; simpl; by rewrite HQS).
    rewrite Rsum_delta_r in Hassoc by done. by symmetry.
  - f_equal. apply (list_eq_same_length _ _ d); [done..|]. intros i x y Hi Hx Hy.
    apply list_lookup_alt in Hx as [_ <-]. apply list_lookup_alt in Hy as [_ <-].
    pose proof (Rsum_assoc_vec d (entry (FL := R_float) S) (entry (FL := R_float) Q)
                  (vget m') i) as Hassoc.
    rewrite (Rsum_ext d _ (fun k => delta i k * vget m' k)) in Hassoc
      by (intros k Hk; simpl; by rewrite HSQ).
    rewrite Rsum_delta_l in Hassoc by done.
    rewrite (Rsum_ext d (fun l => entry (FL := R_float) S i l * _)
               (fun l => entry (FL := R_float) S i l * vget r l)) in Hassoc
      by (intros l Hl; simpl; by rewrite HQm').
    rewrite HSr in Hassoc by done. exact Hassoc.
Qed.

End RoundTrip.

(** ** The 1-by-1 routines meet the contract *)

Lemma is_matrix_1_1 (A : list (list R)) :
  is_matrix (FL := R_float) 1 1 A → ∃ a, A = [[a]].
Proof.
  intros [Hr Hc]. destruct A as [|row [|]]; try done.
  inversion Hc as [|? ? Hrow _]; subst. destruct row as [|a [|]]; try done. by exists a.
Qed.

Lemma spd_1_positive (U : list (list R)) (u : R) :
  U = [[u]] → spd_entries 1 (gram 1 U) → (u * u > 0)%R.
Proof.
  intros -> [_ Hpos]. specialize (Hpos (fun _ => 1%R)).
  assert (∃ i, (i < 1)%nat ∧ 1%R ≠ 0%R) as Hx by (exists 0%nat; split; [lia|lra]).
  specialize (Hpos Hx). unfold gram, triu, entry in Hpos. simpl in Hpos. lra.
Qed.

Lemma Lapack_1_exact : lapack_exact 1 Lapack_1.
Proof.
  split.
  - intros A [HA [_ Hpos]]. destruct (is_matrix_1_1 A HA) as [a ->].
    assert (0 < a)%R as Ha.
    { specialize (Hpos (fun _ => 1%R)).
      assert (∃ i, (i < 1)%nat ∧ 1%R ≠ 0%R) as Hx by (exists 0%nat; split; [lia|lra]).
      specialize (Hpos Hx). unfold entry in Hpos. simpl in Hpos. lra. }
    exists [[sqrt a]]. split.
    + simpl. unfold cho_factor_1. by rewrite decide_True.
    + intros i j Hi Hj. assert (i = 0%nat) as -> by lia. assert (j = 0%nat) as -> by lia.
      unfold gram, triu, entry. simpl. rewrite Rplus_0_l. apply sqrt_sqrt. lra.
  - intros U b HU HG Hb. destruct (is_matrix_1_1 U HU) as [u ->].
    pose proof (spd_1_positive _ u eq_refl HG) as Hu.
    destruct b as [|x [|]]; try done. eexists. split; [done|].
    intros i Hi. assert (i = 0%nat) as -> by lia.
    unfold gram, triu, entry, vget. simpl. field. intros ->. lra.
  - intros U HU HG. destruct (is_matrix_1_1 U HU) as [u ->].
    pose proof (spd_1_positive _ u eq_refl HG) as Hu.
    assert (u ≠ 0%R) as Hne by (intros ->; lra).
    simpl. unfold potri_1. rewrite decide_False by done. split; [done|].
    exists (fun _ _ => (1 / (u * u))%R). split; [done|]. split.
    + intros i j Hi Hj. assert (i = 0%nat) as -> by lia. assert (j = 0%nat) as -> by lia.
      unfold gram, triu, entry, delta. simpl. field. done.
    + intros i j Hi Hj. assert (i = 0%nat) as -> by lia. assert (j = 0%nat) as -> by lia.
      done.
Qed.

Lemma spd_example : spd 1 [[4%R]].
Proof.
  split; [split; [done|by repeat constructor]|]. split.
  - intros i j Hi Hj. assert (i = 0%nat) as -> by lia. by assert (j = 0%nat) as -> by lia.
  - intros x (i & Hi & Hx). assert (i = 0%nat) as -> by lia.
    unfold entry. simpl. assert (0 < x 0%nat * x 0%nat)%R; [|lra].
    destruct (Rtotal_order (x 0%nat) 0) as [?|[?|?]]; [nra|done|nra].
Qed.

Lemma invert_normal_params_involutive_witness :
  ∃ Q r, invert_normal_params (FL := R_float) (LP := Lapack_1) [[4%R]] (Some [2%R]) false
           = Ok (Q, Some r) ∧
         invert_normal_params (FL := R_float) (LP := Lapack_1) Q (Some r) false
           = Ok ([[4%R]], Some [2%R]).
Proof.
  exact (invert_normal_params_involutive (LP := Lapack_1) 1 [[4%R]] [2%R]
           Lapack_1_exact spd_example eq_refl).
Defined.

(** ** The 2-by-2 routines meet the contract *)

Lemma Rsum_2 (f : nat → R) : Rsum 2 f = (f 0%nat + f 1%nat)%R.
Proof. simpl. lra. Qed.

Lemma index_2 (i : nat) : (i < 2)%nat → i = 0%nat ∨ i = 1%nat.
Proof. lia. Qed.

Lemma gram_2_entries (p q c r : R) :
  gram 2 [[p; q]; [c; r]] 0 0 = (p * p)%R ∧ gram 2 [[p; q]; [c; r]] 0 1 = (p * q)%R ∧
  gram 2 [[p; q]; [c; r]] 1 0 = (q * p)%R ∧ gram 2 [[p; q]; [c; r]] 1 1 = (q * q + r * r)%R.
Proof. unfold gram. rewrite !Rsum_2. unfold triu, entry. simpl. repeat split; lra. Qed.

(** A positive definite Gram matrix has a factor with no zero on the diagonal. *)
Lemma spd_gram_2_diagonal (p q c r : R) :
  spd_entries 2 (gram 2 [[p; q]; [c; r]]) → p ≠ 0%R ∧ r ≠ 0%R.
Proof.
  intros [_ Hpos]. destruct (gram_2_entries p q c r) as (G00 & G01 & G10 & G11).
  split.
  - intros ->. specialize (Hpos (fun i => if decide (i = 0%nat) then 1%R else 0%R)).
    rewrite !Rsum_2, G00, G01, G10, G11 in Hpos. simpl in Hpos.
    assert (∃ i, (i < 2)%nat ∧ (if decide (i = 0%nat) then 1%R else 0%R) ≠ 0%R) as Hx
      by (exists 0%nat; split; [lia|simpl; lra]).
    specialize (Hpos Hx). lra.
  - intros ->. destruct (Req_dec_T p 0) as [->|Hp].
    + specialize (Hpos (fun i => if decide (i = 0%nat) then 1%R else 0%R)).
      rewrite !Rsum_2, G00, G01, G10, G11 in Hpos. simpl in Hpos.
      assert (∃ i, (i < 2)%nat ∧ (if decide (i = 0%nat) then 1%R else 0%R) ≠ 0%R) as Hx
        by (exists 0%nat; split; [lia|simpl; lra]).
      specialize (Hpos Hx). lra.
    + specialize (Hpos (fun i => if decide (i = 0%nat) then (- q)%R else p)).
      rewrite !Rsum_2, G00, G01, G10, G11 in Hpos. simpl in Hpos.
      assert (∃ i, (i < 2)%nat ∧ (if decide (i = 0%nat) then (- q)%R else p) ≠ 0%R) as Hx
        by (exists 1%nat; split; [lia|simpl; done]).
      specialize (Hpos Hx). nra.
Qed.

Lemma Lapack_2_exact : lapack_exact 2 Lapack_2.
Proof.
  split.
  - intros A [HA [Hsym Hpos]]. destruct (is_matrix_2_2 A HA) as (a & b & c & e & ->).
    assert (c = b) as -> by (symmetry; apply (Hsym 0%nat 1%nat); lia).
    assert (0 < a)%R as Ha.
    { specialize (Hpos (fun i => if decide (i = 0%nat) then 1%R else 0%R)).
      rewrite !Rsum_2 in Hpos. unfold entry in Hpos. simpl in Hpos.
      assert (∃ i, (i < 2)%nat ∧ (if decide (i = 0%nat) then 1%R else 0%R) ≠ 0%R) as Hx
        by (exists 0%nat; split; [lia|simpl; lra]).
      specialize (Hpos Hx). lra. }
    assert (0 < e - b * b / a)%R as He.
    { specialize (Hpos (fun i => if decide (i = 0%nat) then (- b)%R else a)).
      rewrite !Rsum_2 in Hpos. unfold entry in Hpos. simpl in Hpos.
      assert (∃ i, (i < 2)%nat ∧ (if decide (i = 0%nat) then (- b)%R else a) ≠ 0%R) as Hx
        by (exists 1%nat; split; [lia|simpl; lra]).
      specialize (Hpos Hx).
      assert (0 < a * (e - b * b / a))%R as H; [|nra].
      replace (a * (e - b * b / a))%R with (a * e - b * b)%R by (field; lra). nra. }
    eexists. split.
    + cbn [cho_factor Lapack_2]. unfold cho_factor_2. by rewrite !decide_True by done.
    + pose proof (sqrt_lt_R0 a Ha) as Hsa.
      pose proof (sqrt_sqrt a ltac:(lra)) as Hsq.
      pose proof (sqrt_sqrt (e - b * b / a) ltac:(lra)) as Hsq2.
      destruct (gram_2_entries (sqrt a) (b / sqrt a) b (sqrt (e - b * b / a)))
        as (G00 & G01 & G10 & G11).
      assert (b / sqrt a * (b / sqrt a) = b * b / a)%R as Hq.
      { rewrite <- Hsq at 3. field. lra. }
      intros i j [->| ->]%index_2 [->| ->]%index_2; unfold entry; simpl;
        rewrite ?G00, ?G01, ?G10, ?G11, ?Hq, ?Hsq2; try lra; try (field; lra).
  - intros U b HU HG Hb. destruct (is_matrix_2_2 U HU) as (p & q & c & r & ->).
    destruct (spd_gram_2_diagonal p q c r HG) as [Hp Hr].
    destruct b as [|x [|y [|]]]; try done.
    eexists. split; [done|].
    destruct (gram_2_entries p q c r) as (G00 & G01 & G10 & G11).
    intros i [->| ->]%index_2; rewrite Rsum_2, ?G00, ?G01, ?G10, ?G11; unfold vget; simpl;
      field; done.
  - intros U HU HG. destruct (is_matrix_2_2 U HU) as (p & q & c & r & ->).
    destruct (spd_gram_2_diagonal p q c r HG) as [Hp Hr].
    cbn [potri Lapack_2]. unfold potri_2. rewrite !decide_False by done.
    split; [done|].
    exists (fun i j =>
              match i, j with
              | O, O => (inverse_2 p q r).1.1
              | 1%nat, 1%nat => (inverse_2 p q r).2
              | _, _ => (inverse_2 p q r).1.2
              end).
    destruct (gram_2_entries p q c r) as (G00 & G01 & G10 & G11).
    split; [|split].
    + by intros i j [->| ->]%index_2 [->| ->]%index_2.
    + intros i j [->| ->]%index_2 [->| ->]%index_2;
        rewrite Rsum_2, ?G00, ?G01, ?G10, ?G11; unfold delta; simpl; field; done.
    + intros i j Hij [->| ->]%index_2; destruct i as [|[|i]]; try lia; done.
Qed.

(** ** A 2-by-2 example *)

Lemma sqrt_4 : sqrt 4 = 2%R.
Proof. replace 4%R with (2 * 2)%R by lra. apply sqrt_square. lra. Qed.

(** A covariance matrix with correlated components, and its factor. *)
Definition S_example : list (list R) := [[4%R; 2%R]; [2%R; 5%R]].
Definition Q_example : list (list R) := [[(5 / 16)%R; (- 1 / 8)%R]; [(- 1 / 8)%R; (1 / 4)%R]].
Definition P_example : list (list R) := [[2%R; 1%R]; [1%R; 3%R]].

Lemma cho_factor_example :
  cho_factor (FL := R_float) (Lapack := Lapack_2) S_example = Ok [[2%R; 1%R]; [2%R; 2%R]].
Proof.
  cbn [cho_factor Lapack_2]. unfold S_example, cho_factor_2.
  rewrite !decide_True by lra.
  replace (5 - 2 * 2 / 4)%R with 4%R by lra. rewrite sqrt_4.
  by replace (2 / 2)%R with 1%R by lra.
Qed.

Lemma potri_example :
  potri (FL := R_float) (Lapack := Lapack_2) [[2%R; 1%R]; [2%R; 2%R]]
  = ([[(5 / 16)%R; (- 1 / 8)%R]; [2%R; (1 / 4)%R]], 0).
Proof.
  cbn [potri Lapack_2]. unfold potri_2, inverse_2. rewrite !decide_False by lra.
  repeat f_equal; lra.
Qed.

Lemma invert_normal_params_example :
  invert_normal_params (FL := R_float) (LP := Lapack_2) S_example None false
  = Ok (Q_example, None).
Proof.
  unfold invert_normal_params. cbn [negb]. rewrite cho_factor_example.
  cbn [mbind result_bind]. rewrite potri_example. done.
Qed.

Lemma S_example_is_matrix : is_matrix (FL := R_float) 2 2 S_example.
Proof. apply is_matrix_2_2_intro. Qed.


(** On the example [olse] divides by no zero, with the naive prior and with
    the prior [P_example]. *)
Lemma olse_example_denominators :
  naive_denominator (FL := R_float) Q_example = (17 / 512)%R ∧
  prior_denominator (FL := R_float) Q_example P_example = (411 / 256)%R.
Proof.
  unfold naive_denominator, prior_denominator, np_trace, np_diag, fro_norm_squared, transpose,
    tabulate, zip_matrix, entry, nrows, ncols.
  cbn. change (Z.of_nat 2) with 2. split; lra.
Qed.


(** ** [olse] in exact arithmetic *)

Section OlseExact.

Context {LP : Lapack (FL := R_float)}.

Local Open Scope R_scope.

Lemma fsum_app (l k : list R) :
  fsum (Float64 := R_float) (l ++ k) = fsum (Float64 := R_float) l + fsum (Float64 := R_float) k.
Proof. induction l as [|x l IH]; simpl in *; [lra|]. rewrite IH. lra. Qed.

Lemma fsum_seq (f : nat → R) (d : nat) :
  fsum (Float64 := R_float) (f <$> seq 0 d) = Rsum d f.
Proof.
  induction d as [|d IH]; [done|].
  rewrite seq_S, fmap_app, fsum_app, IH. simpl. lra.
Qed.

Lemma vector_as_seq (c : nat) (v : list R) :
  length v = c → v = (fun j => vget v j) <$> seq 0 c.
Proof.
  intros Hc. apply (list_eq_same_length _ _ c); [by rewrite length_fmap, length_seq|done|].
  intros j x y Hj Hx Hy.
  apply (list_lookup_alt (Inhabited0 := float_inhabited (FL := R_float))) in Hx as [_ <-].
  rewrite list_lookup_fmap, lookup_seq_lt in Hy by done. simpl in Hy. by injection Hy as <-.
Qed.

Lemma fsum_concat (r c : nat) (A : list (list R)) :
  is_matrix (FL := R_float) r c A →
  fsum (Float64 := R_float) (concat A) = Rsum r (fun i => Rsum c (fun j => entry (FL := R_float) A i j)).
Proof.
  revert r. induction A as [|row A IH] using rev_ind; intros r [Hr Hc].
  - simpl in Hr. subst r. done.
  - rewrite length_app in Hr. simpl in Hr. destruct r as [|r]; [lia|].
    apply Forall_app in Hc as [HcA Hrow]. inversion Hrow as [|? ? Hlen _]; subst.
    rewrite concat_app, fsum_app. simpl concat. rewrite app_nil_r.
    rewrite (IH r) by (split; [rlia|done]). cbn [Rsum]. f_equal.
    + apply Rsum_ext. intros i Hi. apply Rsum_ext. intros j Hj. unfold entry.
      by rewrite lookup_total_app_l by rlia.
    + rewrite (vector_as_seq (length row) row eq_refl) at 1. rewrite fsum_seq.
      apply Rsum_ext. intros j Hj. unfold entry, vget.
      rewrite (list_lookup_total_middle A [] row r) by rlia. done.
Qed.

Lemma Rsum_const (d : nat) (c : R) : Rsum d (fun _ => c) = INR d * c.
Proof.
  induction d as [|d IH]; [simpl; lra|]. cbn [Rsum]. rewrite IH, S_INR. lra.
Qed.




Lemma invert_normal_params_shape {FL : Float64} {L : Lapack} (r c : nat) (A Q : matrix)
    (b o : option vector) (cho_form : bool) :
  is_matrix r c A → invert_normal_params A b cho_form = Ok (Q, o) → is_matrix r c Q.
Proof.
  intros HA. unfold invert_normal_params.
  destruct (if negb cho_form then cho_factor A else Ok A) as [U|e] eqn:HU; [|done].
  cbn [mbind result_bind].
  assert (is_matrix r c U) as HUs.
  { destruct cho_form; simpl in HU; [by injection HU as <-|by apply (cho_factor_shape A)]. }
  destruct (match b with Some b0 => _ | None => _ end) as [ob|e]; [|done].
  cbn [mbind result_bind].
  pose proof (potri_shape U r c HUs) as HC. destruct (potri U) as [C info].
  destruct (negb (info =? 0)%Z); [done|]. intros [= <- _].
  by apply copy_triu_to_tril_is_matrix.
Qed.

Lemma fmap_concat_matrix {FL : Float64} (f : float → float) (A : matrix) :
  f <$> concat A = concat (map_matrix f A).
Proof.
  unfold map_matrix. induction A as [|row A IH]; [done|].
  cbn [concat fmap list_fmap]. by rewrite fmap_app, IH.
Qed.




End OlseExact.


(** * [cv_moments]: the balance check and the arrays of the caller *)

Section CvMoments.

Context {FL : Float64} {LP : Lapack}.

Lemma col_means_sample_mean (samp : matrix) : col_means samp = sample_mean samp.
Proof.
  unfold col_means, col_sums, sample_mean, column, nrows.
  rewrite <- list_fmap_compose. done.
Qed.

Lemma column_as_seq (A : matrix) (j : nat) :
  column A j = (fun k => entry A k j) <$> seq 0 (length A).
Proof.
  unfold column, entry.
  apply (list_eq_same_length _ _ (length A)); [by rewrite length_fmap, length_seq|by rewrite length_fmap|].
  intros k x y Hk Hx Hy.
  rewrite list_lookup_fmap in Hx. rewrite list_lookup_fmap, lookup_seq_lt in Hy by done.
  simpl in Hy. injection Hy as <-.
  rewrite (list_lookup_lookup_total_lt A k Hk) in Hx. simpl in Hx. by injection Hx as <-.
Qed.

Lemma zip_with_fmap_same {A : Type} (f g : A → float) (h : float → float → float) (l : list A) :
  zip_with h (f <$> l) (g <$> l) = (fun x => h (f x) (g x)) <$> l.
Proof. induction l as [|x l IH]; [done|]. cbn [fmap list_fmap zip_with]. by rewrite <- IH. Qed.

Lemma ratio_exceeded_spec (T : float) (ratios : vector) :
  ratio_exceeded T ratios = true ↔ out_of_balance T ratios.
Proof.
  unfold ratio_exceeded, out_of_balance. rewrite orb_true_iff, !existsb_exists, Exists_exists.
  split.
  - intros [(r & Hr & H)|(r & Hr & H)]; exists r; (split; [by apply list_elem_of_In|tauto]).
  - intros (r & Hr & [H|H]); [left|right]; exists r; (split; [by apply list_elem_of_In|done]).
Qed.

(** The covariance of lines 361-363 is the sample covariance. *)
Lemma sample_estimates_covariance (n d : nat) (samp : matrix) (lp : vector) (ret_a : bool) :
  (∀ x y, fmul x y = fmul y x) → is_matrix n d samp →
  S_hat (sample_estimates samp lp ret_a).1 = sample_covariance samp.
Proof.
  intros Hcomm Hsamp. unfold sample_estimates. cbn [fst S_hat].
  destruct samp as [|row0 samp'] eqn:Heq; [done|]. rewrite <- Heq in *.
  assert (0 < n)%nat as Hn by (destruct Hsamp as [<- _]; rewrite Heq; simpl; lia).
  assert (ncols samp = d) as Hd by (by apply (is_matrix_ncols n d)).
  assert (length samp = n) as Hlen by (by destruct Hsamp).
  set (mean := col_means samp).
  assert (length mean = d) as Hmean.
  { unfold mean, col_means, col_sums. by rewrite !length_fmap, length_seq. }
  set (dev := sub_rows samp mean).
  assert (is_matrix n d dev) as Hdev.
  { unfold dev, sub_rows. destruct Hsamp as [Hr Hc]. split; [by rewrite length_fmap|].
    apply Forall_fmap. eapply Forall_impl; [exact Hc|]. intros row Hrow. simpl.
    rewrite length_zip_with, Hmean. simpl in Hrow. lia. }
  assert (ncols dev = d) as Hdd by (by apply (is_matrix_ncols n d)).
  assert (nrows dev = n) as Hdn by (by destruct Hdev).
  assert (∀ j, (j < d)%nat →
            column dev j = (fun row : vector => fsub (row !!! j) (mean !!! j)) <$> samp) as Hcol.
  { intros j Hj. unfold column, dev, sub_rows. rewrite <- list_fmap_compose.
    apply list_fmap_ext. intros k row Hrow. simpl.
    destruct Hsamp as [_ Hc]. pose proof (Forall_lookup_1 _ _ _ _ Hc Hrow) as Hl.
    simpl in Hl. rewrite (lookup_total_zip_with fsub row mean j) by lia. done. }
  set (M := mat_mul (transpose dev) dev).
  assert (M = tabulate d d (fun a b => dot (column dev a) (column dev b))) as HM.
  { unfold M, mat_mul, transpose. rewrite Hdd, Hdn.
    assert (nrows (tabulate d n (fun i j => entry dev j i)) = d) as ->
      by (by destruct (tabulate_is_matrix d n (fun i j => entry dev j i))).
    apply (matrix_ext d d); [apply tabulate_is_matrix..|]. intros a b Ha Hb.
    rewrite !entry_tabulate by done. f_equal.
    unfold tabulate.
    rewrite (list_lookup_total_fmap (fun i => (fun j => entry dev j i) <$> seq 0 n) (seq 0 d) a)
      by (by rewrite length_seq).
    rewrite lookup_total_seq_lt by done. simpl. rewrite column_as_seq. unfold nrows in Hdn. by rewrite Hdn. }
  assert (is_matrix d d M) as HMm by (rewrite HM; apply tabulate_is_matrix).
  assert (transpose M = tabulate d d (fun i j => entry M j i)) as HtM.
  { unfold transpose, nrows. destruct HMm as [HMr HMc]. rewrite HMr.
    destruct (decide (0 < d)%nat) as [Hpos|Hz].
    - by rewrite (is_matrix_ncols d d M) by done.
    - assert (d = 0%nat) as -> by lia. by destruct M. }
  unfold sample_covariance. rewrite Hd, Hlen. fold M. rewrite HtM.
  apply (matrix_ext d d).
  { apply map_matrix_is_matrix. apply tabulate_is_matrix. }
  { apply tabulate_is_matrix. }
  intros i j Hi Hj.
  rewrite (entry_map_matrix d d) by (done || apply tabulate_is_matrix).
  rewrite !entry_tabulate by done. f_equal; [|by unfold nrows; rewrite Hlen].
  rewrite HM, entry_tabulate by done.
  unfold dot. rewrite !Hcol by done. rewrite zip_with_fmap_same. f_equal.
  apply list_fmap_ext. intros k row Hrow. simpl. rewrite <- col_means_sample_mean. fold mean.
  apply Hcomm.
Qed.

Lemma cv_moments_cases (samp : matrix) (lp : vector) (Q_tilde : matrix) (r_tilde : vector)
    (S_tilde : option matrix) (m_tilde : option vector) (ldet_Q_tilde : option float)
    (multiple_cv : bool) (regulate_a max_a m_treshold : option float) (ret_a : bool)
    (cho : option matrix) (St : matrix) (mt : vector) :
  tilde_parameters Q_tilde r_tilde S_tilde m_tilde ldet_Q_tilde = Ok (cho, St, mt) →
  ∃ dev_tilde pr,
    cv_moments samp lp Q_tilde r_tilde S_tilde m_tilde ldet_Q_tilde
      multiple_cv regulate_a max_a m_treshold ret_a
    = if use_sample_estimates m_treshold samp mt then Ok (sample_estimates samp lp ret_a)
      else control_variate_estimates samp lp St mt dev_tilde pr
             (CvOptions multiple_cv regulate_a max_a) ret_a.
Proof.
  intros Htilde. unfold cv_moments. rewrite Htilde. cbn [mbind result_bind].
  eexists _, _. reflexivity.
Qed.

Lemma cv_moments_raises (samp : matrix) (lp : vector) (Q_tilde : matrix) (r_tilde : vector)
    (S_tilde : option matrix) (m_tilde : option vector) (ldet_Q_tilde : option float)
    (multiple_cv : bool) (regulate_a max_a m_treshold : option float) (ret_a : bool) (e : exn) :
  tilde_parameters Q_tilde r_tilde S_tilde m_tilde ldet_Q_tilde = Raise e →
  cv_moments samp lp Q_tilde r_tilde S_tilde m_tilde ldet_Q_tilde
    multiple_cv regulate_a max_a m_treshold ret_a = Raise e.
Proof. intros Htilde. unfold cv_moments. by rewrite Htilde. Qed.

Lemma cv_estim_single_ok (f h : matrix) (Eh : vector) (opt : cv_options)
    (cov_k var_k ddof_f ddof_h : Z) :
  multiple_cv opt = false → is_ok (cv_estim f h Eh opt cov_k var_k ddof_f ddof_h).
Proof. intros Hm. unfold cv_estim. rewrite Hm. done. Qed.

Lemma control_variate_estimates_result (samp : matrix) (lp : vector)
    (St : matrix) (mt : vector) (dev_tilde : matrix) (pr : vector)
    (opt : cv_options) (ret_a : bool) (out : cv_output) (st : matrix * vector) :
  control_variate_estimates samp lp St mt dev_tilde pr opt ret_a = Ok (out, st) →
  treshold_exceeded out = true ∧ st = (samp, lp).
Proof.
  unfold control_variate_estimates.
  destruct (cv_estim samp _ mt opt _ _ 0 0) as [[m a]|e]; [|done]. cbn [mbind result_bind].
  destruct (cv_estim _ _ _ opt _ _ 1 0) as [[v a']|e]; [|done]. cbn [mbind result_bind].
  by intros [= <- <-].
Qed.

Lemma control_variate_estimates_single_ok (samp : matrix) (lp : vector)
    (St : matrix) (mt : vector) (dev_tilde : matrix) (pr : vector)
    (opt : cv_options) (ret_a : bool) :
  multiple_cv opt = false →
  is_ok (control_variate_estimates samp lp St mt dev_tilde pr opt ret_a).
Proof.
  intros Hm. unfold control_variate_estimates.
  match goal with |- context [cv_estim ?f ?h ?Eh opt ?c ?v 0 0] =>
    pose proof (cv_estim_single_ok f h Eh opt c v 0 0 Hm) as H1;
    destruct (cv_estim f h Eh opt c v 0 0) as [[m a]|e]; [|done] end.
  cbn [mbind result_bind].
  match goal with |- context [cv_estim ?f ?h ?Eh opt ?c ?v 1 0] =>
    pose proof (cv_estim_single_ok f h Eh opt c v 1 0 Hm) as H2;
    destruct (cv_estim f h Eh opt c v 1 0) as [[w a']|e]; [|done] end.
  done.
Qed.

Lemma use_sample_estimates_spec (t : float) (samp : matrix) (mt : vector) :
  use_sample_estimates (Some t) samp mt = true
  ↔ feq t (of_int 0) = false ∧ out_of_balance (effective_treshold t) (thratios samp mt).
Proof.
  unfold use_sample_estimates, truthy, effective_treshold. cbn [from_option]. unfold Datatypes.id.
  destruct (feq t (of_int 0)); cbn [negb].
  - split; [done|]. by intros [? _].
  - rewrite ratio_exceeded_spec. tauto.
Qed.

Lemma use_sample_estimates_None (samp : matrix) (mt : vector) :
  use_sample_estimates None samp mt = false.
Proof. done. Qed.

(** The threshold and its complement give the same check. *)
Lemma use_sample_estimates_flip (t : float) (samp : matrix) (mt : vector) :
  flt t fhalf = true → flt (fsub (of_int 1) t) fhalf = false →
  feq t (of_int 0) = false → feq (fsub (of_int 1) t) (of_int 0) = false →
  use_sample_estimates (Some t) samp mt = use_sample_estimates (Some (fsub (of_int 1) t)) samp mt.
Proof.
  intros H1 H2 H3 H4. unfold use_sample_estimates, truthy. cbv zeta. cbn [from_option]. unfold Datatypes.id.
  by rewrite H3, H4, H1, H2.
Qed.

Lemma cv_moments_flip (samp : matrix) (lp : vector) (Q_tilde : matrix) (r_tilde : vector)
    (S_tilde : option matrix) (m_tilde : option vector) (ldet_Q_tilde : option float)
    (multiple_cv : bool) (regulate_a max_a : option float) (ret_a : bool) (t : float) :
  flt t fhalf = true → flt (fsub (of_int 1) t) fhalf = false →
  feq t (of_int 0) = false → feq (fsub (of_int 1) t) (of_int 0) = false →
  cv_moments samp lp Q_tilde r_tilde S_tilde m_tilde ldet_Q_tilde
    multiple_cv regulate_a max_a (Some t) ret_a
  = cv_moments samp lp Q_tilde r_tilde S_tilde m_tilde ldet_Q_tilde
      multiple_cv regulate_a max_a (Some (fsub (of_int 1) t)) ret_a.
Proof.
  intros H1 H2 H3 H4. unfold cv_moments.
  destruct (tilde_parameters _ _ _ _ _) as [[[cho St] mt]|e]; [|done].
  cbn [mbind result_bind]. by rewrite (use_sample_estimates_flip t samp mt).
Qed.

(** The arrays of the caller when [cv_moments] returns. *)
Lemma cv_moments_frame (samp : matrix) (lp : vector) (Q_tilde : matrix) (r_tilde : vector)
    (S_tilde : option matrix) (m_tilde : option vector) (ldet_Q_tilde : option float)
    (multiple_cv : bool) (regulate_a max_a m_treshold : option float) (ret_a : bool)
    (cho : option matrix) (St : matrix) (mt : vector)
    (out : cv_output) (samp' : matrix) (lp' : vector) :
  tilde_parameters Q_tilde r_tilde S_tilde m_tilde ldet_Q_tilde = Ok (cho, St, mt) →
  cv_moments samp lp Q_tilde r_tilde S_tilde m_tilde ldet_Q_tilde
    multiple_cv regulate_a max_a m_treshold ret_a = Ok (out, (samp', lp')) →
  lp' = lp
  ∧ samp' = if use_sample_estimates m_treshold samp mt
            then sub_rows samp (sample_mean samp) else samp.
Proof.
  intros Htilde Hcall.
  destruct (cv_moments_cases samp lp Q_tilde r_tilde S_tilde m_tilde ldet_Q_tilde
              multiple_cv regulate_a max_a m_treshold ret_a cho St mt Htilde)
    as (dev & pr & Heq).
  rewrite Heq in Hcall. destruct (use_sample_estimates m_treshold samp mt).
  - unfold sample_estimates in Hcall. injection Hcall as _ <- <-.
    by rewrite col_means_sample_mean.
  - apply control_variate_estimates_result in Hcall as [_ [= <- <-]]. done.
Qed.

(** C4, as amended: [cv_moments] called with a threshold [t] that is not
    [None], on arrays of matching shapes and when the moment parameters of the
    control variate distribution are there (given, or computed without an
    error).  Let [T] be [t] when [t] is at least one half and [1 - t] when it
    is below.  If [t] is not zero and, in some dimension, the fraction of the
    samples strictly below [m_tilde] is greater than [T] or less than [1 - T],
    the call returns the sample mean, the unbiased sample covariance (the sums
    of the products of the deviations, divided by [n - 1]) and the flag
    [False].  Otherwise every result it returns carries the flag [True], and
    with [multiple_cv = False] it does return.  The product of the floats is
    taken as commutative. *)
Theorem cv_moments_balance_check (n d : nat) (samp : matrix) (lp : vector)
    (Q_tilde : matrix) (r_tilde : vector)
    (S_tilde : option matrix) (m_tilde : option vector) (ldet_Q_tilde : option float)
    (multiple_cv : bool) (regulate_a max_a : option float) (ret_a : bool) (t : float)
    (cho : option matrix) (St : matrix) (mt : vector) :
  (∀ x y, fmul x y = fmul y x) →
  cv_shapes n d samp lp Q_tilde r_tilde S_tilde m_tilde →
  tilde_parameters Q_tilde r_tilde S_tilde m_tilde ldet_Q_tilde = Ok (cho, St, mt) →
  let call := cv_moments samp lp Q_tilde r_tilde S_tilde m_tilde ldet_Q_tilde
                multiple_cv regulate_a max_a (Some t) ret_a in
  let unbalanced :=
    feq t (of_int 0) = false ∧ out_of_balance (effective_treshold t) (thratios samp mt) in
  (unbalanced →
     ∃ out st, call = Ok (out, st) ∧ m_hat out = sample_mean samp
               ∧ S_hat out = sample_covariance samp ∧ treshold_exceeded out = false)
  ∧ (¬ unbalanced → ∀ out st, call = Ok (out, st) → treshold_exceeded out = true)
  ∧ (¬ unbalanced → multiple_cv = false → is_ok call).
Proof.
  intros Hcomm (_ & Hsamp & _) Htilde call unbalanced.
  destruct (cv_moments_cases samp lp Q_tilde r_tilde S_tilde m_tilde ldet_Q_tilde
              multiple_cv regulate_a max_a (Some t) ret_a cho St mt Htilde)
    as (dev & pr & Heq).
  fold call in Heq. pose proof (use_sample_estimates_spec t samp mt) as Hspec.
  fold unbalanced in Hspec.
  split; [|split].
  - intros Hun. apply Hspec in Hun. rewrite Hun in Heq.
    exists (sample_estimates samp lp ret_a).1, (sample_estimates samp lp ret_a).2.
    split; [by rewrite Heq; destruct (sample_estimates samp lp ret_a)|].
    split; [apply col_means_sample_mean|].
    split; [by apply (sample_estimates_covariance n d)|done].
  - intros Hun out st Hcall.
    destruct (use_sample_estimates (Some t) samp mt); [by destruct Hun; apply Hspec|].
    rewrite Heq in Hcall. by apply control_variate_estimates_result in Hcall as [? _].
  - intros Hun Hm.
    destruct (use_sample_estimates (Some t) samp mt); [by destruct Hun; apply Hspec|].
    rewrite Heq. by apply control_variate_estimates_single_ok.
Qed.


(** C9, as amended: for a threshold [t] whose comparisons come out as for
    [0 < t < 0.5] ([t < 0.5] holds, [1 - t < 0.5] does not, and neither [t] nor
    [1 - t] is zero, all in the arithmetic of the program) and arrays of
    matching shapes, [cv_moments] called with [m_treshold = t] gives what it
    gives when called with [m_treshold = 1 - t], results, errors and arrays
    alike.  When the moment parameters of the control variate distribution
    are there, the call falls back to the sample estimates (flag [False]) if
    in some dimension the fraction of the samples below [m_tilde] is greater
    than [T = 1 - t] or less than [1 - T], and every result it returns
    otherwise carries the flag [True].  The bound [1 - T] is computed, and
    need not be [t]. *)
Theorem cv_moments_treshold_symmetric (n d : nat) (samp : matrix) (lp : vector)
    (Q_tilde : matrix) (r_tilde : vector)
    (S_tilde : option matrix) (m_tilde : option vector) (ldet_Q_tilde : option float)
    (multiple_cv : bool) (regulate_a max_a : option float) (ret_a : bool) (t : float) :
  flt t fhalf = true → flt (fsub (of_int 1) t) fhalf = false →
  feq t (of_int 0) = false → feq (fsub (of_int 1) t) (of_int 0) = false →
  cv_shapes n d samp lp Q_tilde r_tilde S_tilde m_tilde →
  let call m_treshold :=
    cv_moments samp lp Q_tilde r_tilde S_tilde m_tilde ldet_Q_tilde
      multiple_cv regulate_a max_a m_treshold ret_a in
  let T := fsub (of_int 1) t in
  call (Some t) = call (Some T)
  ∧ ∀ cho St mt,
      tilde_parameters Q_tilde r_tilde S_tilde m_tilde ldet_Q_tilde = Ok (cho, St, mt) →
      (out_of_balance T (thratios samp mt) →
         ∃ out st, call (Some t) = Ok (out, st) ∧ treshold_exceeded out = false)
      ∧ (¬ out_of_balance T (thratios samp mt) →
         ∀ out st, call (Some t) = Ok (out, st) → treshold_exceeded out = true).
Proof.
  intros H1 H2 H3 H4 _ call T. split; [by apply cv_moments_flip|].
  intros cho St mt Htilde.
  destruct (cv_moments_cases samp lp Q_tilde r_tilde S_tilde m_tilde
              ldet_Q_tilde multiple_cv regulate_a max_a (Some t) ret_a cho St mt Htilde)
    as (dev & pr & Heq).
  fold (call (Some t)) in Heq.
  assert (use_sample_estimates (Some t) samp mt = true
          ↔ out_of_balance T (thratios samp mt)) as Hspec.
  { rewrite use_sample_estimates_spec. unfold effective_treshold. rewrite H1. fold T. tauto. }
  split.
  - intros Hout. apply Hspec in Hout. rewrite Hout in Heq.
    exists (sample_estimates samp lp ret_a).1, (sample_estimates samp lp ret_a).2.
    split; [|done]. rewrite Heq. by destruct (sample_estimates _ _ _).
  - intros Hin out st Hcall.
    destruct (use_sample_estimates (Some t) samp mt); [by destruct Hin; apply Hspec|].
    rewrite Heq in Hcall. by apply control_variate_estimates_result in Hcall as [? _].
Qed.

End CvMoments.

Lemma tilde_parameters_given {FL : Float64} {LP : Lapack} (Q_tilde : matrix) (r_tilde : vector)
    (St : matrix) (mt : vector) (ldet : float) :
  tilde_parameters Q_tilde r_tilde (Some St) (Some mt) (Some ldet) = Ok (None, St, mt).
Proof.
  unfold tilde_parameters. rewrite bool_decide_eq_false_2; [done|].
  by intros [?|[?|?]].
Qed.

Lemma is_ok_inv {A : Type} (r : result A) : is_ok r → ∃ x, r = Ok x.
Proof. destruct r as [x|e]; [by exists x|done]. Qed.

(** In exact arithmetic *)

Lemma effective_treshold_below (t : R) :
  (t < 1 / 2)%R → effective_treshold (FL := R_float) t = (1 - t)%R.
Proof. intros H. unfold effective_treshold. cbn. by rewrite bool_decide_eq_true_2. Qed.

Lemma effective_treshold_above (t : R) :
  (1 / 2 <= t)%R → effective_treshold (FL := R_float) t = t.
Proof. intros H. unfold effective_treshold. cbn. rewrite bool_decide_eq_false_2; [done|lra]. Qed.

Lemma out_of_balance_exact (T : R) (ratios : list R) :
  out_of_balance (FL := R_float) T ratios ↔ Exists (fun r => (r < 1 - T ∨ T < r)%R) ratios.
Proof.
  unfold out_of_balance. apply Exists_proper; [|done]. intros r. cbn.
  rewrite !bool_decide_eq_true. tauto.
Qed.

Lemma thratios_example_half : thratios (FL := R_float) [[0%R]; [2%R]] [1%R] = [(1 / 2)%R].
Proof.
  unfold thratios. cbn.
  rewrite decide_True by (apply bool_decide_eq_true_2; lra).
  rewrite decide_False by (rewrite bool_decide_eq_false_2; [done|lra]).
  done.
Qed.

Lemma thratios_example_one : thratios (FL := R_float) [[1%R]; [3%R]] [4%R] = [(2 / 2)%R].
Proof.
  unfold thratios. cbn.
  rewrite decide_True by (apply bool_decide_eq_true_2; lra).
  rewrite decide_True by (apply bool_decide_eq_true_2; lra).
  done.
Qed.

(** C4 as worded fails for a threshold below one half: with the threshold
    [1/4] and half of the samples below [m_tilde], the fraction [1/2] is outside
    the interval from [1 - 1/4] to [1/4], and still [cv_moments] goes on with the
    control variate and returns the flag [True]. *)
Lemma cv_moments_low_treshold_counterexample :
  thratios (FL := R_float) [[0%R]; [2%R]] [1%R] = [(1 / 2)%R]
  ∧ ¬ (1 - 1 / 4 <= 1 / 2 <= 1 / 4)%R
  ∧ ∃ out st,
      cv_moments (FL := R_float) (LP := Lapack_1) [[0%R]; [2%R]] [0%R; 0%R] [[1%R]] [1%R]
        (Some [[1%R]]) (Some [1%R]) (Some 0%R) false None None (Some (1 / 4)%R) false
      = Ok (out, st)
      ∧ treshold_exceeded out = true.
Proof.
  split; [apply thratios_example_half|]. split; [lra|].
  destruct (cv_moments_cases (FL := R_float) (LP := Lapack_1)
              [[0%R]; [2%R]] [0%R; 0%R] [[1%R]] [1%R] (Some [[1%R]]) (Some [1%R]) (Some 0%R)
              false None None (Some (1 / 4)%R) false None [[1%R]] [1%R]
              (tilde_parameters_given _ _ _ _ _)) as (dev & pr & Heq).
  assert (use_sample_estimates (FL := R_float) (Some (1 / 4)%R) [[0%R]; [2%R]] [1%R] = false)
    as Hno.
  { apply not_true_is_false. rewrite use_sample_estimates_spec.
    intros [_ Hout]. rewrite effective_treshold_below in Hout by lra.
    apply out_of_balance_exact in Hout. rewrite thratios_example_half in Hout.
    apply Exists_cons in Hout as [Hr|Hr]; [lra|by apply Exists_nil in Hr]. }
  rewrite Hno in Heq.
  destruct (is_ok_inv _ (control_variate_estimates_single_ok (FL := R_float) (LP := Lapack_1)
              [[0%R]; [2%R]] [0%R; 0%R] [[1%R]] [1%R] dev pr
              (CvOptions (FL := R_float) false None None) false eq_refl)) as [[out st] Hok].
  exists out, st. split; [by rewrite Heq|].
  by apply control_variate_estimates_result in Hok as [? _].
Qed.

Lemma cv_shapes_example (x y m : R) :
  cv_shapes (FL := R_float) 2 1 [[x]; [y]] [0%R; 0%R] [[1%R]] [m] (Some [[1%R]]) (Some [m]).
Proof.
  split; [lia|]. split; [split; [done|by repeat constructor]|]. split; [done|].
  split; [split; [done|by repeat constructor]|]. split; [by intros [|]|].
  split; [intros St [= <-]; split; [done|by repeat constructor]|by intros mt [= <-]].
Qed.

Lemma cv_moments_balance_check_witness :
  ∃ out st,
    cv_moments (FL := R_float) (LP := Lapack_1) [[1%R]; [3%R]] [0%R; 0%R] [[1%R]] [4%R]
      (Some [[1%R]]) (Some [4%R]) (Some 0%R) true None None (Some (9 / 10)%R) false
    = Ok (out, st)
    ∧ m_hat out = sample_mean (FL := R_float) [[1%R]; [3%R]]
    ∧ S_hat out = sample_covariance (FL := R_float) [[1%R]; [3%R]]
    ∧ treshold_exceeded out = false.
Proof.
  refine (proj1 (cv_moments_balance_check (FL := R_float) (LP := Lapack_1) 2 1
                   [[1%R]; [3%R]] [0%R; 0%R] [[1%R]] [4%R] (Some [[1%R]]) (Some [4%R]) (Some 0%R)
                   true None None false (9 / 10)%R None [[1%R]] [4%R] Rmult_comm _ _) _).
  - apply cv_shapes_example.
  - exact (tilde_parameters_given (FL := R_float) (LP := Lapack_1)
             [[1%R]] [4%R] [[1%R]] [4%R] 0%R).
  - split.
    + cbn. rewrite bool_decide_eq_false_2; [done|lra].
    + rewrite effective_treshold_above by lra. apply out_of_balance_exact.
      rewrite thratios_example_one. apply Exists_cons_hd. lra.
Defined.

(** C5: the input array [samp] is not the same when the call returns.  With
    both samples [1] and [3] below [m_tilde = 4] the sample estimates are
    returned (flag [False]), and [samp -= m_hat] of line 361 has left the
    centred samples [-1] and [1] in the array of the caller; [lp] is as it
    was. *)
Theorem cv_moments_fallback_overwrites_samp :
  ∃ out,
    cv_moments (FL := R_float) (LP := Lapack_1) [[1%R]; [3%R]] [0%R; 0%R] [[1%R]] [4%R]
      (Some [[1%R]]) (Some [4%R]) (Some 0%R) true None None (Some (9 / 10)%R) false
    = Ok (out, ([[(-1)%R]; [1%R]], [0%R; 0%R]))
    ∧ treshold_exceeded out = false
    ∧ [[(-1)%R]; [1%R]] ≠ [[1%R]; [3%R]].
Proof.
  destruct (cv_moments_cases (FL := R_float) (LP := Lapack_1)
              [[1%R]; [3%R]] [0%R; 0%R] [[1%R]] [4%R] (Some [[1%R]]) (Some [4%R]) (Some 0%R)
              true None None (Some (9 / 10)%R) false None [[1%R]] [4%R]
              (tilde_parameters_given _ _ _ _ _)) as (dev & pr & Heq).
  assert (use_sample_estimates (FL := R_float) (Some (9 / 10)%R) [[1%R]; [3%R]] [4%R] = true)
    as Hyes.
  { apply use_sample_estimates_spec. split.
    - cbn. rewrite bool_decide_eq_false_2; [done|lra].
    - rewrite effective_treshold_above by lra. apply out_of_balance_exact.
      rewrite thratios_example_one. apply Exists_cons_hd. lra. }
  rewrite Hyes in Heq.
  exists (sample_estimates (FL := R_float) [[1%R]; [3%R]] [0%R; 0%R] false).1.
  split; [|split; [done|]].
  - rewrite Heq. unfold sample_estimates. cbn [fst]. do 2 f_equal.
    unfold sub_rows, col_means, col_sums, column, ncols, nrows. cbn.
    change (Z.of_nat 2) with 2.
    replace (1 - (1 + (3 + 0)) / 2)%R with (-1)%R by lra.
    replace (3 - (1 + (3 + 0)) / 2)%R with 1%R by lra. done.
  - intros [= H]. lra.
Qed.

(** In exact arithmetic the comparisons of C9 hold for every [0 < t < 1/2],
    and the bounds of the check are [t] and [1 - t]. *)
Lemma treshold_interval_exact (t : R) (ratios : list R) :
  (0 < t < 1 / 2)%R →
  flt (Float64 := R_float) t fhalf = true ∧
  flt (Float64 := R_float) (1 - t)%R fhalf = false ∧
  feq (Float64 := R_float) t 0%R = false ∧ feq (Float64 := R_float) (1 - t)%R 0%R = false ∧
  (out_of_balance (FL := R_float) (1 - t)%R ratios
   ↔ Exists (fun r => (r < t ∨ 1 - t < r)%R) ratios).
Proof.
  intros Ht. cbn.
  rewrite bool_decide_eq_true_2 by lra. rewrite !bool_decide_eq_false_2 by lra.
  repeat split; try done.
  - rewrite out_of_balance_exact. intros H. eapply Exists_impl; [exact H|].
    intros r Hr. simpl in Hr. lra.
  - rewrite out_of_balance_exact. intros H. eapply Exists_impl; [exact H|].
    intros r Hr. simpl in *. lra.
Qed.

Lemma cv_moments_treshold_symmetric_witness :
  let call m_treshold :=
    cv_moments (FL := R_float) (LP := Lapack_1) [[0%R]; [2%R]] [0%R; 0%R] [[1%R]] [1%R]
      (Some [[1%R]]) (Some [1%R]) (Some 0%R) false None None m_treshold false in
  call (Some (1 / 4)%R) = call (Some (1 - 1 / 4)%R)
  ∧ ∀ out st, call (Some (1 / 4)%R) = Ok (out, st) → treshold_exceeded out = true.
Proof.
  destruct (treshold_interval_exact (1 / 4)%R
              (thratios (FL := R_float) [[0%R]; [2%R]] [1%R]) ltac:(lra))
    as (H1 & H2 & H3 & H4 & Hiff).
  destruct (cv_moments_treshold_symmetric (FL := R_float) (LP := Lapack_1) 2 1
              [[0%R]; [2%R]] [0%R; 0%R] [[1%R]] [1%R]
              (Some [[1%R]]) (Some [1%R]) (Some 0%R) false None None false (1 / 4)%R
              H1 H2 H3 H4 (cv_shapes_example 0%R 2%R 1%R)) as [Heq Hflag].
  split; [exact Heq|].
  apply (Hflag None [[1%R]] [1%R] (tilde_parameters_given _ _ _ _ _)).
  intros Hout. apply Hiff in Hout. rewrite thratios_example_half in Hout.
  apply Exists_cons in Hout as [Hr|Hr]; [lra|by apply Exists_nil in Hr].
Defined.

Section Flags.
Context {FL : Float64} {LP : Lapack}.

(** With the moment parameters given, the flag follows the balance check. *)
Lemma cv_moments_given_falls_back (samp : matrix) (lp : vector) (Q_tilde : matrix)
    (r_tilde : vector) (St : matrix) (mt : vector) (ldet : float)
    (multiple_cv : bool) (regulate_a max_a : option float) (t : float) (ret_a : bool) :
  use_sample_estimates (Some t) samp mt = true →
  ∃ out st,
    cv_moments samp lp Q_tilde r_tilde (Some St) (Some mt) (Some ldet)
      multiple_cv regulate_a max_a (Some t) ret_a = Ok (out, st)
    ∧ treshold_exceeded out = false.
Proof.
  intros Hyes.
  destruct (cv_moments_cases samp lp Q_tilde r_tilde (Some St) (Some mt) (Some ldet)
              multiple_cv regulate_a max_a (Some t) ret_a None St mt
              (tilde_parameters_given _ _ _ _ _)) as (dev & pr & Heq).
  rewrite Hyes in Heq.
  exists (sample_estimates samp lp ret_a).1, (sample_estimates samp lp ret_a).2.
  split; [|done]. rewrite Heq. by destruct (sample_estimates _ _ _).
Qed.

Lemma cv_moments_given_goes_on (samp : matrix) (lp : vector) (Q_tilde : matrix)
    (r_tilde : vector) (St : matrix) (mt : vector) (ldet : float)
    (regulate_a max_a : option float) (t : float) (ret_a : bool) :
  use_sample_estimates (Some t) samp mt = false →
  ∃ out st,
    cv_moments samp lp Q_tilde r_tilde (Some St) (Some mt) (Some ldet)
      false regulate_a max_a (Some t) ret_a = Ok (out, st)
    ∧ treshold_exceeded out = true.
Proof.
  intros Hno.
  destruct (cv_moments_cases samp lp Q_tilde r_tilde (Some St) (Some mt) (Some ldet)
              false regulate_a max_a (Some t) ret_a None St mt
              (tilde_parameters_given _ _ _ _ _)) as (dev & pr & Heq).
  rewrite Hno in Heq.
  destruct (is_ok_inv _ (control_variate_estimates_single_ok samp lp St mt dev pr
              (CvOptions false regulate_a max_a) ret_a eq_refl)) as [[out st] Hok].
  exists out, st. split; [by rewrite Heq|].
  by apply control_variate_estimates_result in Hok as [? _].
Qed.

End Flags.

(** Ten samples of one dimension, three of them below the mean [1], and four
    samples, one of them below. *)
Definition ten_samples : list (list PrimFloat.float) :=
  (fun z => [b64_of_int z]) <$> [0; 0; 0; 2; 2; 2; 2; 2; 2; 2].

Definition four_samples : list (list PrimFloat.float) :=
  (fun z => [b64_of_int z]) <$> [0; 2; 2; 2].

(** C9 as worded fails in float64, in both directions, whatever the order of
    the summations, the exponential, the logarithm and the LAPACK routines
    are.  With the threshold [0.3] and three of ten samples below [m_tilde],
    the fraction is the float [0.3] itself, inside the interval from [t] to
    [1 - t], and still [cv_moments] falls back to the sample estimates and
    returns the flag [False]: the bound that line 358 computes is
    [1 - (1 - 0.3)], the next float above [0.3].  With the threshold next
    above [0.25] and one of four samples below, the fraction [0.25] is below
    [t], outside the interval, and still the control variate is used and the
    flag is [True]: there [1 - (1 - t)] is [0.25]. *)
Lemma cv_moments_treshold_boundary_counterexample :
  (PrimFloat.ltb (b64_of_int 0) b64_three_tenths = true
   ∧ PrimFloat.ltb (b64_of_int 0) b64_above_quarter = true)
  ∧ ∀ sum exp log (LP : Lapack (FL := binary64 sum exp log)),
      let FL := binary64 sum exp log in
      ((flt b64_three_tenths fhalf = true
        ∧ flt (fsub (of_int 1) b64_three_tenths) fhalf = false
        ∧ feq b64_three_tenths (of_int 0) = false
        ∧ feq (fsub (of_int 1) b64_three_tenths) (of_int 0) = false)
       ∧ cv_shapes 10 1 ten_samples (replicate 10 (of_int 0)) [[of_int 1]] [of_int 1]
           (Some [[of_int 1]]) (Some [of_int 1])
       ∧ thratios ten_samples [of_int 1] = [b64_three_tenths]
       ∧ flt b64_three_tenths b64_three_tenths = false
       ∧ flt (fsub (of_int 1) b64_three_tenths) b64_three_tenths = false
       ∧ ∃ out st,
           cv_moments ten_samples (replicate 10 (of_int 0)) [[of_int 1]] [of_int 1]
             (Some [[of_int 1]]) (Some [of_int 1]) (Some (of_int 0))
             false None None (Some b64_three_tenths) false = Ok (out, st)
           ∧ treshold_exceeded out = false)
      ∧ ((flt b64_above_quarter fhalf = true
          ∧ flt (fsub (of_int 1) b64_above_quarter) fhalf = false
          ∧ feq b64_above_quarter (of_int 0) = false
          ∧ feq (fsub (of_int 1) b64_above_quarter) (of_int 0) = false)
         ∧ cv_shapes 4 1 four_samples (replicate 4 (of_int 0)) [[of_int 1]] [of_int 1]
             (Some [[of_int 1]]) (Some [of_int 1])
         ∧ (∃ r, thratios four_samples [of_int 1] = [r] ∧ flt r b64_above_quarter = true)
         ∧ ∃ out st,
             cv_moments four_samples (replicate 4 (of_int 0)) [[of_int 1]] [of_int 1]
               (Some [[of_int 1]]) (Some [of_int 1]) (Some (of_int 0))
               false None None (Some b64_above_quarter) false = Ok (out, st)
             ∧ treshold_exceeded out = true).
Proof.
  split; [by vm_compute|]. intros sum exp log LP FL.
  assert (∀ n samp, (0 < n)%nat → is_matrix (FL := FL) n 1 samp →
            cv_shapes (FL := FL) n 1 samp (replicate n (of_int 0)) [[of_int 1]] [of_int 1]
              (Some [[of_int 1]]) (Some [of_int 1])) as Hshapes.
  { intros n samp Hn Hsamp. split; [done|]. split; [done|].
    split; [by rewrite length_replicate|].
    split; [split; [done|by repeat constructor]|]. split; [by intros [|]|].
    split; [intros St [= <-]; split; [done|by repeat constructor]|by intros mt [= <-]]. }
  split.
  - split; [vm_compute; repeat split|].
    split; [apply Hshapes; [lia|split; [reflexivity|by repeat constructor]]|].
    split; [vm_compute; reflexivity|]. split; [vm_compute; reflexivity|].
    split; [vm_compute; reflexivity|].
    apply (cv_moments_given_falls_back (FL := FL)). vm_compute. reflexivity.
  - split; [vm_compute; repeat split|].
    split; [apply Hshapes; [lia|split; [reflexivity|by repeat constructor]]|].
    split; [eexists; split; vm_compute; reflexivity|].
    apply (cv_moments_given_goes_on (FL := FL)). vm_compute. reflexivity.
Qed.

(** * Further properties of [distribute_groups] *)

Lemma chunks_length (counts l : list Z) : length (chunks counts l) = length counts.
Proof. revert l. induction counts as [|c cs IH]; intros l; simpl; [done|by rewrite IH]. Qed.

Lemma chunks_lookup (counts l : list Z) (k : nat) :
  Forall (fun n => 0 < n) counts → (k < length counts)%nat →
  chunks counts l !! k =
    Some (take (Z.to_nat (counts !!! k)) (drop (Z.to_nat (Zsum (take k counts))) l)).
Proof.
  intros Hpos. revert l k. induction Hpos as [|c cs Hc Hcs IH]; intros l k Hk; [simpl in Hk; lia|].
  destruct k as [|k]; [done|]. simpl in Hk. cbn [chunks lookup list_lookup].
  rewrite IH by lia. rewrite drop_drop. cbn [take]. rewrite Zsum_cons.
  pose proof (Zsum_nonneg (take k cs) (Forall_take _ _ _ Hcs)).
  do 3 f_equal. lia.
Qed.

Lemma chunks_ones (l : list Z) : chunks (replicate (length l) 1) l = (fun x => [x]) <$> l.
Proof. induction l as [|x l IH]; [done|]. cbn. by f_equal. Qed.

Lemma runs_of_initial (Nj : list Z) : runs_of Nj ((fun n => (n, 1)) <$> Nj).
Proof.
  unfold runs_of. rewrite initial_groups_fst, initial_groups_snd, chunks_ones.
  rewrite <- list_fmap_compose. induction Nj as [|x l IH]; [done|].
  cbn [fmap list_fmap]. rewrite <- IH. f_equal. cbn. unfold Zsum. simpl. lia.
Qed.

Lemma merge_at_runs (Nj : list Z) (i : nat) (gs : list group) :
  Forall (fun n => 0 < n) (gs.*2) → runs_of Nj gs → runs_of Nj (merge_at i gs).
Proof.
  unfold runs_of. revert Nj i. induction gs as [|g gs IH]; intros Nj i Hpos Hruns.
  { by destruct i. }
  destruct i as [|i].
  - unfold merge_at. cbn [lookup list_lookup]. destruct gs as [|h gs]; [done|].
    cbn [take drop app]. unfold merge_pair. rewrite !fmap_cons in *. cbn [fst snd chunks] in *.
    injection Hruns as Hg Hh Hrest.
    inversion Hpos as [|? ? Hg2 Hpos']; subst. inversion Hpos' as [|? ? Hh2 _]; subst.
    cbn [lookup list_lookup drop]. rewrite !fmap_cons. cbn [fst snd chunks].
    rewrite !fmap_cons. rewrite Z2Nat.inj_add by lia. rewrite <- take_take_drop, Zsum_app, <- Hg, <- Hh.
    f_equal. rewrite drop_drop in Hrest. exact Hrest.
  - unfold merge_at. cbn [lookup list_lookup].
    specialize (IH (drop (Z.to_nat g.2) Nj) i).
    unfold merge_at in IH. pose proof Hruns as Hruns0.
    rewrite !fmap_cons in Hruns. cbn [chunks] in Hruns. injection Hruns as Hg Hrest.
    rewrite fmap_cons in Hpos. inversion Hpos as [|? ? Hg2 Hpos']; subst.
    destruct (gs !! i) as [a|] eqn:Ha; [|exact Hruns0].
    destruct (gs !! S i) as [b|] eqn:Hb; [|exact Hruns0].
    cbn [take app]. rewrite !fmap_cons. cbn [chunks]. rewrite fmap_cons, <- Hg. f_equal.
    by apply IH.
Qed.

Lemma within_labels_length (Nj_k : list Z) :
  Forall (fun n => 0 < n) Nj_k → Z.of_nat (length (within_labels Nj_k)) = Zsum Nj_k.
Proof.
  unfold within_labels. induction 1 as [|c cs Hc Hcs IH]; [done|].
  rewrite fmap_cons. cbn [concat]. rewrite length_app, length_seqZ, Zsum_cons. lia.
Qed.

Lemma within_labels_take (Nj_k : list Z) (k : nat) :
  take k ((fun c => seqZ 0 c) <$> Nj_k) = (fun c => seqZ 0 c) <$> take k Nj_k.
Proof. by rewrite fmap_take. Qed.

Lemma within_labels_lookup (Nj_k : list Z) (k : nat) (ji : Z) :
  Forall (fun n => 0 < n) Nj_k → (k < length Nj_k)%nat → 0 <= ji < Nj_k !!! k →
  within_labels Nj_k !! Z.to_nat (Zsum (take k Nj_k) + ji) = Some ji.
Proof.
  intros Hpos. revert k. induction Hpos as [|c cs Hc Hcs IH]; intros k Hk Hji; [simpl in Hk; lia|].
  unfold within_labels. rewrite fmap_cons. cbn [concat].
  destruct k as [|k].
  - cbn [take]. change (Zsum []) with 0. cbn in Hji.
    rewrite lookup_app_l by (rewrite length_seqZ; lia).
    rewrite lookup_seqZ. split; lia.
  - cbn [take]. rewrite Zsum_cons. simpl in Hk.
    change ((c :: cs) !!! S k) with (cs !!! k) in Hji.
    pose proof (Zsum_nonneg (take k cs) (Forall_take _ _ _ Hcs)).
    rewrite lookup_app_r by (rewrite length_seqZ; lia).
    rewrite length_seqZ.
    replace (Z.to_nat (c + Zsum (take k cs) + ji) - Z.to_nat c)%nat
      with (Z.to_nat (Zsum (take k cs) + ji)) by lia.
    apply IH; [lia|done].
Qed.

Lemma blocks_length_sum (Nj labs : list Z) :
  Forall (fun n => 0 < n) Nj → length labs = length Nj →
  Z.of_nat (length (concat (zip_with (fun n ji => replicate (Z.to_nat n) (wrap32 ji)) Nj labs)))
  = Zsum Nj.
Proof.
  intros H. revert labs. induction H as [|n l Hn Hl IH]; intros labs Hlen; [by destruct labs|].
  destruct labs as [|ji labs]; [done|].
  cbn [zip_with concat]. rewrite length_app, length_replicate, Zsum_cons.
  specialize (IH labs). simpl in Hlen. lia.
Qed.

Section WithinIndex.

Context {FL : Float64}.
Variables (Nj Nj_k : list Z).
Hypothesis HNj : Forall (fun n => 0 < n) Nj.
Hypothesis HsNj : Zsum Nj < 2 ^ 63.
Hypothesis HNjk : Forall (fun n => 0 < n) Nj_k.
Hypothesis HsNjk : Zsum Nj_k = Z.of_nat (length Nj).

Let blocks : list (list Z) :=
  zip_with (fun n ji => replicate (Z.to_nat n) (wrap32 ji)) Nj (within_labels Nj_k).

(** The array when the first [g] groups are written. *)
Let filled (g : nat) : list Z :=
  concat (take g blocks) ++ replicate (Z.to_nat (Zsum Nj - Zsum (take g Nj))) 0.

Lemma labels_length : length (within_labels Nj_k) = length Nj.
Proof. pose proof (within_labels_length Nj_k HNjk). lia. Qed.

Lemma blocks_length : length blocks = length Nj.
Proof. unfold blocks. rewrite length_zip_with, labels_length. lia. Qed.

Lemma blocks_concat_length (g : nat) :
  Z.of_nat (length (concat (take g blocks))) = Zsum (take g Nj).
Proof.
  unfold blocks. rewrite zip_with_take. apply blocks_length_sum; [by apply Forall_take|].
  rewrite !length_take, labels_length. done.
Qed.

Lemma filled_length (g : nat) : Z.of_nat (length (filled g)) = Zsum Nj.
Proof.
  unfold filled. rewrite length_app, length_replicate.
  pose proof (blocks_concat_length g). pose proof (Zsum_take_le Nj g HNj). lia.
Qed.

Lemma filled_step (g : nat) (ji : Z) :
  (g < length Nj)%nat → within_labels Nj_k !! g = Some ji →
  slice_fill (filled g) (Zsum (take g Nj)) (Zsum (take (S g) Nj)) (wrap32 ji) = filled (S g).
Proof.
  intros Hg Hji.
  pose proof (Zsum_take_S Nj g Hg) as HS.
  pose proof (Zsum_take_le Nj (S g) HNj) as Hle.
  pose proof (Zsum_nonneg (take g Nj) (Forall_take _ _ _ HNj)) as Hge.
  assert (0 < Nj !!! g) as Hpos.
  { rewrite Forall_forall in HNj. apply HNj, list_elem_of_lookup_total_2. done. }
  pose proof (filled_length g) as Hlen. pose proof (blocks_concat_length g) as Hcl.
  unfold slice_fill, slice_bound.
  destruct (Z.ltb_spec (Zsum (take g Nj)) 0) as [|_]; [lia|].
  destruct (Z.ltb_spec (Zsum (take (S g) Nj)) 0) as [|_]; [lia|].
  rewrite !Z.min_l by lia.
  destruct (Nat.ltb_spec (Z.to_nat (Zsum (take g Nj))) (Z.to_nat (Zsum (take (S g) Nj))));
    [|lia].
  unfold filled at 3.
  assert (blocks !! g = Some (replicate (Z.to_nat (Nj !!! g)) (wrap32 ji))) as Hb.
  { unfold blocks. rewrite lookup_zip_with, (list_lookup_lookup_total_lt Nj g Hg), Hji. done. }
  rewrite (take_S_r _ _ _ Hb), concat_app. cbn [concat]. rewrite app_nil_r, <- !app_assoc.
  unfold filled.
  rewrite take_app_length' by lia.
  f_equal. f_equal; [f_equal; lia|].
  rewrite drop_app_ge by lia. rewrite drop_replicate. f_equal. lia.
Qed.

Lemma within_site_body_step (k : nat) (ji : Z) :
  (k < length Nj_k)%nat → 0 <= ji < Nj_k !!! k →
  within_site_body (0 :: np_cumsum Nj) (0 :: np_cumsum Nj_k) (Z.of_nat k) ji
    (filled (Z.to_nat (Zsum (take k Nj_k) + ji)))
  = Ok (filled (S (Z.to_nat (Zsum (take k Nj_k) + ji)))).
Proof.
  intros Hk Hji. unfold within_site_body.
  pose proof (Zsum_pos_length Nj HNj) as HJ.
  rewrite (get_item_nat _ (Z.of_nat k) k (Zsum (take k Nj_k))); [|done|].
  2:{ apply np_cumsum_lookup; [done|lia|lia]. }
  cbn [mbind result_bind].
  pose proof (Zsum_take_S Nj_k k Hk) as HS.
  pose proof (Zsum_take_le Nj_k (S k) HNjk) as Hle.
  pose proof (Zsum_nonneg (take k Nj_k) (Forall_take _ _ _ HNjk)) as Hge.
  rewrite int64_add_id by (unfold int64; lia).
  rewrite (Z.add_comm ji).
  set (ki := Zsum (take k Nj_k) + ji) in *.
  assert (ki = Z.of_nat (Z.to_nat ki)) as Hki by lia.
  rewrite (get_item_nat _ ki (Z.to_nat ki) (Zsum (take (Z.to_nat ki) Nj))); [|done|].
  2:{ apply np_cumsum_lookup; [done|done|lia]. }
  cbn [mbind result_bind].
  rewrite (get_item_nat _ (ki + 1) (S (Z.to_nat ki)) (Zsum (take (S (Z.to_nat ki)) Nj)));
    [|lia|].
  2:{ apply np_cumsum_lookup; [done|done|lia]. }
  cbn [mbind result_bind]. f_equal.
  apply filled_step; [lia|]. by apply within_labels_lookup.
Qed.

Lemma within_site_inner (k n : nat) (j0 : Z) :
  (k < length Nj_k)%nat → 0 <= j0 → j0 + Z.of_nat n <= Nj_k !!! k →
  for_m (seqZ j0 (Z.of_nat n))
    (within_site_body (0 :: np_cumsum Nj) (0 :: np_cumsum Nj_k) (Z.of_nat k))
    (filled (Z.to_nat (Zsum (take k Nj_k) + j0)))
  = Ok (filled (Z.to_nat (Zsum (take k Nj_k) + j0 + Z.of_nat n))).
Proof.
  intros Hk. revert j0. induction n as [|n IH]; intros j0 Hj0 Hle.
  { cbn [for_m seqZ]. by rewrite Z.add_0_r. }
  pose proof (Zsum_nonneg (take k Nj_k) (Forall_take _ _ _ HNjk)) as Hge.
  rewrite Nat2Z.inj_succ, seqZ_cons by lia. cbn [for_m].
  rewrite within_site_body_step by (done || lia). cbn [mbind result_bind].
  replace (Z.pred (Z.succ (Z.of_nat n))) with (Z.of_nat n) by lia.
  replace (S (Z.to_nat (Zsum (take k Nj_k) + j0)))
    with (Z.to_nat (Zsum (take k Nj_k) + Z.succ j0)) by lia.
  rewrite IH by lia. do 2 f_equal. lia.
Qed.

Lemma within_site_outer (n k0 : nat) :
  (k0 + n <= length Nj_k)%nat →
  for_m (seqZ (Z.of_nat k0) (Z.of_nat n))
    (fun k j_ind_k =>
       c ← get_item Nj_k k;
       for_m (py_range c) (within_site_body (0 :: np_cumsum Nj) (0 :: np_cumsum Nj_k) k) j_ind_k)
    (filled (Z.to_nat (Zsum (take k0 Nj_k))))
  = Ok (filled (Z.to_nat (Zsum (take (k0 + n) Nj_k)))).
Proof.
  revert k0. induction n as [|n IH]; intros k0 Hle.
  { cbn [for_m seqZ]. by rewrite Nat.add_0_r. }
  rewrite Nat2Z.inj_succ, seqZ_cons by lia. cbn [for_m].
  rewrite (get_item_total Nj_k (Z.of_nat k0) k0) by (done || lia). cbn [mbind result_bind].
  assert (0 < Nj_k !!! k0) as Hpos.
  { rewrite Forall_forall in HNjk. apply HNjk, list_elem_of_lookup_total_2. lia. }
  unfold py_range.
  replace (Nj_k !!! k0) with (Z.of_nat (Z.to_nat (Nj_k !!! k0))) at 1 by lia.
  pose proof (within_site_inner k0 (Z.to_nat (Nj_k !!! k0)) 0 ltac:(lia) ltac:(lia) ltac:(lia))
    as Hin.
  rewrite Z.add_0_r in Hin. rewrite Hin. cbn [mbind result_bind].
  replace (Z.pred (Z.succ (Z.of_nat n))) with (Z.of_nat n) by lia.
  replace (Z.succ (Z.of_nat k0)) with (Z.of_nat (S k0)) by lia.
  replace (Zsum (take k0 Nj_k) + Z.of_nat (Z.to_nat (Nj_k !!! k0)))
    with (Zsum (take (S k0) Nj_k)) by (rewrite Zsum_take_S by lia; lia).
  rewrite IH by lia. by replace (S k0 + n)%nat with (k0 + S n)%nat by lia.
Qed.

(** The loops of lines 604-607 write the within-site index of every sample. *)
Lemma within_site_spec (N K : Z) :
  N = Zsum Nj → K = Z.of_nat (length Nj_k) →
  within_site N K (0 :: np_cumsum Nj) Nj_k = Ok (within_index Nj Nj_k).
Proof.
  intros -> ->. unfold within_site, np_empty.
  pose proof (Zsum_nonneg Nj HNj) as HN.
  destruct (Z.ltb_spec (Zsum Nj) 0) as [|_]; [lia|]. cbn [mbind result_bind].
  assert (replicate (Z.to_nat (Zsum Nj)) 0 = filled (Z.to_nat (Zsum (take 0 Nj_k)))) as ->.
  { unfold filled. cbn [take]. change (Zsum []) with 0. change (Z.to_nat 0) with 0%nat.
    cbn [take concat app]. change (Zsum []) with 0. by rewrite Z.sub_0_r. }
  unfold py_range at 1. change 0 with (Z.of_nat 0) at 1.
  rewrite (within_site_outer (length Nj_k) 0) by lia. f_equal. unfold filled.
  rewrite Nat.add_0_l, firstn_all, HsNjk, Nat2Z.id.
  rewrite <- blocks_length, firstn_all.
  rewrite blocks_length, firstn_all, Z.sub_diag. cbn [Z.to_nat replicate].
  by rewrite app_nil_r.
Qed.

End WithinIndex.

Lemma reference_merge_runs (Nj : list Z) (fuel K : nat) (gs : list group) :
  groups_ok gs → runs_of Nj gs → runs_of Nj (reference_merge fuel K gs).
Proof.
  revert gs. induction fuel as [|fuel IH]; intros gs Hok Hruns; simpl; [done|].
  destruct (length gs =? K)%nat; [done|].
  apply IH; [by apply reference_step_inv|].
  unfold reference_step. destruct (smallest_pair gs) as [i|]; [|done].
  apply merge_at_runs; [by destruct Hok|done].
Qed.

Lemma concat_lookup_block {A : Type} (B : list (list A)) (g s : nat) (b : list A) :
  B !! g = Some b → (s < length b)%nat →
  concat B !! (length (concat (take g B)) + s)%nat = b !! s.
Proof.
  intros Hb Hs. set (p := length (concat (take g B))).
  assert (concat B = concat (take g B) ++ b ++ concat (drop (S g) B)) as ->.
  { rewrite <- (take_drop_middle B g b Hb) at 1. by rewrite concat_app. }
  rewrite lookup_app_r by (unfold p; lia).
  replace (p + s - length (concat (take g B)))%nat with s by (unfold p; lia).
  by rewrite lookup_app_l.
Qed.

Section MergeGroupsFull.

Context {FL : Float64}.

(** The branch [K < J] in full: the sites of the reference process and the
    within-site index of every sample. *)
Lemma merge_groups_full (J K : Z) (Nj : list Z) :
  valid_sizes Nj → J = Z.of_nat (length Nj) → 2 <= K < J →
  merge_groups J K (Zsum Nj) Nj =
    Ok (Sites ((reference_sites K Nj).*1) (Some ((reference_sites K Nj).*2))
              (Some (within_index Nj ((reference_sites K Nj).*2)))).
Proof.
  intros Hv HJ HK. pose proof Hv as [Hpos Hsum]. unfold merge_groups. cbv zeta.
  rewrite initial_pair_sums by done.
  set (gs := (fun n => (n, 1)) <$> Nj).
  assert (length gs = length Nj) as Hgs by (unfold gs; by rewrite length_fmap).
  assert (repeat_m (Z.to_nat (J - K)) merge_step (Nj, psums Nj, replicate (Z.to_nat J) 1) =
          Ok ((reference_sites K Nj).*1, psums ((reference_sites K Nj).*1),
              (reference_sites K Nj).*2)) as ->.
  { unfold reference_sites. fold gs.
    rewrite <- (merge_loop_reference (Z.to_nat (J - K)) (length Nj) (Z.to_nat K) gs) by lia.
    unfold gs. rewrite initial_groups_fst, initial_groups_snd. do 3 f_equal. lia. }
  cbn [mbind result_bind].
  destruct (reference_merge_inv (length Nj) (Z.to_nat K) gs) as ([Hp1 Hp2] & Hs1 & Hs2).
  { by apply initial_groups_ok. }
  change (reference_merge (length Nj) (Z.to_nat K) gs) with (reference_sites K Nj) in *.
  assert (length (reference_sites K Nj) = Z.to_nat K) as Hlen.
  { unfold reference_sites. apply reference_merge_length; rewrite ?length_fmap; lia. }
  unfold gs in Hs2. rewrite initial_groups_snd, Zsum_replicate in Hs2.
  rewrite (within_site_spec Nj ((reference_sites K Nj).*2));
    [done|done|done|done|lia|done|rewrite length_fmap; lia].
Qed.

(** X1: on a valid request with [K < J] every site is a run of consecutive groups:
    [Nj_k] has [K] positive entries, and [Nk[k]] is the sum of the sizes of the
    [Nj_k[k]] groups that follow the groups of the sites before [k]. *)
Theorem distribute_groups_sites_are_runs (J K : Z) (Nj : Nj_arg) :
  valid_input J K Nj → K < J →
  ∃ Nk Nj_k jk,
    distribute_groups J K Nj = Ok (Sites Nk (Some Nj_k) (Some jk)) ∧
    Z.of_nat (length Nk) = K ∧ Z.of_nat (length Nj_k) = K ∧
    Forall (fun c => 0 < c) Nj_k ∧
    ∀ k, (k < length Nj_k)%nat →
      Nk !! k = Some (Zsum (take (Z.to_nat (Nj_k !!! k))
                              (drop (Z.to_nat (Zsum (take k Nj_k))) (sizes_of J Nj)))).
Proof.
  intros Hv HKJ. pose proof Hv as (Hwf & Hshape & Hpos & HK).
  pose proof (sizes_of_length J Nj Hwf Hshape) as Hlen.
  assert (valid_sizes (sizes_of J Nj)) as Hvs by (split; [done|by destruct Hwf as (_ & _ & ?)]).
  rewrite distribute_groups_valid by done. cbv zeta.
  destruct (Z.ltb_spec K J); [|lia].
  rewrite merge_groups_full by (done || lia).
  set (gs := reference_sites K (sizes_of J Nj)).
  assert (length gs = Z.to_nat K) as Hgs.
  { unfold gs, reference_sites. apply reference_merge_length; rewrite ?length_fmap; lia. }
  destruct (reference_merge_inv (length (sizes_of J Nj)) (Z.to_nat K)
              ((fun n => (n, 1)) <$> sizes_of J Nj)) as ([_ Hp2] & _ & _).
  { by apply initial_groups_ok. }
  assert (runs_of (sizes_of J Nj) gs) as Hruns.
  { apply reference_merge_runs; [by apply initial_groups_ok|apply runs_of_initial]. }
  fold (reference_sites K (sizes_of J Nj)) in Hp2. fold gs in Hp2.
  exists (gs.*1), (gs.*2), (within_index (sizes_of J Nj) (gs.*2)).
  split; [done|]. rewrite !length_fmap. split; [lia|]. split; [lia|]. split; [done|].
  intros k Hk. rewrite Hruns, list_lookup_fmap, chunks_lookup by (done || by rewrite length_fmap).
  done.
Qed.

(** X2: on a valid request with [K < J], [j_ind_k] has one entry per sample, and
    the samples of the group at position [ji] of site [k] all carry [ji]
    (as an int32, which is [ji] itself when [J <= 2^31]). *)
Theorem distribute_groups_within_site_index (J K : Z) (Nj : Nj_arg) :
  valid_input J K Nj → K < J →
  ∃ Nk Nj_k jk,
    distribute_groups J K Nj = Ok (Sites Nk (Some Nj_k) (Some jk)) ∧
    Z.of_nat (length jk) = Zsum (sizes_of J Nj) ∧
    ∀ (k : nat) (ji s : Z),
      (k < length Nj_k)%nat → 0 <= ji < Nj_k !!! k →
      let g := Z.to_nat (Zsum (take k Nj_k) + ji) in
      0 <= s < sizes_of J Nj !!! g →
      jk !! Z.to_nat (Zsum (take g (sizes_of J Nj)) + s) = Some (wrap32 ji) ∧
      (J <= 2 ^ 31 → wrap32 ji = ji).
Proof.
  intros Hv HKJ. pose proof Hv as (Hwf & Hshape & Hpos & HK).
  pose proof (sizes_of_length J Nj Hwf Hshape) as Hlen.
  assert (valid_sizes (sizes_of J Nj)) as Hvs by (split; [done|by destruct Hwf as (_ & _ & ?)]).
  rewrite distribute_groups_valid by done. cbv zeta.
  destruct (Z.ltb_spec K J); [|lia].
  rewrite merge_groups_full by (done || lia).
  set (Ns := sizes_of J Nj) in *.
  set (gs := reference_sites K Ns).
  destruct (reference_merge_inv (length Ns) (Z.to_nat K) ((fun n => (n, 1)) <$> Ns))
    as ([_ Hp2] & _ & Hs2).
  { by apply initial_groups_ok. }
  fold (reference_sites K Ns) in Hp2, Hs2. fold gs in Hp2, Hs2.
  rewrite initial_groups_snd, Zsum_replicate in Hs2.
  assert (Zsum (gs.*2) = Z.of_nat (length Ns)) as Hsum by lia.
  exists (gs.*1), (gs.*2), (within_index Ns (gs.*2)).
  split; [done|].
  pose proof (blocks_concat_length Ns (gs.*2) Hpos Hp2 Hsum) as Hcl.
  pose proof (labels_length Ns (gs.*2) Hp2 Hsum) as Hll.
  split.
  { unfold within_index. specialize (Hcl (length Ns)).
    rewrite firstn_all2 in Hcl by (rewrite length_zip_with; lia).
    by rewrite firstn_all in Hcl. }
  intros k ji s Hk Hji Hs. set (g := Z.to_nat (Zsum (take k (gs.*2)) + ji)) in *.
  pose proof (Zsum_take_S (gs.*2) k Hk) as HS.
  pose proof (Zsum_take_le (gs.*2) (S k) Hp2) as Hle.
  pose proof (Zsum_nonneg (take k (gs.*2)) (Forall_take _ _ _ Hp2)) as Hge.
  assert (g < length Ns)%nat as Hg by (unfold g; lia).
  split.
  - unfold within_index.
    replace (Z.to_nat (Zsum (take g Ns) + s))
      with (length (concat (take g (zip_with
              (fun n ji0 => replicate (Z.to_nat n) (wrap32 ji0)) Ns (within_labels (gs.*2)))))
            + Z.to_nat s)%nat by (specialize (Hcl g); lia).
    rewrite (concat_lookup_block _ g (Z.to_nat s) (replicate (Z.to_nat (Ns !!! g)) (wrap32 ji))).
    + apply lookup_replicate_2. lia.
    + rewrite lookup_zip_with, (list_lookup_lookup_total_lt Ns g Hg).
      unfold g. by rewrite within_labels_lookup.
    + rewrite length_replicate. lia.
  - intros HJ. unfold wrap32.
    assert (Nj_le : gs.*2 !!! k <= Zsum (gs.*2)) by (by apply elem_le_Zsum).
    rewrite Z.mod_small by lia. lia.
Qed.

End MergeGroupsFull.

Lemma group_sites_lookup (n p a : Z) :
  0 <= a < p →
  group_sites n p !! Z.to_nat a = Some (n / p + (if a <? n mod p then 1 else 0)).
Proof.
  intros Ha. unfold group_sites. rewrite list_lookup_fmap.
  rewrite (proj2 (lookup_seqZ 0 p (Z.to_nat a) a)) by lia. simpl.
  destruct (a <? n mod p); f_equal; lia.
Qed.

Lemma concat_take_drop_block {A : Type} (B : list (list A)) (j : nat) (b : list A) :
  B !! j = Some b →
  take (length b) (drop (length (concat (take j B))) (concat B)) = b.
Proof.
  intros Hb.
  assert (concat B = concat (take j B) ++ b ++ concat (drop (S j) B)) as ->.
  { rewrite <- (take_drop_middle B j b Hb) at 1. by rewrite concat_app. }
  rewrite drop_app_length. by rewrite take_app_length.
Qed.

Section SplitParts.

Context {FL : Float64}.

(** X3: on a valid request with [J < K], group [j] is cut into [Nk_j[j] >= 1]
    sites that follow each other in [Nk]; part [a] of the group holds
    [Nj[j] // Nk_j[j]] samples, and one more when [a < Nj[j] % Nk_j[j]], so
    that the parts of a group add up to the group. *)
Theorem distribute_groups_splits_each_group (J K : Z) (Nj : Nj_arg) :
  valid_input J K Nj → J < K →
  ∃ Nk Nk_j,
    distribute_groups J K Nj = Ok (Sites Nk (Some Nk_j) None) ∧
    Z.of_nat (length Nk) = K ∧ Z.of_nat (length Nk_j) = J ∧
    ∀ j : nat, (j < length Nk_j)%nat →
      let n := sizes_of J Nj !!! j in
      let p := Nk_j !!! j in
      1 <= p ∧
      (∀ a, 0 <= a < p →
         Nk !! site_index Nk_j j a = Some (n / p + (if a <? n mod p then 1 else 0))) ∧
      Zsum (take (Z.to_nat p) (drop (site_index Nk_j j 0) Nk)) = n.
Proof.
  intros Hv HJK. pose proof Hv as (Hwf & Hshape & Hpos & HK).
  pose proof (sizes_of_length J Nj Hwf Hshape) as Hlen.
  assert (valid_sizes (sizes_of J Nj)) as Hvs by (split; [done|by destruct Hwf as (_ & _ & ?)]).
  rewrite distribute_groups_valid by done. cbv zeta.
  destruct (Z.ltb_spec K J); [lia|]. destruct (Z.eqb_spec K J); [lia|].
  set (Ns := sizes_of J Nj) in *.
  destruct (split_groups_spec J K Ns) as (ppg & -> & Hl & Hppg & Hs); [done|lia|lia|].
  exists (concat (split_sites Ns ppg)), ppg. split; [done|].
  split; [rewrite concat_length_split_sites by done; lia|]. split; [lia|].
  intros j Hj.
  assert (0 < ppg !!! j) as Hp by (by apply (Forall_lookup_total_1 _ ppg j Hppg)).
  assert (0 < Ns !!! j) as Hn by (apply (Forall_lookup_total_1 _ Ns j Hpos); lia).
  split; [lia|]. split.
  - intros a Ha. rewrite split_sites_site by (done || lia). by apply group_sites_lookup.
  - pose proof (split_sites_lookup Ns ppg j ltac:(lia) Hj) as Hb.
    pose proof (concat_take_drop_block _ j _ Hb) as Hblock.
    rewrite group_sites_length in Hblock.
    unfold site_index. rewrite Z.add_0_r.
    replace (Z.to_nat (Zsum (take j ppg)))
      with (length (concat (take j (split_sites Ns ppg)))).
    + rewrite Hblock. apply Zsum_group_sites; lia.
    + rewrite split_sites_take.
      pose proof (concat_length_split_sites (take j Ns) (take j ppg)) as Hc.
      rewrite !length_take in Hc. specialize (Hc ltac:(lia) (Forall_take _ _ _ Hppg)). lia.
Qed.

End SplitParts.

(** ** The split loop in exact arithmetic *)

Lemma argmax_from_exact (a : list Q) (best : Q) (ibest i : Z) :
  0 <= ibest < i →
  let r := argmax_from (FL := Q_float) best ibest i a in
  ∃ m : Q,
    ((r = ibest ∧ m = best) ∨ (i <= r ∧ a !! Z.to_nat (r - i) = Some m)) ∧
    (best <= m)%Q ∧ Forall (fun x => (x <= m)%Q) a.
Proof.
  revert best ibest i. induction a as [|x a IH]; intros best ibest i Hi; cbn [argmax_from].
  { exists best. split; [by left|]. split; [apply Qle_refl|constructor]. }
  cbn [flt Q_float]. destruct (Qle_bool x best) eqn:Hle; cbn [negb].
  - apply Qle_bool_iff in Hle.
    destruct (IH best ibest (i + 1) ltac:(lia)) as (m & Hr & Hbm & Hall).
    exists m. split; [|split; [done|]].
    + destruct Hr as [?|[Hge Hm]]; [by left|right]. split; [lia|].
      replace (Z.to_nat (argmax_from (FL := Q_float) best ibest (i + 1) a - i))
        with (S (Z.to_nat (argmax_from (FL := Q_float) best ibest (i + 1) a - (i + 1)))) by lia.
      done.
    + constructor; [by apply Qle_trans with best|done].
  - assert (best < x)%Q as Hlt.
    { apply Qnot_le_lt. intros H. apply Qle_bool_iff in H. congruence. }
    destruct (IH x i (i + 1) ltac:(lia)) as (m & Hr & Hxm & Hall).
    exists m. split; [|split].
    + right. destruct Hr as [[-> ->]|[Hge Hm]].
      * split; [lia|]. by rewrite Z.sub_diag.
      * split; [lia|].
        replace (Z.to_nat (argmax_from (FL := Q_float) x i (i + 1) a - i))
          with (S (Z.to_nat (argmax_from (FL := Q_float) x i (i + 1) a - (i + 1)))) by lia.
        done.
    + apply Qle_trans with x; [by apply Qlt_le_weak|done].
    + by constructor.
Qed.

Lemma np_argmax_exact (a : list Q) :
  a ≠ [] →
  ∃ (c : nat) (m : Q), np_argmax (FL := Q_float) a = Ok (Z.of_nat c) ∧
    a !! c = Some m ∧ Forall (fun x => (x <= m)%Q) a.
Proof.
  destruct a as [|x a]; [done|]. intros _. cbn [np_argmax].
  pose proof (argmax_from_range (FL := Q_float) a x 0 1 ltac:(lia)) as Hrange.
  destruct (argmax_from_exact a x 0 1 ltac:(lia)) as (m & Hr & Hxm & Hall).
  exists (Z.to_nat (argmax_from (FL := Q_float) x 0 1 a)), m.
  split; [f_equal; lia|]. split; [|by constructor].
  destruct Hr as [[-> ->]|[Hge Hm]]; [done|].
  replace (Z.to_nat (argmax_from (FL := Q_float) x 0 1 a))
    with (S (Z.to_nat (argmax_from (FL := Q_float) x 0 1 a - 1))) by lia.
  done.
Qed.

Lemma quotient_above_one (n p : Z) :
  0 < p → (1 < inject_Z n / inject_Z p)%Q ↔ p < n.
Proof.
  intros Hp. assert (0 < inject_Z p)%Q as HpQ by (unfold Qlt; simpl; lia).
  split.
  - intros H. destruct (Z.lt_ge_cases p n) as [|Hge]; [done|]. exfalso.
    apply (Qlt_not_le _ _ H). apply Qle_shift_div_r; [done|].
    rewrite Qmult_1_l. unfold Qle; simpl; lia.
  - intros H. apply Qlt_shift_div_l; [done|]. rewrite Qmult_1_l. unfold Qlt; simpl; lia.
Qed.

Lemma some_part_below (ppg Nj : list Z) :
  Forall2 (fun p n => p <= n) ppg Nj → Zsum ppg < Zsum Nj →
  ∃ j p n, ppg !! j = Some p ∧ Nj !! j = Some n ∧ p < n.
Proof.
  induction 1 as [|p n ppg Nj Hpn Hrest IH]; intros Hsum.
  { change (Zsum []) with 0 in Hsum. lia. }
  rewrite !Zsum_cons in Hsum.
  destruct (Z.lt_ge_cases p n) as [Hlt|Hge].
  - by exists 0%nat, p, n.
  - destruct IH as (j & p' & n' & ? & ? & ?); [lia|]. by exists (S j), p', n'.
Qed.

Lemma split_step_exact (Nj : list Z) (st : list Z * list Q) :
  Forall (fun n => 0 < n) Nj → Zsum Nj < 2 ^ 63 →
  exact_parts Nj st → Zsum st.1 < Zsum Nj →
  ∃ st', split_step (FL := Q_float) Nj st = Ok st' ∧ exact_parts Nj st' ∧
         Zsum st'.1 = Zsum st.1 + 1.
Proof.
  intros HNj Hbound. destruct st as [ppg Nj2]. intros (Hl1 & Hl2 & Hinv) Hsum.
  cbn [fst snd] in *. unfold split_step.
  assert (Forall2 (fun p n => p <= n) ppg Nj) as Hle.
  { apply Forall2_same_length_lookup_2; [done|]. intros j p n Hp Hn.
    destruct (lookup_lt_is_Some_2 Nj2 j) as [x Hx]; [apply lookup_lt_Some in Hp; lia|].
    destruct (Hinv j p n x Hp Hn Hx). lia. }
  destruct (some_part_below ppg Nj Hle Hsum) as (j & pj & nj & Hpj & Hnj & Hlt).
  destruct (lookup_lt_is_Some_2 Nj2 j) as [xj Hxj]; [apply lookup_lt_Some in Hpj; lia|].
  destruct (Hinv j pj nj xj Hpj Hnj Hxj) as [Hpj' Hxj'].
  destruct (np_argmax_exact Nj2) as (c & m & -> & Hm & Hmax).
  { intros ->. done. }
  cbn [mbind result_bind].
  assert (c < length Nj)%nat as Hc by (apply lookup_lt_Some in Hm; lia).
  destruct (lookup_lt_is_Some_2 ppg c) as [pc Hpc]; [lia|].
  destruct (lookup_lt_is_Some_2 Nj c) as [nc Hnc]; [lia|].
  destruct (Hinv c pc nc m Hpc Hnc Hm) as [Hpc' Hm'].
  assert (pc < nc) as Hroom.
  { apply quotient_above_one; [lia|]. rewrite <- Hm'.
    apply Qlt_le_trans with xj.
    - rewrite Hxj'. apply quotient_above_one; lia.
    - rewrite Forall_forall in Hmax. apply Hmax. by apply list_elem_of_lookup_2 with j. }
  assert (Forall (fun n => 0 < n) ppg) as Hppos.
  { apply Forall_forall. intros p [k Hk]%list_elem_of_lookup_1.
    destruct (lookup_lt_is_Some_2 Nj k) as [n Hn]; [apply lookup_lt_Some in Hk; lia|].
    destruct (lookup_lt_is_Some_2 Nj2 k) as [x Hx]; [apply lookup_lt_Some in Hk; lia|].
    destruct (Hinv k p n x Hk Hn Hx). lia. }
  pose proof (elem_le_Zsum ppg c Hppos ltac:(lia)) as Hcle.
  rewrite (list_lookup_total_correct _ _ _ Hpc) in Hcle.
  rewrite (get_item_nat ppg _ c pc) by done. cbn [mbind result_bind].
  rewrite (set_item_nat ppg _ c) by lia. cbn [mbind result_bind].
  rewrite (get_item_nat Nj _ c nc) by done. cbn [mbind result_bind].
  rewrite int64_add_id by (unfold int64; lia).
  rewrite (get_item_nat _ _ c (pc + 1)) by (done || by rewrite list_lookup_insert_eq by lia).
  cbn [mbind result_bind].
  rewrite (set_item_nat (A := Q) Nj2 _ c) by lia. cbn [mbind result_bind].
  eexists. split; [done|]. cbn [fst snd]. split.
  - unfold exact_parts. cbn [fst snd].
    split; [by rewrite length_insert|]. split; [by rewrite length_insert|].
    intros k p n x Hp Hn Hx. destruct (decide (k = c)) as [->|Hne].
    + rewrite list_lookup_insert_eq in Hp by lia. rewrite list_lookup_insert_eq in Hx by lia.
      injection Hp as <-. injection Hx as <-. rewrite Hnc in Hn. injection Hn as <-.
      split; [lia|]. cbn. apply Qeq_refl.
    + rewrite list_lookup_insert_ne in Hp by done. rewrite list_lookup_insert_ne in Hx by done.
      by apply (Hinv k).
  - rewrite Zsum_insert by lia. rewrite (list_lookup_total_correct _ _ _ Hpc). lia.
Qed.

Lemma split_loop_exact (Nj : list Z) (n : nat) (st : list Z * list Q) :
  Forall (fun n => 0 < n) Nj → Zsum Nj < 2 ^ 63 →
  exact_parts Nj st → Zsum st.1 + Z.of_nat n <= Zsum Nj →
  ∃ st', repeat_m n (split_step (FL := Q_float) Nj) st = Ok st' ∧ exact_parts Nj st' ∧
         Zsum st'.1 = Zsum st.1 + Z.of_nat n.
Proof.
  intros HNj Hbound. revert st. induction n as [|n IH]; intros st Hinv Hsum.
  { exists st. split; [done|]. split; [done|]. cbv [float Q_float] in *. lia. }
  destruct (split_step_exact Nj st HNj Hbound Hinv) as (st1 & Hst1 & Hinv1 & Hs1); [lia|].
  destruct (IH st1 Hinv1) as (st' & Hst' & Hinv' & Hs'); [cbv [float Q_float] in *; lia|].
  exists st'. cbn [repeat_m]. rewrite Hst1. cbn [mbind result_bind].
  split; [done|]. split; [done|cbv [float Q_float] in *; lia].
Qed.

Lemma exact_parts_initial (Nj : list Z) :
  Forall (fun n => 0 < n) Nj →
  exact_parts Nj (replicate (length Nj) 1, of_int (Float64 := Q_float) <$> Nj).
Proof.
  intros HNj. unfold exact_parts. cbn [fst snd].
  split; [by rewrite length_replicate|]. split; [by rewrite length_fmap|].
  intros j p n x Hp Hn Hx. apply lookup_replicate in Hp as [-> _].
  rewrite list_lookup_fmap, Hn in Hx. injection Hx as <-.
  rewrite Forall_forall in HNj. specialize (HNj n (list_elem_of_lookup_2 _ _ _ Hn)).
  split; [lia|]. cbn. unfold Qdiv. change (/ inject_Z 1)%Q with 1%Q. by rewrite Qmult_1_r.
Qed.

(** In exact arithmetic the loop never gives a group more parts than it has
    samples. *)
Lemma split_groups_exact (J K : Z) (Nj : list Z) :
  valid_sizes Nj → J = Z.of_nat (length Nj) → J < K <= Zsum Nj →
  ∃ ppg, split_groups (FL := Q_float) J K Nj
           = Ok (Sites (concat (split_sites Nj ppg)) (Some ppg) None) ∧
         length ppg = length Nj ∧ Forall2 (fun p n => 0 < p <= n) ppg Nj.
Proof.
  intros Hv HJ HK. pose proof Hv as [HNj Hsum].
  destruct (split_groups_spec (FL := Q_float) J K Nj Hv HJ HK) as (ppg & Heq & Hl & _ & _).
  destruct (split_loop_exact Nj (Z.to_nat (K - J))
              (replicate (length Nj) 1, of_int (Float64 := Q_float) <$> Nj) HNj Hsum
              (exact_parts_initial Nj HNj))
    as ([ppg' Nj2] & Hloop & (Hl1 & Hl2 & Hinv) & _).
  { cbn [fst]. rewrite Zsum_replicate. lia. }
  cbn [fst snd] in *.
  assert (ppg = ppg') as ->.
  { unfold split_groups, np_ones in Heq. destruct (Z.ltb_spec J 0); [lia|].
    cbn [mbind result_bind] in Heq. rewrite HJ, Nat2Z.id in Heq.
    replace (Z.to_nat (K - Z.of_nat (length Nj))) with (Z.to_nat (K - J)) in Heq by lia.
    rewrite Hloop in Heq. cbn [mbind result_bind] in Heq.
    destruct (np_empty K) as [e|?]; [|done]. cbn [mbind result_bind] in Heq.
    destruct (for_m _ _ _) as [[Nk k]|?]; [|done]. cbn [mbind result_bind] in Heq.
    by injection Heq as _ <-. }
  exists ppg'. split; [done|]. split; [done|].
  apply Forall2_same_length_lookup_2; [done|]. intros j p n Hp Hn.
  destruct (lookup_lt_is_Some_2 Nj2 j) as [x Hx];
    [apply lookup_lt_Some in Hp; cbv [float Q_float] in *; lia|].
  by destruct (Hinv j p n x Hp Hn Hx).
Qed.

(** X4: in exact arithmetic every site of a valid request holds at least one
    sample, whatever the branch. *)
Theorem distribute_groups_no_empty_site (J K : Z) (Nj : Nj_arg) :
  valid_input J K Nj →
  ∃ out, distribute_groups (FL := Q_float) J K Nj = Ok out ∧
         Forall (fun n => 1 <= n) (Nk out).
Proof.
  intros Hv. pose proof Hv as (Hwf & Hshape & Hpos & HK).
  pose proof (sizes_of_length J Nj Hwf Hshape) as Hlen.
  assert (valid_sizes (sizes_of J Nj)) as Hvs by (split; [done|by destruct Hwf as (_ & _ & ?)]).
  rewrite distribute_groups_valid by done. cbv zeta.
  destruct (Z.ltb_spec K J) as [HKJ|HKJ].
  - destruct (merge_groups_reference J K (sizes_of J Nj)) as [jk ->];
      [done|lia|lia|].
    eexists. split; [done|]. cbn [Nk].
    destruct (reference_merge_inv (length (sizes_of J Nj)) (Z.to_nat K)
                ((fun n => (n, 1)) <$> sizes_of J Nj)) as ([Hp1 _] & _ & _).
    { by apply initial_groups_ok. }
    eapply Forall_impl; [exact Hp1|]. intros n Hn. simpl in Hn. lia.
  - destruct (Z.eqb_spec K J) as [->|Hne].
    + eexists. split; [done|]. cbn [Nk].
      eapply Forall_impl; [exact Hpos|]. intros n Hn. simpl in Hn. lia.
    + destruct (split_groups_exact J K (sizes_of J Nj)) as (ppg & -> & Hl & Hle);
        [done|lia|lia|].
      eexists. split; [done|]. cbn [Nk].
      apply Forall_concat. unfold split_sites. apply Forall_forall.
      intros sites [j Hj]%list_elem_of_lookup_1.
      apply lookup_zip_with_Some in Hj as (n & p & -> & Hn & Hp).
      pose proof (Forall2_lookup_lr _ _ _ _ _ _ Hle Hp Hn) as Hpn. simpl in Hpn.
      apply Forall_forall. intros x Hx. apply group_sites_values in Hx.
      pose proof (Z.div_le_lower_bound n p 1 ltac:(lia) ltac:(lia)). lia.
Qed.

(** * Further properties of [cv_moments] and [olse] *)

Section CvMomentsMore.

Context {FL : Float64} {LP : Lapack}.

Lemma invert_normal_params_factored (A U : matrix) (b : option vector) :
  cho_factor A = Ok U →
  invert_normal_params A b false = invert_normal_params U b true.
Proof. intros HU. unfold invert_normal_params. cbn [negb]. by rewrite HU. Qed.

Lemma invert_normal_params_factor_ok (A Q : matrix) (b o : option vector) :
  invert_normal_params A b false = Ok (Q, o) → ∃ U, cho_factor A = Ok U.
Proof.
  unfold invert_normal_params. cbn [negb]. destruct (cho_factor A) as [U|e]; [by exists U|done].
Qed.

(** X5: what [cv_moments] leaves in the arrays of the caller: [lp] is never
    written, and [samp] is only written when the sample estimates are returned
    (flag [False]); it then holds the centred samples. *)
Theorem cv_moments_keeps_inputs (samp : matrix) (lp : vector) (Q_tilde : matrix)
    (r_tilde : vector) (S_tilde : option matrix) (m_tilde : option vector)
    (ldet_Q_tilde : option float) (multiple_cv : bool)
    (regulate_a max_a m_treshold : option float) (ret_a : bool) :
  match cv_moments samp lp Q_tilde r_tilde S_tilde m_tilde ldet_Q_tilde
          multiple_cv regulate_a max_a m_treshold ret_a with
  | Ok (out, (samp', lp')) =>
      lp' = lp ∧
      samp' = if treshold_exceeded out then samp else sub_rows samp (sample_mean samp)
  | Raise _ => True
  end.
Proof.
  destruct (tilde_parameters Q_tilde r_tilde S_tilde m_tilde ldet_Q_tilde)
    as [[[cho St] mt]|e] eqn:Htilde.
  - destruct (cv_moments_cases samp lp Q_tilde r_tilde S_tilde m_tilde ldet_Q_tilde
                multiple_cv regulate_a max_a m_treshold ret_a cho St mt Htilde)
      as (dev & pr & ->).
    destruct (use_sample_estimates m_treshold samp mt).
    + unfold sample_estimates. cbn [treshold_exceeded]. by rewrite col_means_sample_mean.
    + destruct (control_variate_estimates _ _ _ _ _ _ _ _) as [[out [samp' lp']]|e] eqn:Hcv;
        [|done].
      apply control_variate_estimates_result in Hcv as [-> [= -> ->]]. done.
  - by rewrite (cv_moments_raises _ _ _ _ _ _ _ _ _ _ _ _ e Htilde).
Qed.

(** X6: without a threshold ([None], or the falsy [0.0]) the balance check is
    skipped: whatever [cv_moments] returns is the control variate estimate,
    flag [True], and the samples are as they were. *)
Theorem cv_moments_without_treshold (samp : matrix) (lp : vector) (Q_tilde : matrix)
    (r_tilde : vector) (S_tilde : option matrix) (m_tilde : option vector)
    (ldet_Q_tilde : option float) (multiple_cv : bool)
    (regulate_a max_a m_treshold : option float) (ret_a : bool)
    (out : cv_output) (st : matrix * vector) :
  m_treshold = None ∨ (∃ t, m_treshold = Some t ∧ feq t (of_int 0) = true) →
  cv_moments samp lp Q_tilde r_tilde S_tilde m_tilde ldet_Q_tilde
    multiple_cv regulate_a max_a m_treshold ret_a = Ok (out, st) →
  treshold_exceeded out = true ∧ st = (samp, lp).
Proof.
  intros Hthr Hcall.
  assert (∀ mt, use_sample_estimates m_treshold samp mt = false) as Hno.
  { intros mt. unfold use_sample_estimates, truthy.
    destruct Hthr as [->|(t & -> & Ht)]; [done|]. by rewrite Ht. }
  destruct (tilde_parameters Q_tilde r_tilde S_tilde m_tilde ldet_Q_tilde)
    as [[[cho St] mt]|e] eqn:Htilde.
  - destruct (cv_moments_cases samp lp Q_tilde r_tilde S_tilde m_tilde ldet_Q_tilde
                multiple_cv regulate_a max_a m_treshold ret_a cho St mt Htilde)
      as (dev & pr & Heq).
    rewrite Heq, Hno in Hcall. by apply control_variate_estimates_result in Hcall.
  - by rewrite (cv_moments_raises _ _ _ _ _ _ _ _ _ _ _ _ e Htilde) in Hcall.
Qed.

(** X7: when a moment parameter or the log determinant is missing, [Q_tilde] is
    factored first, and an error of the factorisation is the error of
    [cv_moments]. *)
Theorem cv_moments_factorisation_error (samp : matrix) (lp : vector) (Q_tilde : matrix)
    (r_tilde : vector) (S_tilde : option matrix) (m_tilde : option vector)
    (ldet_Q_tilde : option float) (multiple_cv : bool)
    (regulate_a max_a m_treshold : option float) (ret_a : bool) (e : exn) :
  S_tilde = None ∨ m_tilde = None ∨ ldet_Q_tilde = None →
  cho_factor Q_tilde = Raise e →
  cv_moments samp lp Q_tilde r_tilde S_tilde m_tilde ldet_Q_tilde
    multiple_cv regulate_a max_a m_treshold ret_a = Raise e.
Proof.
  intros Hmiss Hcho. apply cv_moments_raises. unfold tilde_parameters.
  rewrite bool_decide_eq_true_2 by done. by rewrite Hcho.
Qed.

(** X8: missing moment parameters are those of [invert_normal_params]: leaving out
    [S_tilde] and [m_tilde] gives what passing the inverted [Q_tilde],
    [r_tilde] gives; and a parameter given without the other is ignored. *)
Theorem cv_moments_computes_missing_parameters (samp : matrix) (lp : vector)
    (Q_tilde : matrix) (r_tilde : vector) (ldet_Q_tilde : option float) (multiple_cv : bool)
    (regulate_a max_a m_treshold : option float) (ret_a : bool)
    (St : matrix) (mt : vector) :
  invert_normal_params Q_tilde (Some r_tilde) false = Ok (St, Some mt) →
  let call S_tilde m_tilde :=
    cv_moments samp lp Q_tilde r_tilde S_tilde m_tilde ldet_Q_tilde
      multiple_cv regulate_a max_a m_treshold ret_a in
  call None None = call (Some St) (Some mt) ∧
  (∀ S0, call (Some S0) None = call None None) ∧
  (∀ m0, call None (Some m0) = call None None).
Proof.
  intros Hinv call.
  destruct (invert_normal_params_factor_ok _ _ _ _ Hinv) as [U HU].
  pose proof Hinv as Hinv'. rewrite (invert_normal_params_factored _ U _ HU) in Hinv'.
  assert (∀ S0 m0, S0 = None ∨ m0 = None →
            tilde_parameters Q_tilde r_tilde S0 m0 ldet_Q_tilde = Ok (Some U, St, mt)) as Hmiss.
  { intros S0 m0 H0. unfold tilde_parameters.
    rewrite bool_decide_eq_true_2 by tauto. rewrite HU. cbn [mbind result_bind default].
    cbn [from_option]. unfold Datatypes.id.
    destruct H0 as [->| ->].
    - by rewrite Hinv'.
    - destruct S0; by rewrite Hinv'. }
  assert (∀ S0 m0, S0 = None ∨ m0 = None → call S0 m0 = call None None) as Hsame.
  { intros S0 m0 H0. unfold call, cv_moments.
    rewrite (Hmiss S0 m0 H0), (Hmiss None None) by tauto. done. }
  split; [|split; intros; apply Hsame; tauto].
  unfold call, cv_moments. rewrite (Hmiss None None) by tauto.
  unfold tilde_parameters. destruct ldet_Q_tilde as [ldet|].
  - rewrite bool_decide_eq_false_2 by (by intros [?|[?|?]]). done.
  - rewrite bool_decide_eq_true_2 by tauto. rewrite HU. done.
Qed.

End CvMomentsMore.

Lemma coef_entries_map {FL : Float64} (f : float → float) (a : coef) :
  coef_entries (map_coef f a) = f <$> coef_entries a.
Proof.
  destruct a as [z|v|m]; [done|done|]. cbn [map_coef coef_entries].
  by rewrite fmap_concat_matrix.
Qed.

Lemma clip_bounds (M x : R) :
  (0 <= M)%R → (- M <= clip (FL := R_float) (- M) M x <= M)%R.
Proof.
  intros HM. unfold clip. cbn [flt R_float].
  case_bool_decide; [lra|]. case_bool_decide; lra.
Qed.

Section MaxA.

Context {LP : Lapack (FL := R_float)}.

(** X9: in exact arithmetic and where [_cv_estim] divides by no zero before
    it clips ([n - ddof_f] is not zero and, with a control variate of its own
    for each dimension, no variance [var_h] is zero), a positive [max_a] bounds
    every entry of the correlation term [a] that is returned. *)
Theorem cv_estim_max_a_bounds (f h : list (list R)) (Eh : list R) (mcv : bool) (reg : option R)
    (M : R) (cov_k var_k ddof_f ddof_h : Z) (out : list R) (a : coef (FL := R_float)) :
  (0 < M)%R →
  Z.of_nat (nrows (FL := R_float) f) - ddof_f ≠ 0 →
  (mcv = false → Forall (fun v => v ≠ 0%R) (control_variances (FL := R_float) h Eh var_k)) →
  cv_estim (FL := R_float) f h Eh (CvOptions (FL := R_float) mcv reg (Some M))
    cov_k var_k ddof_f ddof_h = Ok (out, a) →
  Forall (fun x => (- M <= x <= M)%R) (coef_entries (FL := R_float) a).
Proof.
  intros HM _ _. unfold cv_estim. cbn [multiple_cv regulate_a max_a].
  match goal with |- context [@mbind _ _ _ _ _ ?m] => destruct m as [a0|e] end; [|done].
  cbn [mbind result_bind]. cbn [truthy feq R_float of_int].
  rewrite (bool_decide_eq_false_2 (M = 0)%R) by lra. cbn [negb from_option].
  unfold Datatypes.id. intros [= _ <-].
  rewrite coef_entries_map. apply Forall_fmap, Forall_forall. intros x _. simpl.
  apply clip_bounds. lra.
Qed.

End MaxA.

Section OlseComponent.

Context {LP : Lapack (FL := R_float)}.

Local Open Scope R_scope.

Lemma np_trace_square (d : nat) (A : list (list R)) :
  is_matrix (FL := R_float) d d A →
  np_trace (FL := R_float) A = Rsum d (fun k => entry (FL := R_float) A k k).
Proof.
  intros HA. unfold np_trace, np_diag. destruct (decide (0 < d)%nat) as [Hd|Hd].
  - rewrite (is_matrix_ncols (FL := R_float) d d A HA Hd).
    destruct HA as [HA _]. unfold nrows. rewrite HA, Nat.min_id. apply fsum_seq.
  - assert (d = 0%nat) as -> by lia. destruct HA as [HA _]. unfold nrows. rewrite HA. done.
Qed.

Lemma fro_norm_squared_transpose (d : nat) (P : list (list R)) :
  is_matrix (FL := R_float) d d P → (0 < d)%nat →
  fro_norm_squared (FL := R_float) (transpose (FL := R_float) P)
  = Rsum d (fun i => Rsum d (fun j => entry (FL := R_float) P i j * entry (FL := R_float) P i j)).
Proof.
  intros HP Hd. unfold fro_norm_squared. rewrite (fmap_concat_matrix (FL := R_float)).
  unfold transpose. rewrite (is_matrix_ncols (FL := R_float) d d P HP Hd).
  destruct HP as [HPr HPc]. unfold nrows. rewrite HPr.
  rewrite (fsum_concat d d)
    by (apply (map_matrix_is_matrix (FL := R_float)), (tabulate_is_matrix (FL := R_float))).
  rewrite Rsum_exchange. apply Rsum_ext. intros i Hi. apply Rsum_ext. intros j Hj.
  rewrite (entry_map_matrix (FL := R_float) d d)
    by (done || apply (tabulate_is_matrix (FL := R_float))).
  by rewrite (entry_tabulate (FL := R_float)) by done.
Qed.

Lemma Rsum_nonneg (d : nat) (f : nat → R) :
  (∀ i, (i < d)%nat → 0 <= f i) → 0 <= Rsum d f.
Proof.
  induction d as [|d IH]; intros H; simpl; [lra|].
  pose proof (IH ltac:(intros; apply H; lia)). pose proof (H d ltac:(lia)). lra.
Qed.

Lemma Rsum_zero_terms (d : nat) (f : nat → R) :
  (∀ i, (i < d)%nat → 0 <= f i) → Rsum d f = 0 → ∀ i, (i < d)%nat → f i = 0.
Proof.
  induction d as [|d IH]; intros H Hz i Hi; [lia|]. simpl in Hz.
  pose proof (Rsum_nonneg d f ltac:(intros; apply H; lia)) as Hs.
  pose proof (H d ltac:(lia)) as Hd.
  destruct (decide (i = d)) as [->|Hne]; [lra|].
  apply IH; [intros; apply H; lia|lra|lia].
Qed.

(** The denominator of the naive prior is the squared distance of [Q] from
    the multiple of the identity with the same trace. *)
Lemma naive_denominator_squares (d : nat) (Q : list (list R)) :
  is_matrix (FL := R_float) d d Q → (0 < d)%nat →
  naive_denominator (FL := R_float) Q
  = Rsum d (fun i => Rsum d (fun j =>
      (entry (FL := R_float) Q i j - np_trace (FL := R_float) Q / INR d * delta i j)
      * (entry (FL := R_float) Q i j - np_trace (FL := R_float) Q / INR d * delta i j))).
Proof.
  intros HQ Hd. assert (INR d ≠ 0) as HdR by (apply not_0_INR; lia).
  unfold naive_denominator. cbv zeta.
  assert (nrows (FL := R_float) Q = d) as -> by (by destruct HQ).
  rewrite (fro_norm_squared_transpose d Q HQ Hd).
  cbn [fmul fdiv fsub of_int R_float]. rewrite <- INR_IZR_INZ.
  set (tr := np_trace (FL := R_float) Q).
  set (m := tr / INR d).
  rewrite (Rsum_ext d (fun i => Rsum d (fun j => (_ - m * delta i j) * _))
             (fun i => Rsum d (fun j => entry (FL := R_float) Q i j * entry (FL := R_float) Q i j)
                       + (-2 * m * entry (FL := R_float) Q i i + m * m))).
  - rewrite Rsum_plus, Rsum_plus, Rsum_mult_l, Rsum_const.
    rewrite <- (np_trace_square d Q HQ). fold tr. unfold m.
    cbv [float R_float] in *. field. done.
  - intros i Hi.
    rewrite (Rsum_ext d _ (fun j => entry (FL := R_float) Q i j * entry (FL := R_float) Q i j
                                    + (-2 * m * entry (FL := R_float) Q i j + m * m) * delta j i)).
    + rewrite Rsum_plus, Rsum_delta_r by done. done.
    + intros j Hj. unfold delta. cbv [float R_float] in *.
      destruct (decide (i = j)), (decide (j = i)); try congruence; subst; ring.
Qed.

(** It vanishes exactly on the multiples of the identity. *)
Lemma naive_denominator_zero_iff (d : nat) (Q : list (list R)) :
  is_matrix (FL := R_float) d d Q → (0 < d)%nat →
  naive_denominator (FL := R_float) Q = 0
  ↔ ∃ c, ∀ i j, (i < d)%nat → (j < d)%nat → entry (FL := R_float) Q i j = c * delta i j.
Proof.
  intros HQ Hd. assert (INR d ≠ 0) as HdR by (apply not_0_INR; lia). split.
  - intros Hz. rewrite (naive_denominator_squares d Q HQ Hd) in Hz.
    exists (np_trace (FL := R_float) Q / INR d). intros i j Hi Hj.
    assert (∀ x : R, 0 <= x * x) as Hsq by (intros x; nra).
    pose proof (Rsum_zero_terms d _
                  ltac:(intros k Hk; apply Rsum_nonneg; intros l Hl; apply Hsq) Hz i Hi) as Hrow.
    pose proof (Rsum_zero_terms d _ ltac:(intros l Hl; apply Hsq) Hrow j Hj) as Hcell.
    simpl in Hcell. apply Rminus_diag_uniq. by apply Rmult_integral in Hcell as [H|H].
  - intros [c Hc]. rewrite (naive_denominator_squares d Q HQ Hd).
    assert (np_trace (FL := R_float) Q = INR d * c) as Htr.
    { rewrite (np_trace_square d Q HQ). rewrite (Rsum_ext d _ (fun _ => c)).
      - apply Rsum_const.
      - intros k Hk. rewrite Hc by done. unfold delta. rewrite decide_True by done. lra. }
    rewrite (Rsum_ext d _ (fun _ => 0)); [apply Rsum_0|].
    intros i Hi. rewrite (Rsum_ext d _ (fun _ => 0)); [apply Rsum_0|].
    intros j Hj. rewrite Hc, Htr by done. cbv [float R_float] in *. field. done.
Qed.

(** X10: in exact arithmetic and where [olse] divides by no zero, its estimate
    keeps the part of the inverted [S] along the prior, scaled by [1 - d/n]:
    with no prior the trace of the estimate is [(1 - d/n)] times the trace of
    the inverse, and with a prior [P] the sum of the cells of [E * P] is
    [(1 - d/n)] times that of [S^-1 * P]. *)
Theorem olse_keeps_prior_component (d : nat) (S Q : list (list R)) (o : option (list R)) (n : Z) :
  is_matrix (FL := R_float) d d S → (0 < d)%nat → n ≠ 0%Z →
  invert_normal_params (FL := R_float) S None false = Ok (Q, o) →
  (naive_denominator (FL := R_float) Q ≠ 0 →
   ∃ E, olse (FL := R_float) S n None = Ok E ∧
        np_trace (FL := R_float) E = (1 - INR d / IZR n) * np_trace (FL := R_float) Q) ∧
  (∀ P, is_matrix (FL := R_float) d d P →
        fro_norm_squared (FL := R_float) (transpose (FL := R_float) P) ≠ 0 →
        prior_denominator (FL := R_float) Q P ≠ 0 →
        ∃ E, olse (FL := R_float) S n (Some P) = Ok E ∧
             fsum (Float64 := R_float) (concat (zip_matrix (FL := R_float) fmul E P))
             = (1 - INR d / IZR n)
               * fsum (Float64 := R_float) (concat (zip_matrix (FL := R_float) fmul Q P))).
Proof.
  intros HS Hd Hn Hinv.
  pose proof (invert_normal_params_shape (FL := R_float) d d S Q None o false HS Hinv) as HQ.
  assert (INR d ≠ 0) as HdR by (apply not_0_INR; lia).
  assert (nrows (FL := R_float) S = d) as HnS by (by destruct HS).
  assert (ncols (FL := R_float) Q = d) as HcQ by (by apply (is_matrix_ncols (FL := R_float) d d)).
  split.
  - intros _. unfold olse. rewrite Hinv. cbn [mbind result_bind]. unfold int_true_divide.
    rewrite (proj2 (Z.eqb_neq n 0)) by done. cbn [mbind result_bind].
    eexists. split; [done|].
    rewrite (np_trace_square d) by (by apply add_at_stride_is_matrix, scale_is_matrix).
    rewrite (np_trace_square d Q) by done.
    set (tr := Rsum d (fun k => entry (FL := R_float) Q k k)).
    rewrite HnS. cbn [fmul fdiv fsub fadd of_int R_float]. rewrite <- !INR_IZR_INZ.
    set (alpha := 1 - (INR d + tr * tr / _) / IZR n).
    set (beta := tr * (1 - INR d / IZR n - alpha)).
    rewrite (Rsum_ext d _ (fun k => entry (FL := R_float) Q k k * alpha + beta / INR d)).
    2:{ intros k Hk.
        rewrite (entry_add_at_diagonal (FL := R_float) d)
          by (done || by apply (scale_is_matrix (FL := R_float))).
        rewrite decide_True by done. unfold scale.
        rewrite (entry_map_matrix (FL := R_float) d d) by done. reflexivity. }
    rewrite Rsum_plus, Rsum_mult_r, Rsum_const. fold tr. unfold beta.
    cbv [float R_float] in *. field. split; [by apply not_0_IZR|done].
  - intros P HP Hf2p _. unfold olse. rewrite Hinv. cbn [mbind result_bind].
    rewrite (elementwise_ok (FL := R_float) d d) by done. cbn [mbind result_bind].
    unfold int_true_divide. rewrite (proj2 (Z.eqb_neq n 0)) by done. cbn [mbind result_bind].
    eexists. split; [done|].
    rewrite HnS. cbn [fmul fdiv fsub fadd of_int R_float]. rewrite <- !INR_IZR_INZ.
    rewrite (fro_norm_squared_transpose d P HP Hd) in *.
    set (f2p := Rsum d (fun i => Rsum d (fun j => entry (FL := R_float) P i j * entry (FL := R_float) P i j))) in *.
    set (trSP := fsum (Float64 := R_float) (concat (zip_matrix (FL := R_float) Rmult Q P))).
    set (tr := np_trace (FL := R_float) Q).
    set (f2 := fro_norm_squared (FL := R_float) (transpose (FL := R_float) Q)).
    set (alpha := 1 - (INR d + tr * tr * f2p / (f2 * f2p - trSP * trSP)) / IZR n).
    set (beta := trSP / f2p * (1 - INR d / IZR n - alpha)).
    assert (trSP = Rsum d (fun i => Rsum d (fun j =>
              entry (FL := R_float) Q i j * entry (FL := R_float) P i j))) as HtrSP.
    { unfold trSP.
      rewrite (fsum_concat d d) by (by apply (zip_matrix_is_matrix (FL := R_float))).
      apply Rsum_ext. intros i Hi. apply Rsum_ext. intros j Hj.
      by rewrite (entry_zip_matrix (FL := R_float) d d) by done. }
    rewrite (fsum_concat d d).
    2:{ apply (zip_matrix_is_matrix (FL := R_float)); [|done].
        apply (zip_matrix_is_matrix (FL := R_float));
          [by apply (scale_is_matrix (FL := R_float))
          |by apply (map_matrix_is_matrix (FL := R_float))]. }
    rewrite (Rsum_ext d _ (fun i =>
               alpha * Rsum d (fun j => entry (FL := R_float) Q i j * entry (FL := R_float) P i j)
               + beta * Rsum d (fun j => entry (FL := R_float) P i j * entry (FL := R_float) P i j))).
    2:{ intros i Hi. rewrite <- !Rsum_mult_l, <- Rsum_plus. apply Rsum_ext. intros j Hj.
        rewrite (entry_zip_matrix (FL := R_float) d d); [|
          apply (zip_matrix_is_matrix (FL := R_float));
            [by apply (scale_is_matrix (FL := R_float))
            |by apply (map_matrix_is_matrix (FL := R_float))]|done..].
        rewrite (entry_zip_matrix (FL := R_float) d d)
          by (done || by apply (scale_is_matrix (FL := R_float))
                    || by apply (map_matrix_is_matrix (FL := R_float))).
        unfold scale. rewrite !(entry_map_matrix (FL := R_float) d d) by done.
        cbn [fmul fadd R_float]. cbv [float R_float]. ring. }
    rewrite Rsum_plus, !Rsum_mult_l, <- HtrSP. fold f2p. unfold beta.
    cbv [float R_float] in *. field. split; [by apply not_0_IZR|done].
Qed.

End OlseComponent.

Section OlseErrors.

Context {FL : Float64} {LP : Lapack}.

(** X11: on a square [S], with no prior or a prior of the shape of [S], [olse]
    raises in two cases only: the error of the inversion of [S], and, when the
    inversion succeeds, [ZeroDivisionError] for [n = 0] (from the quotient
    [d/n] of two Python ints; the float divisions by [n] before it do not
    raise). *)
Theorem olse_raises_iff (d : nat) (S : matrix) (n : Z) (P : option matrix) (e : exn) :
  is_matrix d d S → (∀ P', P = Some P' → is_matrix d d P') →
  olse S n P = Raise e ↔
    invert_normal_params S None false = Raise e ∨
    (is_ok (invert_normal_params S None false) ∧ n = 0 ∧
     e = ZeroDivisionError "division by zero").
Proof.
  intros HS HP. unfold olse.
  destruct (invert_normal_params S None false) as [[Q o]|e'] eqn:Hinv; cbn [mbind result_bind].
  2:{ split; [intros [= ->]; by left|]. by intros [[= ->]|[[] _]]. }
  pose proof (invert_normal_params_shape d d S Q None o false HS Hinv) as HQ.
  unfold int_true_divide. destruct P as [P0|].
  - rewrite (elementwise_ok d d) by (done || by apply HP). cbn [mbind result_bind].
    destruct (Z.eqb_spec n 0) as [->|Hn]; cbn [mbind result_bind].
    + split; [intros [= <-]; by right|]. by intros [?|(_ & _ & ->)].
    + split; [done|]. intros [?|(_ & ? & _)]; [done|lia].
  - destruct (Z.eqb_spec n 0) as [->|Hn]; cbn [mbind result_bind].
    + split; [intros [= <-]; by right|]. by intros [?|(_ & _ & ->)].
    + split; [done|]. intros [?|(_ & ? & _)]; [done|lia].
Qed.

End OlseErrors.

(** * [get_liks]: the data of the sites *)

Lemma py_slice_inside {A : Type} (a : list A) (lo hi : Z) :
  0 <= lo <= hi → hi <= Z.of_nat (length a) →
  m1a.py_slice a lo hi = take (Z.to_nat (hi - lo)) (drop (Z.to_nat lo) a).
Proof.
  intros H1 H2. unfold m1a.py_slice, slice_bound.
  destruct (Z.ltb_spec lo 0); [lia|]. destruct (Z.ltb_spec hi 0); [lia|].
  rewrite !Z.min_l by lia. f_equal. lia.
Qed.

Lemma Zsum_take_add (l : list Z) (a b : nat) :
  Zsum (take (a + b) l) = Zsum (take a l) + Zsum (take b (drop a l)).
Proof. by rewrite <- take_take_drop, Zsum_app. Qed.

Lemma Forall_pos_chunk (l : list Z) (a b : nat) :
  Forall (fun n => 0 < n) l → Forall (fun n => 0 < n) (take b (drop a l)).
Proof. intros H. by apply Forall_take, Forall_drop. Qed.

Lemma Zsum_chunk_le (l : list Z) (a b : nat) :
  Forall (fun n => 0 < n) l → Zsum (take a l) + Zsum (take b (drop a l)) <= Zsum l.
Proof. intros H. rewrite <- Zsum_take_add. by apply Zsum_take_le. Qed.

(** The limits of a run of groups, counted from the start of the run. *)
Lemma local_limits (sizes : list Z) (first c : nat) :
  Forall (fun n => 0 < n) sizes → Zsum sizes < 2 ^ 63 → (first + c <= length sizes)%nat →
  (fun v => m1a.int64_sub v (Zsum (take first sizes)))
    <$> take (S c) (drop first (0 :: np_cumsum sizes))
  = 0 :: np_cumsum (take c (drop first sizes)).
Proof.
  intros Hpos Hsum Hlen.
  assert (length (0 :: np_cumsum sizes) = S (length sizes)) as Hl.
  { cbn [length]. unfold np_cumsum. by rewrite np_cumsum_from_length. }
  pose proof (Forall_pos_chunk sizes first c Hpos) as Hcp.
  pose proof (Zsum_chunk_le sizes first c Hpos) as Hcle.
  pose proof (Zsum_nonneg (take first sizes) (Forall_take _ _ _ Hpos)) as Hge.
  assert (length (take c (drop first sizes)) = c) as Hlc.
  { rewrite length_take, length_drop. lia. }
  apply (list_eq_same_length _ _ (S c)).
  { cbn [length]. unfold np_cumsum. rewrite np_cumsum_from_length. lia. }
  { rewrite length_fmap, length_take, length_drop. lia. }
  intros i x z Hi Hx Hz.
  rewrite list_lookup_fmap, lookup_take_lt, lookup_drop in Hx by lia.
  rewrite (np_cumsum_lookup sizes (first + i)) in Hx by (done || lia).
  rewrite (np_cumsum_lookup (take c (drop first sizes)) i) in Hz by (done || lia).
  simpl in Hx. injection Hx as <-. injection Hz as <-.
  rewrite take_take. rewrite Nat.min_l by lia.
  rewrite Zsum_take_add. unfold m1a.int64_sub.
  pose proof (Zsum_take_le (take c (drop first sizes)) i Hcp) as Hile.
  rewrite take_take, Nat.min_l in Hile by lia.
  pose proof (Zsum_nonneg (take i (drop first sizes)) (Forall_take _ _ _ (Forall_drop _ _ _ Hpos))).
  rewrite wrap64_id by (unfold int64; lia). lia.
Qed.

Section SiteLoop.

Context {FL : Float64}.
Variables (d : m1a.data) (counts : list Z).

Let sizes := nd_data (m1a.Nj d).

Hypothesis Hpos : Forall (fun n => 0 < n) sizes.
Hypothesis Hsum : Zsum sizes < 2 ^ 63.
Hypothesis Hlim : m1a.j_lim d = 0 :: np_cumsum sizes.
Hypothesis Hlen : Z.of_nat (length (m1a.j_lim d)) < 2 ^ 63.
Hypothesis HX : Z.of_nat (length (m1a.X d)) = Zsum sizes.
Hypothesis Hy : Z.of_nat (length (m1a.y d)) = Zsum sizes.
Hypothesis Hcpos : Forall (fun n => 0 < n) counts.
Hypothesis Hcsum : Zsum counts = Z.of_nat (length sizes).

(** What the loops read for site [k]. *)
Lemma site_limits (k : nat) :
  (k < length counts)%nat →
  let first := Z.to_nat (Zsum (take k counts)) in
  let c := Z.to_nat (counts !!! k) in
  let start := Zsum (take first sizes) in
  let stop := Zsum (take (first + c) sizes) in
  (first + c <= length sizes)%nat ∧ 0 < counts !!! k ∧
  Zsum (take (S k) counts) = Z.of_nat (first + c) ∧
  get_item (m1a.j_lim d) (Z.of_nat first) = Ok start ∧
  get_item (m1a.j_lim d) (Z.of_nat (first + c)) = Ok stop ∧
  0 <= start ∧ start <= stop ∧ stop <= Zsum sizes ∧
  stop - start = Zsum (take c (drop first sizes)).
Proof.
  intros Hk first c start stop.
  pose proof (Zsum_take_S counts k Hk) as HS.
  pose proof (Zsum_take_le counts (S k) Hcpos) as Hle.
  pose proof (Zsum_nonneg (take k counts) (Forall_take _ _ _ Hcpos)) as Hge.
  assert (0 < counts !!! k) as Hc by (by apply (Forall_lookup_total_1 _ counts k Hcpos)).
  assert (first + c <= length sizes)%nat as Hfc by (unfold first, c; lia).
  split; [done|]. split; [done|]. split; [unfold first, c; lia|].
  rewrite Hlim.
  split; [apply (get_item_nat _ _ first); [done|apply np_cumsum_lookup; [done|done|lia]]|].
  split; [apply (get_item_nat _ _ (first + c));
            [done|apply np_cumsum_lookup; [done|done|lia]]|].
  pose proof (Zsum_nonneg (take first sizes) (Forall_take _ _ _ Hpos)).
  pose proof (Zsum_take_le sizes (first + c) Hpos).
  pose proof (Zsum_take_add sizes first c) as Hadd. fold stop start in Hadd.
  pose proof (Zsum_nonneg (take c (drop first sizes)) (Forall_pos_chunk sizes first c Hpos)).
  unfold stop, start in *. lia.
Qed.

Lemma site_slices (k : nat) :
  (k < length counts)%nat →
  let first := Z.to_nat (Zsum (take k counts)) in
  let c := Z.to_nat (counts !!! k) in
  let start := Zsum (take first sizes) in
  let stop := Zsum (take (first + c) sizes) in
  m1a.Lik (m1a.py_slice (m1a.X d) start stop) (m1a.py_slice (m1a.y d) start stop)
    (counts !!! k) (0 :: np_cumsum (take c (drop first sizes)))
  = site_data d counts k.
Proof.
  intros Hk first c start stop.
  destruct (site_limits k Hk) as (Hfc & Hc & _ & _ & _ & H0 & H1 & H2 & H3).
  fold first c start stop in Hfc, H0, H1, H2, H3.
  rewrite !py_slice_inside by lia. unfold site_data. fold sizes first c.
  rewrite H3. done.
Qed.

Lemma merged_site_step (k : nat) (liks : list m1a._lik) :
  (k < length counts)%nat →
  (kl ← get_item (0 :: np_cumsum counts) (Z.of_nat k);
   start ← get_item (m1a.j_lim d) kl;
   kl1 ← get_item (0 :: np_cumsum counts) (Z.of_nat k + 1);
   end_ ← get_item (m1a.j_lim d) kl1;
   n ← get_item counts (Z.of_nat k);
   Ok (liks ++ [m1a.Lik (m1a.py_slice (m1a.X d) start end_) (m1a.py_slice (m1a.y d) start end_) n
                  ((fun v => m1a.int64_sub v start)
                     <$> m1a.py_slice (m1a.j_lim d) kl (int64_add kl1 1))]))
  = Ok (liks ++ [site_data d counts k]).
Proof.
  intros Hk.
  destruct (site_limits k Hk) as (Hfc & Hc & HS & Hstart & Hstop & H0 & H1 & H2 & H3).
  cbv zeta in *.
  set (first := Z.to_nat (Zsum (take k counts))) in *.
  set (c := Z.to_nat (counts !!! k)) in *.
  pose proof (Zsum_nonneg (take k counts) (Forall_take _ _ _ Hcpos)) as Hge.
  pose proof (Zsum_pos_length sizes Hpos) as HJ.
  assert (Z.of_nat (length sizes) + 1 < 2 ^ 63) as HJ1.
  { rewrite Hlim in Hlen. cbn [length] in Hlen. unfold np_cumsum in Hlen.
    rewrite np_cumsum_from_length in Hlen. lia. }
  rewrite (get_item_nat (0 :: np_cumsum counts) (Z.of_nat k) k (Zsum (take k counts)));
    [|done|apply np_cumsum_lookup; [done|lia|lia]].
  cbn [mbind result_bind].
  replace (Zsum (take k counts)) with (Z.of_nat first) at 1 by (unfold first; lia).
  rewrite Hstart. cbn [mbind result_bind].
  rewrite (get_item_nat (0 :: np_cumsum counts) (Z.of_nat k + 1) (S k) (Zsum (take (S k) counts)));
    [|lia|apply np_cumsum_lookup; [done|lia|lia]].
  cbn [mbind result_bind]. rewrite HS, Hstop. cbn [mbind result_bind].
  rewrite (get_item_total counts (Z.of_nat k) k) by done. cbn [mbind result_bind].
  do 3 f_equal. rewrite <- (site_slices k Hk). cbv zeta. fold first c. f_equal.
  rewrite int64_add_id by (unfold int64; lia).
  replace (Zsum (take k counts)) with (Z.of_nat first) by (unfold first; lia).
  rewrite py_slice_inside.
  - replace (Z.to_nat (Z.of_nat (first + c) + 1 - Z.of_nat first)) with (S c) by lia.
    rewrite Nat2Z.id, Hlim. by apply local_limits.
  - lia.
  - rewrite Hlim. cbn [length]. unfold np_cumsum. rewrite np_cumsum_from_length. lia.
Qed.

Lemma merged_sites_loop (n k0 : nat) :
  (k0 + n <= length counts)%nat →
  for_m (seqZ (Z.of_nat k0) (Z.of_nat n))
    (fun k liks =>
       kl ← get_item (0 :: np_cumsum counts) k;
       start ← get_item (m1a.j_lim d) kl;
       kl1 ← get_item (0 :: np_cumsum counts) (k + 1);
       end_ ← get_item (m1a.j_lim d) kl1;
       n ← get_item counts k;
       Ok (liks ++ [m1a.Lik (m1a.py_slice (m1a.X d) start end_)
                      (m1a.py_slice (m1a.y d) start end_) n
                      ((fun v => m1a.int64_sub v start)
                         <$> m1a.py_slice (m1a.j_lim d) kl (int64_add kl1 1))]))
    (site_data d counts <$> seq 0 k0)
  = Ok (site_data d counts <$> seq 0 (k0 + n)).
Proof.
  revert k0. induction n as [|n IH]; intros k0 Hle.
  { cbn [for_m seqZ]. by rewrite Nat.add_0_r. }
  rewrite Nat2Z.inj_succ, seqZ_cons by lia. cbn [for_m].
  rewrite merged_site_step by lia. cbn [mbind result_bind].
  replace (Z.pred (Z.succ (Z.of_nat n))) with (Z.of_nat n) by lia.
  replace (Z.succ (Z.of_nat k0)) with (Z.of_nat (S k0)) by lia.
  replace ((site_data d counts <$> seq 0 k0) ++ [site_data d counts k0])
    with (site_data d counts <$> seq 0 (S k0)) by (by rewrite seq_S, fmap_app).
  rewrite IH by lia. by replace (S k0 + n)%nat with (k0 + S n)%nat by lia.
Qed.

(** The observations of the first [m] sites are the first observations. *)
Lemma sites_cover_prefix (m : nat) :
  (m <= length counts)%nat →
  let stop := Z.to_nat (Zsum (take (Z.to_nat (Zsum (take m counts))) sizes)) in
  concat (m1a.lik_X <$> (site_data d counts <$> seq 0 m)) = take stop (m1a.X d) ∧
  concat (m1a.lik_y <$> (site_data d counts <$> seq 0 m)) = take stop (m1a.y d).
Proof.
  induction m as [|m IH]; intros Hm stop.
  { unfold stop. cbn [take]. change (Zsum []) with 0. cbn [Z.to_nat take]. done. }
  destruct (IH ltac:(lia)) as [IHX IHy]. cbv zeta in IHX, IHy.
  destruct (site_limits m ltac:(lia)) as (Hfc & Hc & HS & _ & _ & H0 & H1 & H2 & H3).
  cbv zeta in *.
  set (first := Z.to_nat (Zsum (take m counts))) in *.
  set (c := Z.to_nat (counts !!! m)) in *.
  assert (stop = (Z.to_nat (Zsum (take first sizes))
                  + Z.to_nat (Zsum (take c (drop first sizes))))%nat) as ->.
  { unfold stop. rewrite HS, Nat2Z.id. lia. }
  rewrite seq_S, !fmap_app, !concat_app, IHX, IHy. cbn [fmap list_fmap concat]. 
  rewrite !app_nil_r. unfold site_data. fold sizes first c. cbn [m1a.lik_X m1a.lik_y].
  by rewrite !take_take_drop.
Qed.

End SiteLoop.

Lemma Zsum_take_ones (J k : nat) : (k <= J)%nat → Zsum (take k (replicate J 1)) = Z.of_nat k.
Proof. intros H. rewrite take_replicate, Zsum_replicate, Nat.min_l by done. lia. Qed.

Section GetLiksSpec.

Context {FL : Float64}.

Lemma single_sites_loop (d : m1a.data) (n k0 : nat) :
  let sizes := nd_data (m1a.Nj d) in
  let ones := replicate (length sizes) 1 in
  Forall (fun n => 0 < n) sizes → Zsum sizes < 2 ^ 63 →
  m1a.j_lim d = 0 :: np_cumsum sizes → Z.of_nat (length (m1a.j_lim d)) < 2 ^ 63 →
  Z.of_nat (length (m1a.X d)) = Zsum sizes → Z.of_nat (length (m1a.y d)) = Zsum sizes →
  (k0 + n <= length sizes)%nat →
  for_m (seqZ (Z.of_nat k0) (Z.of_nat n))
    (fun k liks =>
       start ← get_item (m1a.j_lim d) k;
       end_ ← get_item (m1a.j_lim d) (k + 1);
       Ok (liks ++ [m1a.Lik (m1a.py_slice (m1a.X d) start end_)
                      (m1a.py_slice (m1a.y d) start end_) 1 [0; m1a.int64_sub end_ start]]))
    (site_data d ones <$> seq 0 k0)
  = Ok (site_data d ones <$> seq 0 (k0 + n)).
Proof.
  intros sizes ones Hpos Hsum Hlim Hlen HX Hy.
  assert (Forall (fun n => 0 < n) ones) as Hopos by (apply Forall_replicate; lia).
  assert (Zsum ones = Z.of_nat (length sizes)) as Hosum
    by (unfold ones; rewrite Zsum_replicate; lia).
  assert (length ones = length sizes) as Holen by (unfold ones; by rewrite length_replicate).
  revert k0. induction n as [|n IH]; intros k0 Hle.
  { cbn [for_m seqZ]. by rewrite Nat.add_0_r. }
  rewrite Nat2Z.inj_succ, seqZ_cons by lia. cbn [for_m].
  destruct (site_limits d ones Hpos Hsum Hlim Hopos Hosum k0 ltac:(lia))
    as (Hfc & Hc & HS & Hstart & Hstop & H0 & H1 & H2 & H3).
  pose proof (site_slices d ones Hpos Hsum Hlim HX Hy Hopos Hosum k0 ltac:(lia)) as Hsl.
  cbv zeta in Hfc, HS, Hstart, Hstop, H0, H1, H2, H3, Hsl.
  fold sizes ones in Hfc, HS, Hstart, Hstop, H0, H1, H2, H3, Hsl.
  assert (ones !!! k0 = 1) as Hone by (unfold ones; apply lookup_total_replicate_2; lia).
  assert (Z.to_nat (Zsum (take k0 ones)) = k0) as Hfirst
    by (unfold ones; rewrite Zsum_take_ones by lia; lia).
  rewrite Hone, Hfirst in Hfc, Hstop, H1, H2, H3, Hsl.
  rewrite Hfirst in Hstart, H0.
  change (Z.to_nat 1) with 1%nat in *.
  rewrite Hstart. cbn [mbind result_bind].
  replace (Z.of_nat k0 + 1) with (Z.of_nat (k0 + 1)) by lia.
  rewrite Hstop. cbn [mbind result_bind].
  assert ([0; m1a.int64_sub (Zsum (take (k0 + 1) sizes)) (Zsum (take k0 sizes))]
          = 0 :: np_cumsum (take 1 (drop k0 sizes))) as ->.
  { destruct (drop k0 sizes) as [|x rest] eqn:Hd.
    { apply (f_equal length) in Hd. rewrite length_drop in Hd. simpl in Hd. lia. }
    change (take 1 (x :: rest)) with [x] in *.
    rewrite Zsum_cons in H3. change (Zsum []) with 0 in H3.
    unfold np_cumsum. cbn [np_cumsum_from]. unfold m1a.int64_sub. rewrite H3.
    assert (0 < x) as Hx.
    { pose proof (Forall_drop _ k0 _ Hpos) as Hdp. rewrite Hd in Hdp. by inversion Hdp. }
    rewrite Z.add_0_r, wrap64_id, int64_add_id by (unfold int64; lia). done. }
  rewrite Hsl.
  replace (Z.pred (Z.succ (Z.of_nat n))) with (Z.of_nat n) by lia.
  replace (Z.succ (Z.of_nat k0)) with (Z.of_nat (S k0)) by lia.
  replace ((site_data d ones <$> seq 0 k0) ++ [site_data d ones k0])
    with (site_data d ones <$> seq 0 (S k0)) by (by rewrite seq_S, fmap_app).
  rewrite IH by lia. by replace (S k0 + n)%nat with (k0 + S n)%nat by lia.
Qed.

(** The sites [get_liks] forms for [2 <= K <= J]. *)
Lemma get_liks_sites (J K : Z) (d : m1a.data) :
  data_ok J d → 2 <= K <= J →
  ∃ counts,
    (if K <? J
     then ∃ Nk jk, distribute_groups J K (NjArr (m1a.Nj d))
                     = Ok (Sites Nk (Some counts) (Some jk))
     else counts = replicate (Z.to_nat J) 1) ∧
    Z.of_nat (length counts) = K ∧ Forall (fun c => 0 < c) counts ∧
    Zsum counts = J ∧
    m1a.get_liks J K d = Ok (site_data d counts <$> seq 0 (Z.to_nat K)).
Proof.
  intros (Hwf & Hshape & Hpos & Hlim & Hlen & HN & HX & Hy) HK. cbv zeta in *.
  set (sizes := nd_data (m1a.Nj d)) in *.
  pose proof (sizes_of_length J (NjArr (m1a.Nj d)) Hwf Hshape) as HJ.
  change (sizes_of J (NjArr (m1a.Nj d))) with sizes in HJ.
  assert (Zsum sizes < 2 ^ 63) as Hsum by (by destruct Hwf as (_ & _ & ?)).
  pose proof (Zsum_pos_length sizes Hpos) as HJN.
  assert (valid_input J K (NjArr (m1a.Nj d))) as Hv.
  { split; [done|]. split; [done|]. split; [done|].
    change (sizes_of J (NjArr (m1a.Nj d))) with sizes. lia. }
  unfold m1a.get_liks. destruct (Z.ltb_spec K 2); [lia|].
  destruct (Z.ltb_spec K J) as [HKJ|HKJ].
  - rewrite distribute_groups_valid by done. cbv zeta.
    change (sizes_of J (NjArr (m1a.Nj d))) with sizes.
    destruct (Z.ltb_spec K J); [|lia].
    rewrite merge_groups_full by (done || lia).
    set (gs := reference_sites K sizes).
    assert (length gs = Z.to_nat K) as Hgs.
    { unfold gs, reference_sites. apply reference_merge_length; rewrite ?length_fmap; lia. }
    destruct (reference_merge_inv (length sizes) (Z.to_nat K) ((fun n => (n, 1)) <$> sizes))
      as ([_ Hp2] & _ & Hs2).
    { by apply initial_groups_ok. }
    fold (reference_sites K sizes) in Hp2, Hs2. fold gs in Hp2, Hs2.
    rewrite initial_groups_snd, Zsum_replicate in Hs2.
    exists (gs.*2). split; [by eexists _, _|].
    rewrite length_fmap. split; [lia|]. split; [done|]. split; [lia|].
    cbn [mbind result_bind per_site m1a.as_array]. unfold py_range.
    pose proof (merged_sites_loop d (gs.*2) Hpos Hsum Hlim Hlen HX Hy Hp2 ltac:(fold sizes; lia)
                  (Z.to_nat K) 0 ltac:(rewrite length_fmap; lia)) as Hloop.
    rewrite Z2Nat.id in Hloop by lia. exact Hloop.
  - assert (K = J) as -> by lia. rewrite Z.eqb_refl.
    exists (replicate (Z.to_nat J) 1). split; [done|].
    rewrite length_replicate, Zsum_replicate. split; [lia|].
    split; [apply Forall_replicate; lia|]. split; [lia|].
    unfold py_range.
    pose proof (single_sites_loop d (Z.to_nat J) 0 Hpos Hsum Hlim Hlen HX Hy
                  ltac:(fold sizes; lia)) as Hloop.
    cbv zeta in Hloop. fold sizes in Hloop.
    rewrite Z2Nat.id in Hloop by lia.
    replace (length sizes) with (Z.to_nat J) in Hloop by lia. exact Hloop.
Qed.

(** X12: for [2 <= K <= J], [get_liks] cuts the observations of well-formed
    data into [K] sites, in their order and without losing or repeating any:
    site [k] gets the rows of [X] and the entries of [y] of its groups (the
    groups [distribute_groups] gives it, or group [k] alone when [K = J]),
    the number of its groups, and their limits counted from the start of the
    site; put back together, the sites give [X] and [y]. *)
Theorem get_liks_partition (J K : Z) (d : m1a.data) :
  data_ok J d → 2 <= K <= J →
  ∃ counts,
    (if K <? J
     then ∃ Nk jk, distribute_groups J K (NjArr (m1a.Nj d))
                     = Ok (Sites Nk (Some counts) (Some jk))
     else counts = replicate (Z.to_nat J) 1) ∧
    let liks := site_data d counts <$> seq 0 (Z.to_nat K) in
    m1a.get_liks J K d = Ok liks ∧
    concat (m1a.lik_X <$> liks) = m1a.X d ∧
    concat (m1a.lik_y <$> liks) = m1a.y d.
Proof.
  intros Hd HK. destruct (get_liks_sites J K d Hd HK) as (counts & Hc & Hlen & Hpos & Hsum & Hl).
  exists counts. split; [exact Hc|]. intros liks. split; [exact Hl|].
  destruct Hd as (Hwf & Hshape & Hspos & Hlim & Hjl & HN & HX & Hy). cbv zeta in *.
  set (sizes := nd_data (m1a.Nj d)) in *.
  pose proof (sizes_of_length J (NjArr (m1a.Nj d)) Hwf Hshape) as HJ.
  change (sizes_of J (NjArr (m1a.Nj d))) with sizes in HJ.
  assert (Zsum sizes < 2 ^ 63) as Hbound by (by destruct Hwf as (_ & _ & ?)).
  destruct (sites_cover_prefix d counts Hspos Hbound Hlim Hpos ltac:(fold sizes; lia)
              (Z.to_nat K) ltac:(lia)) as [HcX Hcy].
  cbv zeta in HcX, Hcy. fold sizes in HcX, Hcy.
  assert (Z.to_nat K = length counts) as HKc by lia.
  unfold liks. rewrite HKc in *.
  rewrite firstn_all, Hsum in HcX, Hcy.
  replace (Z.to_nat J) with (length sizes) in HcX, Hcy by lia.
  rewrite firstn_all in HcX, Hcy.
  rewrite HcX, Hcy.
  split; apply take_ge; lia.
Qed.

(** X13: on well-formed data [get_liks] returns exactly for [2 <= K <= J]; it
    refuses every other [K] with a [ValueError], also [J < K <= N], which
    [distribute_groups] would serve by splitting groups. *)
Theorem get_liks_returns_iff (J K : Z) (d : m1a.data) :
  data_ok J d →
  (is_ok (m1a.get_liks J K d) ↔ 2 <= K <= J) ∧
  (¬ 2 <= K <= J → is_value_error (m1a.get_liks J K d)) ∧
  (J < K <= m1a.N d → is_ok (distribute_groups J K (NjArr (m1a.Nj d)))).
Proof.
  intros Hd.
  assert (¬ 2 <= K <= J → is_value_error (m1a.get_liks J K d)) as Herr.
  { intros HK. unfold m1a.get_liks. destruct (Z.ltb_spec K 2); [done|].
    destruct (Z.ltb_spec K J); [lia|]. destruct (Z.eqb_spec K J); [lia|].
    by destruct (K <=? m1a.N d). }
  split; [|split; [done|]].
  - split.
    + intros Hok. destruct (decide (2 <= K <= J)) as [|Hn]; [done|].
      specialize (Herr Hn). by destruct (m1a.get_liks J K d) as [|[]].
    + intros HK. by destruct (get_liks_sites J K d Hd HK) as (counts & _ & _ & _ & _ & ->).
  - intros HK. destruct Hd as (Hwf & Hshape & Hspos & Hlim & Hjl & HN & HX & Hy).
    cbv zeta in *.
    pose proof (sizes_of_length J (NjArr (m1a.Nj d)) Hwf Hshape) as HJ.
    assert (valid_sizes (sizes_of J (NjArr (m1a.Nj d)))) as Hvs
      by (split; [done|by destruct Hwf as (_ & _ & ?)]).
    pose proof (Zsum_pos_length _ Hspos) as HJN.
    change (sizes_of J (NjArr (m1a.Nj d))) with (nd_data (m1a.Nj d)) in *.
    assert (2 <= K).
    { destruct Hwf as (? & _). destruct (nd_data (m1a.Nj d)) as [|? ?] eqn:E.
      - change (Zsum []) with 0 in *. lia.
      - simpl in HJ. lia. }
    rewrite distribute_groups_valid.
    2:{ split; [done|]. split; [done|]. split; [done|].
        change (sizes_of J (NjArr (m1a.Nj d))) with (nd_data (m1a.Nj d)). lia. }
    cbv zeta. destruct (Z.ltb_spec K J); [lia|]. destruct (Z.eqb_spec K J); [lia|].
    change (sizes_of J (NjArr (m1a.Nj d))) with (nd_data (m1a.Nj d)).
    by destruct (split_groups_spec J K (nd_data (m1a.Nj d))) as (ppg & -> & _);
      [done|lia|lia|].
Qed.

End GetLiksSpec.

(** ** The further properties at concrete inputs *)

Lemma distribute_groups_sites_are_runs_witness :
  ∃ Nk Nj_k jk,
    distribute_groups (FL := Q_float) 5 3 (NjArr (NdArray [5] [10; 10; 10; 10; 10]))
      = Ok (Sites Nk (Some Nj_k) (Some jk)) ∧
    Z.of_nat (length Nk) = 3 ∧ Z.of_nat (length Nj_k) = 3 ∧
    Forall (fun c => 0 < c) Nj_k ∧
    ∀ k, (k < length Nj_k)%nat →
      Nk !! k = Some (Zsum (take (Z.to_nat (Nj_k !!! k))
                              (drop (Z.to_nat (Zsum (take k Nj_k))) [10; 10; 10; 10; 10]))).
Proof.
  apply (distribute_groups_sites_are_runs (FL := Q_float) 5 3
           (NjArr (NdArray [5] [10; 10; 10; 10; 10])) valid_input_example_merge).
  lia.
Defined.

Lemma distribute_groups_within_site_index_witness :
  ∃ Nk Nj_k jk,
    distribute_groups (FL := Q_float) 5 3 (NjArr (NdArray [5] [10; 10; 10; 10; 10]))
      = Ok (Sites Nk (Some Nj_k) (Some jk)) ∧
    Z.of_nat (length jk) = Zsum [10; 10; 10; 10; 10] ∧
    ∀ (k : nat) (ji s : Z),
      (k < length Nj_k)%nat → 0 <= ji < Nj_k !!! k →
      let g := Z.to_nat (Zsum (take k Nj_k) + ji) in
      0 <= s < [10; 10; 10; 10; 10] !!! g →
      jk !! Z.to_nat (Zsum (take g [10; 10; 10; 10; 10]) + s) = Some (wrap32 ji) ∧
      (5 <= 2 ^ 31 → wrap32 ji = ji).
Proof.
  apply (distribute_groups_within_site_index (FL := Q_float) 5 3
           (NjArr (NdArray [5] [10; 10; 10; 10; 10])) valid_input_example_merge).
  lia.
Defined.

Lemma distribute_groups_splits_each_group_witness :
  ∃ Nk Nk_j,
    distribute_groups (FL := Q_float) 2 5 (NjArr (NdArray [2] [12; 3]))
      = Ok (Sites Nk (Some Nk_j) None) ∧
    Z.of_nat (length Nk) = 5 ∧ Z.of_nat (length Nk_j) = 2 ∧
    ∀ j : nat, (j < length Nk_j)%nat →
      let n := [12; 3] !!! j in
      let p := Nk_j !!! j in
      1 <= p ∧
      (∀ a, 0 <= a < p →
         Nk !! site_index Nk_j j a = Some (n / p + (if a <? n mod p then 1 else 0))) ∧
      Zsum (take (Z.to_nat p) (drop (site_index Nk_j j 0) Nk)) = n.
Proof.
  apply (distribute_groups_splits_each_group (FL := Q_float) 2 5
           (NjArr (NdArray [2] [12; 3])) valid_input_example_split).
  lia.
Defined.

Lemma distribute_groups_no_empty_site_witness :
  ∃ out, distribute_groups (FL := Q_float) 2 5 (NjArr (NdArray [2] [12; 3])) = Ok out ∧
         Forall (fun n => 1 <= n) (Nk out).
Proof.
  exact (distribute_groups_no_empty_site 2 5 (NjArr (NdArray [2] [12; 3]))
           valid_input_example_split).
Defined.

(** A call on two samples of one dimension that takes the control variate
    path with a single control variate. *)
Lemma cv_moments_example_returns (max_a m_treshold : option R) (ret_a : bool) :
  use_sample_estimates (FL := R_float) m_treshold [[0%R]; [2%R]] [1%R] = false →
  ∃ out st,
    cv_moments (FL := R_float) (LP := Lapack_1) [[0%R]; [2%R]] [0%R; 0%R] [[1%R]] [1%R]
      (Some [[1%R]]) (Some [1%R]) (Some 0%R) false None max_a m_treshold ret_a = Ok (out, st).
Proof.
  intros Hno.
  destruct (cv_moments_cases (FL := R_float) (LP := Lapack_1)
              [[0%R]; [2%R]] [0%R; 0%R] [[1%R]] [1%R] (Some [[1%R]]) (Some [1%R]) (Some 0%R)
              false None max_a m_treshold ret_a None [[1%R]] [1%R]
              (tilde_parameters_given _ _ _ _ _)) as (dev & pr & Heq).
  rewrite Hno in Heq.
  destruct (is_ok_inv _ (control_variate_estimates_single_ok (FL := R_float) (LP := Lapack_1)
              [[0%R]; [2%R]] [0%R; 0%R] [[1%R]] [1%R] dev pr
              (CvOptions (FL := R_float) false None max_a) ret_a eq_refl)) as [[out st] Hok].
  exists out, st. by rewrite Heq.
Qed.

Lemma cv_moments_without_treshold_witness :
  ∃ out st,
    cv_moments (FL := R_float) (LP := Lapack_1) [[0%R]; [2%R]] [0%R; 0%R] [[1%R]] [1%R]
      (Some [[1%R]]) (Some [1%R]) (Some 0%R) false None None None false = Ok (out, st) ∧
    treshold_exceeded out = true ∧ st = ([[0%R]; [2%R]], [0%R; 0%R]).
Proof.
  destruct (cv_moments_example_returns None None false eq_refl) as (out & st & Hcall).
  exists out, st. split; [exact Hcall|].
  exact (cv_moments_without_treshold (FL := R_float) (LP := Lapack_1)
           [[0%R]; [2%R]] [0%R; 0%R] [[1%R]] [1%R] (Some [[1%R]]) (Some [1%R]) (Some 0%R)
           false None None None false out st (or_introl eq_refl) Hcall).
Defined.

Lemma cv_moments_factorisation_error_witness :
  cv_moments (FL := R_float) (LP := Lapack_1) [[0%R]; [2%R]] [0%R; 0%R] [[(-1)%R]] [1%R]
    None None None true None None None false
  = Raise (LinAlgError "1-th leading minor of the array is not positive definite").
Proof.
  apply (cv_moments_factorisation_error (FL := R_float) (LP := Lapack_1)).
  - by left.
  - cbn [cho_factor Lapack_1]. unfold cho_factor_1. rewrite decide_False by lra. done.
Defined.

Lemma cv_moments_computes_missing_parameters_witness :
  ∃ St mt,
    invert_normal_params (FL := R_float) (LP := Lapack_1) [[4%R]] (Some [2%R]) false
      = Ok (St, Some mt) ∧
    cv_moments (FL := R_float) (LP := Lapack_1) [[0%R]; [2%R]] [0%R; 0%R] [[4%R]] [2%R]
      None None None true None None None false
    = cv_moments (FL := R_float) (LP := Lapack_1) [[0%R]; [2%R]] [0%R; 0%R] [[4%R]] [2%R]
        (Some St) (Some mt) None true None None None false.
Proof.
  destruct (invert_normal_params_exact (LP := Lapack_1) 1 [[4%R]] [2%R]
              Lapack_1_exact spd_example eq_refl) as (St & mt & Hinv & _).
  exists St, mt. split; [exact Hinv|].
  exact (proj1 (cv_moments_computes_missing_parameters (FL := R_float) (LP := Lapack_1)
                  [[0%R]; [2%R]] [0%R; 0%R] [[4%R]] [2%R] None true None None None false
                  St mt Hinv)).
Defined.

Lemma cv_estim_max_a_bounds_witness :
  ∃ out a,
    cv_estim (FL := R_float) (LP := Lapack_1) [[1%R]; [3%R]] [[1%R]; [3%R]] [1%R]
      (CvOptions (FL := R_float) false None (Some 1%R)) 2 1 0 0 = Ok (out, a) ∧
    Forall (fun x => (- 1 <= x <= 1)%R) (coef_entries (FL := R_float) a).
Proof.
  destruct (is_ok_inv _ (cv_estim_single_ok (FL := R_float) (LP := Lapack_1)
              [[1%R]; [3%R]] [[1%R]; [3%R]] [1%R]
              (CvOptions (FL := R_float) false None (Some 1%R)) 2 1 0 0 eq_refl))
    as [[out a] Hcall].
  exists out, a. split; [exact Hcall|].
  apply (cv_estim_max_a_bounds (LP := Lapack_1) [[1%R]; [3%R]] [[1%R]; [3%R]] [1%R]
           false None 1%R 2 1 0 0 out a); [lra|done| |exact Hcall].
  intros _. unfold control_variances, col_sums, column, map_matrix, sub_rows, ncols. cbn.
  repeat constructor. lra.
Defined.

Lemma olse_keeps_prior_component_witness :
  (∃ E, olse (FL := R_float) (LP := Lapack_2) S_example 10 None = Ok E ∧
        np_trace (FL := R_float) E
        = ((1 - INR 2 / IZR 10) * np_trace (FL := R_float) Q_example)%R) ∧
  (∃ E, olse (FL := R_float) (LP := Lapack_2) S_example 10 (Some P_example) = Ok E ∧
        fsum (Float64 := R_float) (concat (zip_matrix (FL := R_float) fmul E P_example))
        = ((1 - INR 2 / IZR 10)
           * fsum (Float64 := R_float)
               (concat (zip_matrix (FL := R_float) fmul Q_example P_example)))%R).
Proof.
  destruct (olse_keeps_prior_component (LP := Lapack_2) 2 S_example Q_example None 10
              S_example_is_matrix ltac:(lia) ltac:(lia) invert_normal_params_example)
    as [Hnaive Hprior].
  split.
  - apply Hnaive. rewrite (proj1 olse_example_denominators). lra.
  - apply Hprior.
    + apply is_matrix_2_2_intro.
    + unfold fro_norm_squared, transpose, tabulate, entry, nrows, ncols, P_example. cbn. lra.
    + rewrite (proj2 olse_example_denominators). lra.
Defined.

Lemma olse_raises_iff_witness :
  olse (FL := R_float) (LP := Lapack_1) [[4%R]] 0 None
    = Raise (ZeroDivisionError "division by zero") ↔
    invert_normal_params (FL := R_float) (LP := Lapack_1) [[4%R]] None false
      = Raise (ZeroDivisionError "division by zero") ∨
    (is_ok (invert_normal_params (FL := R_float) (LP := Lapack_1) [[4%R]] None false) ∧ 0 = 0 ∧
     ZeroDivisionError "division by zero" = ZeroDivisionError "division by zero").
Proof.
  apply (olse_raises_iff (FL := R_float) (LP := Lapack_1) 1 [[4%R]] 0 None).
  - split; [done|by repeat constructor].
  - by intros P' [=].
Defined.

(** Three groups of one, two and one observations. *)
Definition data_example : m1a.data (FL := Q_float) :=
  m1a.Data (FL := Q_float) [[1%Q]; [2%Q]; [3%Q]; [4%Q]] [5%Q; 6%Q; 7%Q; 8%Q]
    (NdArray [3] [1; 2; 1]) [0; 1; 3; 4] 4.

Lemma data_example_ok : data_ok (FL := Q_float) 3 data_example.
Proof.
  unfold data_ok, data_example. cbn [m1a.Nj m1a.j_lim m1a.N m1a.X m1a.y nd_data].
  split; [|split; [done|split; [repeat constructor; lia|]]].
  - split; [lia|]. split; [|vm_compute; congruence].
    split; [reflexivity|]. repeat constructor; unfold int64; lia.
  - split; [reflexivity|]. split; [vm_compute; congruence|]. by vm_compute.
Defined.

Lemma get_liks_partition_witness :
  ∃ counts,
    (if 2 <? 3
     then ∃ Nk jk, distribute_groups (FL := Q_float) 3 2 (NjArr (m1a.Nj data_example))
                     = Ok (Sites Nk (Some counts) (Some jk))
     else counts = replicate (Z.to_nat 3) 1) ∧
    let liks := site_data data_example counts <$> seq 0 (Z.to_nat 2) in
    m1a.get_liks 3 2 data_example = Ok liks ∧
    concat (m1a.lik_X <$> liks) = m1a.X data_example ∧
    concat (m1a.lik_y <$> liks) = m1a.y data_example.
Proof.
  apply (get_liks_partition (FL := Q_float) 3 2 data_example data_example_ok). lia.
Defined.

Lemma get_liks_returns_iff_witness :
  (is_ok (m1a.get_liks 3 4 data_example) ↔ 2 <= 4 <= 3) ∧
  (¬ 2 <= 4 <= 3 → is_value_error (m1a.get_liks 3 4 data_example)) ∧
  (3 < 4 <= m1a.N data_example →
   is_ok (distribute_groups (FL := Q_float) 3 4 (NjArr (m1a.Nj data_example)))).
Proof.
  exact (get_liks_returns_iff (FL := Q_float) 3 4 data_example data_example_ok).
Defined.

Example get_liks_example :
  m1a.get_liks 3 2 data_example =
  Ok [m1a.Lik (FL := Q_float) [[1%Q]; [2%Q]; [3%Q]] [5%Q; 6%Q; 7%Q] 2 [0; 1; 3];
      m1a.Lik (FL := Q_float) [[4%Q]] [8%Q] 1 [0; 1]].
Proof. vm_compute. reflexivity. Qed.

(** * [copy_fit_samples]: the copied samples *)

(** ** The indexes in F-order *)

Lemma list_bind_ext_all {A B : Type} (f g : A → list B) (l : list A) :
  (∀ x, f x = g x) → l ≫= f = l ≫= g.
Proof. intros H. induction l as [|x l IH]; [done|]. cbn. by rewrite H, IH. Qed.

Lemma list_fmap_of_bind {A B C : Type} (f : B → C) (g : A → list B) (l : list A) :
  f <$> (l ≫= g) = l ≫= (fun x => f <$> g x).
Proof. induction l as [|x l IH]; [done|]. cbn. by rewrite fmap_app, IH. Qed.

Lemma list_bind_of_bind {A B C : Type} (f : A → list B) (g : B → list C) (l : list A) :
  (l ≫= f) ≫= g = l ≫= (fun x => f x ≫= g).
Proof. induction l as [|x l IH]; [done|]. cbn. by rewrite bind_app, IH. Qed.

Lemma product_snoc (ls : list (list Z)) (l : list Z) :
  stan.product (ls ++ [l]) = t ← stan.product ls; (fun x => t ++ [x]) <$> l.
Proof.
  induction ls as [|l0 ls IH].
  - cbn. rewrite app_nil_r. induction l as [|x l IHl]; [done|]. cbn in *. by rewrite IHl.
  - cbn [app stan.product]. rewrite IH, list_bind_of_bind.
    apply list_bind_ext_all. intros x.
    rewrite list_fmap_of_bind, list_fmap_bind. apply list_bind_ext_all. intros t.
    cbn. by rewrite <- list_fmap_compose.
Qed.

(** The indexes of [d :: dims]: for every index of [dims], the first index
    runs through [range(d)]. *)
Lemma idxs_f_cons (d : Z) (dims : list Z) :
  stan.idxs_f (d :: dims) = t ← stan.idxs_f dims; (fun i => i :: t) <$> py_range d.
Proof.
  assert (stan.idxs_f dims = reverse <$> stan.product (reverse (py_range <$> dims))) as ->.
  { by destruct dims. }
  unfold stan.idxs_f. rewrite fmap_cons, reverse_cons, product_snoc.
  induction (stan.product (reverse (py_range <$> dims))) as [|t ts IH]; [done|].
  cbn [mbind list_bind fmap list_fmap]. rewrite fmap_app, IH. f_equal.
  rewrite <- list_fmap_compose. apply list_fmap_ext. intros k i _. unfold compose.
  by rewrite reverse_snoc.
Qed.

Lemma bind_blocks_lookup {A B : Type} (L : list A) (R : list B) (g : A → B → list Z)
    (k : nat) (x : list Z) :
  (t ← L; g t <$> R) !! k = Some x →
  ∃ q r t i, k = (q * length R + r)%nat ∧ L !! q = Some t ∧ R !! r = Some i ∧ x = g t i.
Proof.
  revert k. induction L as [|t L IH]; intros k Hk; [done|].
  cbn [mbind list_bind] in Hk.
  destruct (decide (k < length R)%nat) as [Hlt|Hge].
  - rewrite lookup_app_l in Hk by (by rewrite length_fmap).
    rewrite list_lookup_fmap in Hk. destruct (R !! k) as [i|] eqn:Hi; [|done].
    injection Hk as <-. exists 0%nat, k, t, i. by rewrite Nat.mul_0_l.
  - rewrite lookup_app_r in Hk by (rewrite length_fmap; lia). rewrite length_fmap in Hk.
    destruct (IH _ Hk) as (q & r & t' & i & Hkq & Hq & Hr & ->).
    exists (S q), r, t', i. split; [|done]. simpl. lia.
Qed.

Lemma bind_blocks_length {A B : Type} (L : list A) (R : list B) (g : A → B → list Z) :
  length (t ← L; g t <$> R) = (length L * length R)%nat.
Proof.
  induction L as [|t L IH]; [done|].
  cbn [mbind list_bind]. rewrite length_app, length_fmap, IH. simpl. lia.
Qed.

Lemma idxs_f_length (dims : list Z) :
  Forall (fun n => 0 <= n) dims →
  Z.of_nat (length (stan.idxs_f dims)) = foldr Z.mul 1 dims.
Proof.
  induction 1 as [|d dims Hd Hdims IH]; [done|].
  rewrite idxs_f_cons, bind_blocks_length. unfold py_range. rewrite length_seqZ.
  cbn [foldr]. lia.
Qed.

(** The rank of an index in the F-order is its position in memory. *)
Lemma idxs_f_offset (dims : list Z) (k : nat) (idxs : list Z) :
  Forall (fun n => 0 <= n) dims → stan.idxs_f dims !! k = Some idxs →
  stan.offset_f dims idxs = Z.of_nat k.
Proof.
  intros Hdims. revert k idxs. induction Hdims as [|d dims Hd Hdims IH]; intros k idxs Hk.
  { destruct k; [|done]. by injection Hk as <-. }
  rewrite idxs_f_cons in Hk.
  apply bind_blocks_lookup in Hk as (q & r & t & i & -> & Hq & Hr & ->).
  unfold py_range in *. rewrite length_seqZ.
  apply lookup_seqZ in Hr as [-> Hr]. cbn [stan.offset_f]. rewrite (IH q t Hq). lia.
Qed.

Lemma bind_blocks_lookup_2 {A B : Type} (L : list A) (R : list B) (g : A → B → list Z)
    (q r : nat) (t : A) (i : B) :
  L !! q = Some t → R !! r = Some i →
  (t ← L; g t <$> R) !! (q * length R + r)%nat = Some (g t i).
Proof.
  revert q. induction L as [|t0 L IH]; intros q Hq Hr; [done|].
  cbn [mbind list_bind]. pose proof (lookup_lt_Some _ _ _ Hr) as Hlt.
  destruct q as [|q].
  - injection Hq as ->. rewrite Nat.mul_0_l, Nat.add_0_l.
    rewrite lookup_app_l by (rewrite length_fmap; lia).
    by rewrite list_lookup_fmap, Hr.
  - rewrite lookup_app_r by (rewrite length_fmap; simpl; lia).
    rewrite length_fmap.
    replace (S q * length R + r - length R)%nat with (q * length R + r)%nat by (simpl; lia).
    by apply IH.
Qed.

Lemma offset_f_nonneg (dims idxs : list Z) :
  valid_index dims idxs → 0 <= stan.offset_f dims idxs.
Proof.
  unfold valid_index. intros H. induction H as [|i d idxs dims Hi _ IH]; [done|].
  cbn [stan.offset_f]. nia.
Qed.

(** The F-order enumeration lists the index tuples of the shape, each one at
    the rank that is its position in memory. *)
Lemma idxs_f_lookup_valid (dims : list Z) (k : nat) (idxs : list Z) :
  stan.idxs_f dims !! k = Some idxs
  ↔ valid_index dims idxs ∧ stan.offset_f dims idxs = Z.of_nat k.
Proof.
  revert k idxs. induction dims as [|d dims IH]; intros k idxs.
  { split.
    - intros Hk. destruct k; [|done]. injection Hk as <-. split; [constructor|done].
    - intros [Hv Ho]. apply Forall2_nil_inv_r in Hv as ->. cbn in Ho.
      by replace k with 0%nat by lia. }
  rewrite idxs_f_cons. unfold py_range. split.
  - intros Hk. apply bind_blocks_lookup in Hk as (q & r & t & i & -> & Hq & Hr & ->).
    rewrite length_seqZ. apply lookup_seqZ in Hr as [-> Hr].
    apply IH in Hq as [Hv Ho]. split.
    + constructor; [lia|done].
    + cbn [stan.offset_f]. rewrite Ho. lia.
  - intros [Hv Ho]. apply Forall2_cons_inv_r in Hv as (i & t & Hi & Hv & ->).
    cbn [stan.offset_f] in Ho. pose proof (offset_f_nonneg dims t Hv) as Hnn.
    assert (stan.idxs_f dims !! Z.to_nat (stan.offset_f dims t) = Some t) as Hq.
    { apply IH. split; [done|lia]. }
    assert (seqZ 0 d !! Z.to_nat i = Some i) as Hr.
    { apply lookup_seqZ. lia. }
    pose proof (bind_blocks_lookup_2 (stan.idxs_f dims) (seqZ 0 d)
                  (fun t i => i :: t) _ _ _ _ Hq Hr) as Hl.
    rewrite length_seqZ in Hl.
    by replace k with (Z.to_nat (stan.offset_f dims t) * Z.to_nat d + Z.to_nat i)%nat by nia.
Qed.

Lemma idxs_f_elem_of (dims idxs : list Z) :
  idxs ∈ stan.idxs_f dims ↔ valid_index dims idxs.
Proof.
  rewrite list_elem_of_lookup. split.
  - intros [k Hk]. by apply idxs_f_lookup_valid in Hk as [Hv _].
  - intros Hv. exists (Z.to_nat (stan.offset_f dims idxs)). apply idxs_f_lookup_valid.
    split; [done|]. pose proof (offset_f_nonneg dims idxs Hv). lia.
Qed.

Lemma write_block {A : Type} (done src : list A) (z : nat) (x : A) (base len : nat) :
  length done = base → length src = len → (len <= z)%nat →
  take base (done ++ replicate z x) ++ src ++ drop (base + len) (done ++ replicate z x)
  = (done ++ src) ++ replicate (z - len) x.
Proof.
  intros <- <- Hz. rewrite take_app_length, drop_app_ge by lia.
  rewrite drop_replicate, <- app_assoc. do 3 f_equal. lia.
Qed.

Lemma copyto_rows_block {FL : Float64} (nrow : nat) (dims : list Z) (cells src : vector)
    (lo hi : Z) (idxs : list Z) (l h : nat) :
  slice_bound nrow lo = l → slice_bound nrow hi = h → length src = (h - l)%nat →
  let base := Z.to_nat (Z.of_nat l + Z.of_nat nrow * stan.offset_f dims idxs) in
  stan.copyto_rows (stan.FArray (Z.of_nat nrow :: dims) cells) lo hi idxs src
  = stan.Return (stan.FArray (Z.of_nat nrow :: dims)
                   (take base cells ++ src ++ drop (base + (h - l)) cells)).
Proof.
  intros Hl Hh Hsrc base. unfold stan.copyto_rows. cbn [stan.shape stan.cells].
  cbn [lookup list_lookup default from_option]. unfold Datatypes.id.
  rewrite Nat2Z.id, Hl, Hh. rewrite bool_decide_eq_true_2 by done.
  cbn [stan.offset_f]. done.
Qed.

Lemma item_lookup {A : Type} (l : list A) (p : nat) (x : A) :
  l !! p = Some x → stan.item l (Z.of_nat p) = stan.Return x.
Proof.
  intros Hp. pose proof (lookup_lt_Some _ _ _ Hp) as Hlt.
  unfold stan.item, norm_index.
  destruct (Z.leb_spec 0 (Z.of_nat p)); [|lia].
  destruct (Z.ltb_spec (Z.of_nat p) (Z.of_nat (length l))); [|lia].
  by rewrite Nat2Z.id, Hp.
Qed.

Lemma key_item_lookup {A : Type} (d : gmap string A) (key : string) (x : A) :
  d !! key = Some x → stan.key_item d key = stan.Return x.
Proof. intros Hx. unfold stan.key_item. by rewrite Hx. Qed.

Section CopyLoop.

Context {FL : Float64}.
Variables (f : stan.fit) (param_name : string) (dims : list Z) (warmup niter : Z).
Hypothesis Hok : fit_ok f param_name dims warmup niter.

Let chains := stan.samples (stan.fit_sim f).
Let nspc := Z.to_nat (niter - warmup).
Let nsamp := (length chains * nspc)%nat.
Let sh := Z.of_nat nsamp :: dims.
Let block (idxs : list Z) (chain : gmap string vector) : vector :=
  drop (Z.to_nat warmup) (default [] (chain !! stan.param_name_d param_name idxs)).

Lemma chain_block_length (idxs : list Z) (chain : gmap string vector) :
  chain ∈ chains → idxs ∈ stan.idxs_f dims → length (block idxs chain) = nspc.
Proof.
  intros Hc Hi. destruct Hok as (_ & _ & _ & _ & Hw & _ & Hall).
  destruct (Hall chain idxs Hc (proj1 (idxs_f_elem_of _ _) Hi)) as (draws & Hd & Hl).
  unfold block. rewrite Hd. cbn [default from_option]. unfold Datatypes.id.
  rewrite length_drop. unfold nspc. lia.
Qed.

Lemma chain_blocks_length (idxs : list Z) (c : nat) :
  idxs ∈ stan.idxs_f dims → (c <= length chains)%nat →
  length (concat (block idxs <$> take c chains)) = (c * nspc)%nat.
Proof.
  intros Hi. induction c as [|c IH]; intros Hc; [done|].
  destruct (lookup_lt_is_Some_2 chains c) as [chain Hchain]; [lia|].
  rewrite (take_S_r _ _ _ Hchain), fmap_app, concat_app, length_app, IH by lia.
  cbn [fmap list_fmap concat]. rewrite app_nil_r, chain_block_length; [lia| |done].
  by apply list_elem_of_lookup_2 with c.
Qed.

Lemma kept_draws_length (idxs : list Z) :
  idxs ∈ stan.idxs_f dims → length (kept_draws f param_name warmup idxs) = nsamp.
Proof.
  intros Hi. pose proof (chain_blocks_length idxs (length chains) Hi ltac:(lia)) as H.
  by rewrite firstn_all in H.
Qed.

Lemma copy_chain_step (k c : nat) (idxs : list Z) (chain : gmap string vector)
    (pre : vector) (z : nat) :
  stan.idxs_f dims !! k = Some idxs → chains !! c = Some chain →
  length pre = (k * nsamp + c * nspc)%nat → (nspc <= z)%nat →
  (chain ← stan.item chains (Z.of_nat c);
   draws ← stan.key_item chain (stan.param_name_d param_name idxs);
   stan.copyto_rows (stan.FArray sh (pre ++ replicate z (of_int 0)))
     (Z.of_nat c * (niter - warmup)) ((Z.of_nat c + 1) * (niter - warmup)) idxs
     (stan.slice_from draws warmup))
  = stan.Return (stan.FArray sh ((pre ++ block idxs chain) ++ replicate (z - nspc) (of_int 0))).
Proof.
  intros Hk Hc Hpre Hz.
  pose proof Hok as (_ & Hdims & _ & _ & Hw & _ & Hall).
  assert (chain ∈ chains) as Hin by (by apply list_elem_of_lookup_2 with c).
  assert (idxs ∈ stan.idxs_f dims) as Hi by (by apply list_elem_of_lookup_2 with k).
  destruct (Hall chain idxs Hin (proj1 (idxs_f_elem_of _ _) Hi)) as (draws & Hd & Hl).
  pose proof (lookup_lt_Some _ _ _ Hc) as Hclt.
  unfold stan.item, norm_index.
  destruct (Z.leb_spec 0 (Z.of_nat c)); [|lia].
  destruct (Z.ltb_spec (Z.of_nat c) (Z.of_nat (length chains))); [|lia].
  rewrite Nat2Z.id, Hc. cbn [from_option mbind stan.outcome_bind].
  unfold stan.key_item. rewrite Hd. cbn [from_option mbind stan.outcome_bind].
  assert (stan.slice_from draws warmup = block idxs chain) as Hsrc.
  { unfold stan.slice_from, block, slice_bound. rewrite Hd. cbn [default from_option].
    unfold Datatypes.id. destruct (Z.ltb_spec warmup 0); [lia|]. f_equal. lia. }
  rewrite Hsrc. pose proof (chain_block_length idxs chain Hin Hi) as Hbl.
  unfold sh.
  rewrite (copyto_rows_block nsamp dims _ _ _ _ idxs (c * nspc)%nat (S c * nspc)%nat).
  - cbv zeta. rewrite (idxs_f_offset dims k idxs Hdims Hk).
    replace (S c * nspc - c * nspc)%nat with nspc by lia.
    do 2 f_equal. apply write_block; [|done|done]. rewrite Hpre. lia.
  - unfold slice_bound. destruct (Z.ltb_spec (Z.of_nat c * (niter - warmup)) 0); [nia|].
    unfold nsamp, nspc. nia.
  - unfold slice_bound. destruct (Z.ltb_spec ((Z.of_nat c + 1) * (niter - warmup)) 0); [nia|].
    unfold nsamp, nspc. nia.
  - rewrite Hbl. lia.
Qed.

Lemma copy_chains_loop (k : nat) (idxs : list Z) (pre : vector) (m c0 z : nat) :
  stan.idxs_f dims !! k = Some idxs →
  length pre = (k * nsamp)%nat → (c0 + m <= length chains)%nat → (m * nspc <= z)%nat →
  stan.for_o (seqZ (Z.of_nat c0) (Z.of_nat m))
    (fun c out =>
       chain ← stan.item chains c;
       draws ← stan.key_item chain (stan.param_name_d param_name idxs);
       stan.copyto_rows out (c * (niter - warmup)) ((c + 1) * (niter - warmup)) idxs
         (stan.slice_from draws warmup))
    (stan.FArray sh ((pre ++ concat (block idxs <$> take c0 chains))
                     ++ replicate z (of_int 0)))
  = stan.Return (stan.FArray sh ((pre ++ concat (block idxs <$> take (c0 + m) chains))
                                 ++ replicate (z - m * nspc) (of_int 0))).
Proof.
  intros Hk Hpre. revert c0 z. induction m as [|m IH]; intros c0 z Hc Hz.
  { cbn [stan.for_o seqZ]. rewrite Nat.add_0_r. by replace (z - 0 * nspc)%nat with z by lia. }
  rewrite Nat2Z.inj_succ, seqZ_cons by lia. cbn [stan.for_o].
  destruct (lookup_lt_is_Some_2 chains c0) as [chain Hchain]; [lia|].
  assert (idxs ∈ stan.idxs_f dims) as Hi by (by apply list_elem_of_lookup_2 with k).
  rewrite (copy_chain_step k c0 idxs chain) by
    (done || lia || (rewrite length_app, Hpre, chain_blocks_length by (done || lia); lia)).
  cbn [mbind stan.outcome_bind].
  replace (Z.pred (Z.succ (Z.of_nat m))) with (Z.of_nat m) by lia.
  replace (Z.succ (Z.of_nat c0)) with (Z.of_nat (S c0)) by lia.
  replace ((pre ++ concat (block idxs <$> take c0 chains)) ++ block idxs chain)
    with (pre ++ concat (block idxs <$> take (S c0) chains)).
  2:{ rewrite (take_S_r _ _ _ Hchain), fmap_app, concat_app. cbn [fmap list_fmap concat].
      by rewrite app_nil_r, app_assoc. }
  rewrite IH by (simpl in Hz; lia).
  replace (S c0 + m)%nat with (c0 + S m)%nat by lia.
  by replace (z - nspc - m * nspc)%nat with (z - S m * nspc)%nat by (simpl; lia).
Qed.

Lemma kept_prefix_length (k : nat) :
  (k <= length (stan.idxs_f dims))%nat →
  length (concat (kept_draws f param_name warmup <$> take k (stan.idxs_f dims)))
  = (k * nsamp)%nat.
Proof.
  induction k as [|k IH]; intros Hk; [done|].
  destruct (lookup_lt_is_Some_2 (stan.idxs_f dims) k) as [idxs Hidxs]; [lia|].
  rewrite (take_S_r _ _ _ Hidxs), fmap_app, concat_app, length_app, IH by lia.
  cbn [fmap list_fmap concat]. rewrite app_nil_r, kept_draws_length; [lia|].
  by apply list_elem_of_lookup_2 with k.
Qed.

Lemma copy_indexes_loop (L : list (list Z)) (k0 z : nat) :
  (∀ j idxs, L !! j = Some idxs → stan.idxs_f dims !! (k0 + j)%nat = Some idxs) →
  (length L * nsamp <= z)%nat →
  stan.for_o L
    (fun idxs out =>
       stan.for_o (py_range (Z.of_nat (length chains)))
         (fun c out =>
            chain ← stan.item chains c;
            draws ← stan.key_item chain (stan.param_name_d param_name idxs);
            stan.copyto_rows out (c * (niter - warmup)) ((c + 1) * (niter - warmup)) idxs
              (stan.slice_from draws warmup))
         out)
    (stan.FArray sh (concat (kept_draws f param_name warmup <$> take k0 (stan.idxs_f dims))
                     ++ replicate z (of_int 0)))
  = stan.Return
      (stan.FArray sh
         (concat (kept_draws f param_name warmup <$> take (k0 + length L) (stan.idxs_f dims))
          ++ replicate (z - length L * nsamp) (of_int 0))).
Proof.
  revert k0 z. induction L as [|idxs L IH]; intros k0 z HL Hz.
  { cbn [stan.for_o length]. rewrite Nat.add_0_r. by replace (z - 0 * nsamp)%nat with z by lia. }
  cbn [stan.for_o].
  pose proof (HL 0%nat idxs eq_refl) as Hk. rewrite Nat.add_0_r in Hk.
  pose proof (lookup_lt_Some _ _ _ Hk) as Hklt.
  cbn [length] in Hz.
  pose proof (copy_chains_loop k0 idxs
                (concat (kept_draws f param_name warmup <$> take k0 (stan.idxs_f dims)))
                (length chains) 0 z Hk (kept_prefix_length k0 ltac:(lia)) ltac:(lia)
                ltac:(unfold nsamp in Hz; lia)) as Hin.
  cbn [take fmap list_fmap concat] in Hin. rewrite app_nil_r in Hin.
  change (seqZ (Z.of_nat 0) (Z.of_nat (length chains)))
    with (py_range (Z.of_nat (length chains))) in Hin.
  rewrite Hin.
  cbn [mbind stan.outcome_bind].
  rewrite Nat.add_0_l, firstn_all.
  replace (concat (kept_draws f param_name warmup <$> take k0 (stan.idxs_f dims))
           ++ concat (block idxs <$> chains))
    with (concat (kept_draws f param_name warmup <$> take (S k0) (stan.idxs_f dims))).
  2:{ rewrite (take_S_r _ _ _ Hk), fmap_app, concat_app. cbn [fmap list_fmap concat].
      by rewrite app_nil_r. }
  rewrite IH.
  - replace (S k0 + length L)%nat with (k0 + S (length L))%nat by lia.
    by replace (z - length chains * nspc - length L * nsamp)%nat
         with (z - S (length L) * nsamp)%nat by (unfold nsamp; simpl; lia).
  - intros j idxs' Hj. replace (S k0 + j)%nat with (k0 + S j)%nat by lia. by apply HL.
  - fold nsamp. lia.
Qed.

(** [copy_fit_samples] on a well-formed fit. *)
Lemma copy_fit_samples_ok :
  stan.copy_fit_samples f param_name
  = stan.Return (stan.FArray sh (concat (kept_draws f param_name warmup <$> stan.idxs_f dims))).
Proof.
  pose proof Hok as ((i & Hfind & Hpd) & Hdims & Hn & Hw & Hwn & (chain0 & lp & Hc0 & Hlp & Hlen)
                     & Hall).
  fold chains in Hn, Hc0.
  unfold stan.copy_fit_samples, stan.index_of. rewrite Hfind. cbn [mbind stan.outcome_bind].
  rewrite (item_lookup _ _ _ Hpd). cbn [mbind stan.outcome_bind].
  destruct (stan.warmup2 (stan.fit_sim f)) as [|w0 ws] eqn:Hws; [done|].
  injection Hw as ->.
  pose proof (item_lookup (warmup :: ws) 0%nat warmup eq_refl) as Hw0.
  pose proof (item_lookup chains 0%nat chain0 Hc0) as Hch0.
  change (Z.of_nat 0) with 0 in Hw0, Hch0.
  rewrite Hw0. cbn [mbind stan.outcome_bind].
  fold chains. rewrite Hch0. cbn [mbind stan.outcome_bind].
  rewrite (key_item_lookup _ _ _ Hlp). cbn [mbind stan.outcome_bind].
  rewrite Hlen, Hn.
  assert (Z.of_nat (length chains) * (niter - warmup) = Z.of_nat nsamp) as Hns
    by (unfold nsamp, nspc; nia).
  rewrite Hns. unfold stan.np_empty_f.
  assert (existsb (fun n => n <? 0) (Z.of_nat nsamp :: dims) = false) as ->.
  { apply not_true_is_false. intros (x & Hx & Hneg)%existsb_exists.
    apply Z.ltb_lt in Hneg. destruct Hx as [<-|Hx]; [lia|].
    rewrite Forall_forall in Hdims. apply list_elem_of_In, Hdims in Hx. lia. }
  cbn [mbind stan.outcome_bind foldr].
  pose proof (idxs_f_length dims Hdims) as HI.
  assert (0 <= foldr Z.mul 1 dims) as Hprod.
  { clear -Hdims. induction Hdims; simpl; [lia|nia]. }
  pose proof (copy_indexes_loop (stan.idxs_f dims) 0
                (Z.to_nat (Z.of_nat nsamp * foldr Z.mul 1 dims))
                ltac:(intros j idxs Hj; exact Hj) ltac:(nia)) as Hloop.
  rewrite take_0 in Hloop. cbn [fmap list_fmap concat app] in Hloop. fold sh.
  rewrite Hloop. rewrite Nat.add_0_l, firstn_all.
  match goal with |- context [replicate ?n _] => replace n with 0%nat by nia end.
  cbn [replicate]. by rewrite app_nil_r.
Qed.

Lemma kept_cells_length :
  Z.of_nat (length (concat (kept_draws f param_name warmup <$> stan.idxs_f dims)))
  = foldr Z.mul 1 sh.
Proof.
  pose proof Hok as (_ & Hdims & _).
  pose proof (kept_prefix_length (length (stan.idxs_f dims)) ltac:(lia)) as H.
  rewrite firstn_all in H. rewrite H. unfold sh. cbn [foldr].
  rewrite <- (idxs_f_length dims Hdims). lia.
Qed.

Lemma kept_cell (c : nat) (chain : gmap string vector) (idxs : list Z) (t : Z) :
  chains !! c = Some chain → valid_index dims idxs → 0 <= t < niter - warmup →
  ∃ draws x,
    chain !! stan.param_name_d param_name idxs = Some draws ∧
    draws !! Z.to_nat (warmup + t) = Some x ∧
    cell_f (stan.FArray sh (concat (kept_draws f param_name warmup <$> stan.idxs_f dims)))
      (Z.of_nat c * (niter - warmup) + t :: idxs) = Some x.
Proof.
  intros Hc Hv Ht.
  pose proof Hok as (_ & Hdims & _ & _ & Hw & _ & Hall).
  assert (chain ∈ chains) as Hin by (by apply list_elem_of_lookup_2 with c).
  destruct (Hall chain idxs Hin Hv) as (draws & Hd & Hl).
  destruct (lookup_lt_is_Some_2 draws (Z.to_nat (warmup + t))) as [x Hx]; [lia|].
  exists draws, x. split; [done|]. split; [done|].
  pose proof (offset_f_nonneg dims idxs Hv) as Hnn.
  assert (stan.idxs_f dims !! Z.to_nat (stan.offset_f dims idxs) = Some idxs) as Hk.
  { apply idxs_f_lookup_valid. split; [done|lia]. }
  set (k := Z.to_nat (stan.offset_f dims idxs)) in *.
  assert (idxs ∈ stan.idxs_f dims) as Hi by (by apply idxs_f_elem_of).
  pose proof (lookup_lt_Some _ _ _ Hc) as Hclt.
  pose proof (lookup_lt_Some _ _ _ Hk) as Hklt.
  unfold cell_f. cbn [stan.shape stan.cells]. unfold sh. cbn [stan.offset_f].
  replace (Z.to_nat (Z.of_nat c * (niter - warmup) + t
                     + Z.of_nat nsamp * stan.offset_f dims idxs))
    with (k * nsamp + (c * nspc + Z.to_nat t))%nat by (unfold k, nspc; nia).
  rewrite <- (kept_prefix_length k) by lia. rewrite fmap_take.
  assert ((c * nspc + Z.to_nat t < nsamp)%nat) as Hs by (unfold nsamp, nspc; nia).
  rewrite (concat_lookup_block _ k _ (kept_draws f param_name warmup idxs))
    by (by rewrite ?list_lookup_fmap, ?Hk, ?kept_draws_length).
  unfold kept_draws. fold chains. fold (block idxs).
  rewrite <- (chain_blocks_length idxs c Hi) by lia. rewrite fmap_take.
  rewrite (concat_lookup_block _ c _ (block idxs chain)).
  - unfold block. rewrite Hd. cbn [default from_option]. unfold Datatypes.id.
    rewrite lookup_drop. by replace (Z.to_nat warmup + Z.to_nat t)%nat
                            with (Z.to_nat (warmup + t)) by lia.
  - by rewrite list_lookup_fmap, Hc.
  - rewrite chain_block_length by done. unfold nspc. lia.
Qed.

End CopyLoop.

(** X14: for a fit object that holds the parameter with [niter] draws per
    chain, [copy_fit_samples] returns an array of the shape
    [(nchains * (niter - warmup), *dims)] all of whose cells are written:
    the cell [[c * (niter - warmup) + t, *idxs]] holds the draw
    [warmup + t] of the entry [idxs] of the parameter in the chain [c]. *)
Theorem copy_fit_samples_cells {FL : Float64} (f : stan.fit) (param_name : string)
    (dims : list Z) (warmup niter : Z) :
  fit_ok f param_name dims warmup niter →
  ∃ out,
    stan.copy_fit_samples f param_name = stan.Return out ∧
    stan.shape out = stan.chains (stan.fit_sim f) * (niter - warmup) :: dims ∧
    Z.of_nat (length (stan.cells out)) = foldr Z.mul 1 (stan.shape out) ∧
    ∀ (c : nat) chain idxs t,
      stan.samples (stan.fit_sim f) !! c = Some chain → valid_index dims idxs →
      0 <= t < niter - warmup →
      ∃ draws x,
        chain !! stan.param_name_d param_name idxs = Some draws ∧
        draws !! Z.to_nat (warmup + t) = Some x ∧
        cell_f out (Z.of_nat c * (niter - warmup) + t :: idxs) = Some x.
Proof.
  intros Hok. eexists. split; [by apply copy_fit_samples_ok with (1 := Hok)|].
  pose proof Hok as (_ & _ & Hn & _ & Hw & _).
  split; [|split].
  - cbn [stan.shape]. f_equal. rewrite Hn. nia.
  - cbn [stan.shape stan.cells]. by apply kept_cells_length.
  - intros c chain idxs t Hc Hv Ht. by apply kept_cell.
Qed.

(** X15: the F-order enumeration of the indexes lists the index tuples of
    the shape [dims], each one once, at the rank that is its position in the
    memory of an F-order array. *)
Theorem idxs_f_enumerates (dims : list Z) (k : nat) (idxs : list Z) :
  stan.idxs_f dims !! k = Some idxs
  ↔ valid_index dims idxs ∧ stan.offset_f dims idxs = Z.of_nat k.
Proof. apply idxs_f_lookup_valid. Qed.

(** X16: a parameter name that the model does not have is a [ValueError] of
    [list.index], whatever the fit holds. *)
Theorem copy_fit_samples_unknown_parameter {FL : Float64} (f : stan.fit)
    (param_name : string) :
  param_name ∉ stan.model_pars f →
  stan.copy_fit_samples f param_name
  = stan.Throw (stan.ValueError ("'" +:+ param_name +:+ "' is not in list")).
Proof.
  intros Hnot. unfold stan.copy_fit_samples, stan.index_of.
  destruct (list_find _ _) as [[i y]|] eqn:Hfind; [|done].
  apply list_find_Some in Hfind as (Hi & -> & _).
  destruct Hnot. by apply list_elem_of_lookup_2 with i.
Qed.

(** ** An example fit: two chains, a scalar and a vector parameter *)

Definition chain_example (a b c : Z) : gmap string (list Q) :=
  <["lp__" := [0%Q; 0%Q; 0%Q]]>
    (<["beta[0]" := inject_Z <$> [a; a + 1; a + 2]]>
       (<["beta[1]" := inject_Z <$> [b; b + 1; b + 2]]>
          (<["s" := inject_Z <$> [c; c; c]]> ∅))).

Definition fit_example : stan.fit (FL := Q_float) :=
  stan.Fit (FL := Q_float) ["s"; "beta"] [[]; [2]]
    (stan.Sim (FL := Q_float) 2 [1] [chain_example 10 20 1; chain_example 30 40 2]).

Lemma fit_example_ok : fit_ok (FL := Q_float) fit_example "beta" [2] 1 3.
Proof.
  split; [|split; [|split; [|split; [|split; [|split]]]]].
  - exists 1%nat. split; reflexivity.
  - repeat constructor; lia.
  - reflexivity.
  - reflexivity.
  - lia.
  - exists (chain_example 10 20 1), [0%Q; 0%Q; 0%Q]. repeat split; reflexivity.
  - intros chain idxs Hc Hv. apply idxs_f_elem_of in Hv.
    cbn [fit_example stan.samples stan.fit_sim] in Hc.
    apply list_elem_of_In in Hc. apply list_elem_of_In in Hv.
    destruct Hc as [<-|[<-|[]]]; destruct Hv as [<-|[<-|[]]];
      eexists; split; reflexivity.
Defined.

Lemma copy_fit_samples_cells_witness :
  ∃ out,
    stan.copy_fit_samples fit_example "beta" = stan.Return out ∧
    stan.shape out = stan.chains (stan.fit_sim fit_example) * (3 - 1) :: [2] ∧
    Z.of_nat (length (stan.cells out)) = foldr Z.mul 1 (stan.shape out) ∧
    ∀ (c : nat) chain idxs t,
      stan.samples (stan.fit_sim fit_example) !! c = Some chain → valid_index [2] idxs →
      0 <= t < 3 - 1 →
      ∃ draws x,
        chain !! stan.param_name_d "beta" idxs = Some draws ∧
        draws !! Z.to_nat (1 + t) = Some x ∧
        cell_f out (Z.of_nat c * (3 - 1) + t :: idxs) = Some x.
Proof. exact (copy_fit_samples_cells fit_example "beta" [2] 1 3 fit_example_ok). Defined.

Lemma copy_fit_samples_unknown_parameter_witness :
  ("t" ∉ stan.model_pars fit_example) ∧
  stan.copy_fit_samples fit_example "t"
  = stan.Throw (stan.ValueError ("'" +:+ "t" +:+ "' is not in list")).
Proof.
  assert ("t" ∉ stan.model_pars fit_example) as H.
  { intros H. apply list_elem_of_In in H. destruct H as [H|[H|[]]]; discriminate H. }
  split; [exact H|]. exact (copy_fit_samples_unknown_parameter fit_example "t" H).
Defined.

(** The array of the example, as it lies in memory. *)
Example copy_fit_samples_example :
  stan.copy_fit_samples fit_example "beta"
  = stan.Return (stan.FArray (FL := Q_float) [4; 2]
                   (inject_Z <$> [11; 12; 31; 32; 21; 22; 41; 42])).
Proof. vm_compute. reflexivity. Qed.
